(** * gxai: the structured-I/O inference engine, embedded in Rocq

    A shallow embedding of [main.ts]: the markup codec ([objToXml],
    [xmlToObj]), the streaming tag demultiplexer ([processChunk]), the
    output-schema check ([validateNoArrays]), the payment-retry wrapper
    ([fetchWithPayment]), the model-guided selection steps and the run
    pipeline of [Agent]; then the event stream that [callLLM] reads, the
    task description ([generateTaskDescription]) and the citations of
    [deepResearch].

    Conventions.
    - A JavaScript string is a list of code units; the embedding covers the
      code units below 256 ([ascii]).  [txt "..."] writes a literal.
    - A JavaScript number is a rational ([Q]).  The rounding of doubles and
      the exponent form that [String] uses from 1e21 on are outside the
      model; [Number_toString] and [Number_of] are what JavaScript computes
      on the safe integers and on short decimals.
    - An object is the list of its own enumerable properties, in the order
      [Object.entries] visits them. *)

From Stdlib Require Import ZArith QArith Qround Qcanon Lia List Bool Ascii String.
From stdpp Require Import base list gmap.
Import ListNotations.

Local Open Scope char_scope.
Local Open Scope list_scope.

(** ** Strings *)

Definition str : Type := list ascii.

Definition txt (s : string) : str := list_ascii_of_string s.

Definition code (c : ascii) : N := N_of_ascii c.

Definition chr_eqb (a b : ascii) : bool := Ascii.eqb a b.

Fixpoint str_eqb (a b : str) : bool :=
  match a, b with
  | [], [] => true
  | x :: a', y :: b' => chr_eqb x y && str_eqb a' b'
  | _, _ => false
  end.

(** [String.prototype.startsWith]. *)
Fixpoint startsWith (s p : str) {struct p} : bool :=
  match p, s with
  | [], _ => true
  | x :: p', y :: s' => chr_eqb x y && startsWith s' p'
  | _ :: _, [] => false
  end.

(** [String.prototype.includes]. *)
Fixpoint includes (s sub : str) : bool :=
  startsWith s sub ||
  match s with
  | [] => false
  | _ :: s' => includes s' sub
  end.

Fixpoint take_while (p : ascii -> bool) (s : str) : str :=
  match s with
  | c :: s' => if p c then c :: take_while p s' else []
  | [] => []
  end.

Fixpoint drop_while (p : ascii -> bool) (s : str) : str :=
  match s with
  | c :: s' => if p c then drop_while p s' else s
  | [] => []
  end.

(** White space and line terminators below 256: TAB, LF, VT, FF, CR, SP,
    NBSP.  This is the class [\s] of a regular expression and the set that
    [trim] strips. *)
Definition is_js_space (c : ascii) : bool :=
  let n := code c in
  ((9 <=? n) && (n <=? 13) || (n =? 32) || (n =? 160))%N.

Definition trimStart (s : str) : str := drop_while is_js_space s.
Definition trimEnd (s : str) : str := rev (drop_while is_js_space (rev s)).
Definition trim (s : str) : str := trimEnd (trimStart s).

Definition is_digit (c : ascii) : bool := ((48 <=? code c) && (code c <=? 57))%N.
Definition is_upper (c : ascii) : bool := ((65 <=? code c) && (code c <=? 90))%N.
Definition is_lower (c : ascii) : bool := ((97 <=? code c) && (code c <=? 122))%N.
Definition is_letter (c : ascii) : bool := is_upper c || is_lower c.
(** The class [[a-zA-Z0-9_]]. *)
Definition is_word (c : ascii) : bool := is_letter c || is_digit c || chr_eqb c "_".

Definition join (sep : str) (parts : list str) : str :=
  match parts with
  | [] => []
  | p :: ps => p ++ concat (map (fun q => sep ++ q) ps)
  end.

Definition nonempty {A} (l : list A) : bool :=
  match l with
  | [] => false
  | _ :: _ => true
  end.

(** *** Decimal numerals *)

Definition digit_char (d : N) : ascii := ascii_of_N (48 + d).
Definition digit_val (c : ascii) : N := (code c - 48)%N.

Fixpoint N_digits (fuel : nat) (n : N) (acc : str) : str :=
  match fuel with
  | O => acc
  | S f =>
      let acc' := digit_char (n mod 10) :: acc in
      if (n / 10 =? 0)%N then acc' else N_digits f (n / 10) acc'
  end.

(** The decimal numeral of a natural number; a number has no more decimal
    digits than binary ones, which bounds the loop. *)
Definition N_to_str (n : N) : str := N_digits (S (N.to_nat (N.size n))) n [].

Definition parse_step (acc : N) (c : ascii) : N := (10 * acc + digit_val c)%N.

Definition parse_digits (s : str) : N := fold_left parse_step s 0%N.

Fixpoint frac_digits (fuel : nat) (r d : Z) : str :=
  match fuel with
  | O => []
  | S f =>
      if (r =? 0)%Z then []
      else digit_char (Z.to_N (r * 10 / d)) :: frac_digits f ((r * 10) mod d) d
  end.

(** [String(x)] for a number: sign, integer part and, for a number that is
    not an integer, its decimal expansion (cut at 20 places). *)
Definition Number_toString (q : Q) : str :=
  let q' := Qred q in
  let n := Qnum q' in
  let d := Zpos (Qden q') in
  let a := Z.abs n in
  (if (n <? 0)%Z then txt "-" else []) ++
  N_to_str (Z.to_N (a / d)) ++
  (if (a mod d =? 0)%Z then [] else "." :: frac_digits 20 (a mod d) d).

(** The test [/^\d+(\.\d+)?$/]. *)
Definition is_numeric (s : str) : bool :=
  negb (str_eqb (take_while is_digit s) []) &&
  match drop_while is_digit s with
  | [] => true
  | c :: f => chr_eqb c "." && negb (str_eqb f []) && forallb is_digit f
  end.

(** [Number(s)] on a string accepted by [is_numeric]. *)
Definition Number_of (s : str) : Q :=
  match drop_while is_digit s with
  | _ :: f =>
      Qred (Z.of_N (parse_digits (take_while is_digit s ++ f))
            # Pos.pow 10 (Pos.of_nat (length f)))
  | [] => inject_Z (Z.of_N (parse_digits s))
  end.

(** ** Values *)

#[warnings="-register-all"]

Inductive JsVal : Type :=
| VUndef
| VNull
| VBool (b : bool)
| VNum (q : Q)
| VStr (s : str)
| VArr (items : list JsVal)
| VObj (entries : list (str * JsVal)).

(** [typeof v === "object"]. *)
Definition typeof_object (v : JsVal) : bool :=
  match v with
  | VNull | VArr _ | VObj _ => true
  | _ => false
  end.

Definition is_nullish (v : JsVal) : bool :=
  match v with
  | VUndef | VNull => true
  | _ => false
  end.

(** [String(v)]. *)
Fixpoint js_String (v : JsVal) : str :=
  match v with
  | VUndef => txt "undefined"
  | VNull => txt "null"
  | VBool true => txt "true"
  | VBool false => txt "false"
  | VNum q => Number_toString q
  | VStr s => s
  | VArr items =>
      join (txt ",")
        (map (fun x => if is_nullish x then [] else js_String x) items)
  | VObj _ => txt "[object Object]"
  end.

(** Own-property read [o[k]]; [undefined] when absent or when [o] is not an
    object. *)
Fixpoint assoc (k : str) (es : list (str * JsVal)) : option JsVal :=
  match es with
  | [] => None
  | (k', v) :: es' => if str_eqb k k' then Some v else assoc k es'
  end.

Definition get (o : JsVal) (k : str) : JsVal :=
  match o with
  | VObj es => default VUndef (assoc k es)
  | _ => VUndef
  end.

(** ** Markup codec: [objToXml] *)

Definition sanitizeTagName (name : str) : str :=
  let s1 := map (fun c => if is_word c then c else "_") name in
  match s1 with
  | c :: _ => if is_letter c then s1 else txt "tag_" ++ s1
  | [] => []
  end.

Definition wrapTag (tag content : str) : str :=
  let safeTag := sanitizeTagName tag in
  "<" :: safeTag ++ ">" :: content ++ "<" :: "/" :: safeTag ++ [">"].

(** The filter [v !== undefined && v !== null] on entries. *)
Definition kept_entry (kv : str * JsVal) : bool := negb (is_nullish (snd kv)).

(** [parentKey] is [None] when the argument is omitted; [truthy_key] is the
    test [parentKey ? .. : ..], which an empty string fails. *)
Definition truthy_key (parentKey : option str) : option str :=
  match parentKey with
  | Some (c :: k) => Some (c :: k)
  | _ => None
  end.

Fixpoint objToXml (obj : JsVal) (parentKey : option str) : str :=
  match obj with
  | VArr items =>
      wrapTag (default (txt "array") parentKey)
        (concat (map (fun item =>
           wrapTag (txt "item")
             (if typeof_object item then objToXml item None else js_String item))
           items))
  | VObj es =>
      match List.filter kept_entry es with
      | [] => wrapTag (default (txt "empty") (truthy_key parentKey)) []
      | _ :: _ =>
          (* the entries dropped by the filter contribute nothing to the
             joined content, so the map runs over [es] itself *)
          let content :=
            concat (map (fun kv =>
              if kept_entry kv then
                if typeof_object (snd kv) then objToXml (snd kv) (Some (fst kv))
                else "<" :: fst kv ++ ">" :: js_String (snd kv)
                     ++ "<" :: "/" :: fst kv ++ [">"]
              else [])
              es) in
          match truthy_key parentKey with
          | Some pk => wrapTag pk content
          | None => content
          end
      end
  | _ => wrapTag (default (txt "value") (truthy_key parentKey)) (js_String obj)
  end.

(** ** Markup codec: [xmlToObj]

    The scanner is the regular expression with the pieces
    [<]  [([^>\s/]+)]  [[^>]* ]  [>]  [(.*?)]  [</\1>]  and the flags [g] and
    [s], run by a backtracking matcher.
    At a ['<'] the tag name is tried from its longest extent down to one
    character; [[^>]*] always runs to the first ['>'] after the name; the
    lazy body [.*?] stops at the first occurrence of the closing tag of the
    name being tried. *)

(** The class [[^>\s/]]. *)
Definition name_char (c : ascii) : bool :=
  negb (chr_eqb c ">" || is_js_space c || chr_eqb c "/").

Definition not_gt (c : ascii) : bool := negb (chr_eqb c ">").

Definition closing_tag (name : str) : str := "<" :: "/" :: name ++ [">"].

(** The lazy body: the shortest prefix of [s] followed by [closing]; returns
    that prefix and what follows the closing tag. *)
Fixpoint find_close (closing s : str) : option (str * str) :=
  if startsWith s closing then Some ([], drop (length closing) s)
  else
    match s with
    | [] => None
    | c :: s' =>
        match find_close closing s' with
        | Some (body, rest) => Some (c :: body, rest)
        | None => None
        end
    end.

(** [r] is the text after ['<']; names of length [n], [n-1], .., 1 are
    tried in turn.  The result is the name, the body and the text after the
    whole match. *)
Fixpoint try_names (n : nat) (r : str) : option (str * str * str) :=
  match n with
  | O => None
  | S n' =>
      let name := take n r in
      match drop_while not_gt (drop n r) with
      | _ :: body =>
          match find_close (closing_tag name) body with
          | Some (content, rest) => Some (name, content, rest)
          | None => try_names n' r
          end
      | [] => try_names n' r
      end
  end.

(** One attempt of the expression at the start of [s]. *)
Definition match_here (s : str) : option (str * str * str) :=
  match s with
  | c :: r =>
      if chr_eqb c "<" then try_names (length (take_while name_char r)) r
      else None
  | [] => None
  end.

(** All matches of the global expression, as the loop
    [while ((match = tagRegex.exec(content)) !== null)] meets them: the
    leftmost match from [lastIndex], then on from its end.  [skip] counts
    the characters still covered by the previous match. *)
Fixpoint exec_all_from (skip : nat) (s : str) : list (str * str) :=
  match s with
  | [] => []
  | _ :: r =>
      match skip with
      | S k => exec_all_from k r
      | O =>
          match match_here s with
          | Some (name, content, rest) =>
              (name, content) :: exec_all_from (length s - length rest - 1) r
          | None => exec_all_from 0 r
          end
      end
  end.

Definition exec_all (s : str) : list (str * str) := exec_all_from 0 s.

(** An array index: the canonical numeral of an integer below 2^32 - 1.
    Such keys are enumerated first, in numeric order. *)
Definition is_array_index (k : str) : bool :=
  negb (str_eqb k []) && forallb is_digit k &&
  (str_eqb k (txt "0") || negb (startsWith k (txt "0"))) &&
  (length k <=? 10)%nat && (parse_digits k <? 4294967295)%N.

Fixpoint insert_index (k : str) (v : JsVal) (es : list (str * JsVal))
  : list (str * JsVal) :=
  match es with
  | [] => [(k, v)]
  | (k', v') :: es' =>
      if is_array_index k' && (parse_digits k' <? parse_digits k)%N
      then (k', v') :: insert_index k v es'
      else (k, v) :: es
  end.

Fixpoint replace_entry (k : str) (v : JsVal) (es : list (str * JsVal))
  : list (str * JsVal) :=
  match es with
  | [] => []
  | (k', v') :: es' =>
      if str_eqb k k' then (k, v) :: es' else (k', v') :: replace_entry k v es'
  end.

(** The assignment [result[k] = v] on the own properties of an object.  An
    existing key keeps its place; a new array index goes among the indices;
    any other new key goes last.  [__proto__] names the prototype slot, not
    an own property. *)
Definition obj_set (k : str) (v : JsVal) (es : list (str * JsVal))
  : list (str * JsVal) :=
  if str_eqb k (txt "__proto__") then es
  else
    match assoc k es with
    | Some _ => replace_entry k v es
    | None => if is_array_index k then insert_index k v es else es ++ [(k, v)]
    end.

(** The leaf coercion of [parseElement]. *)
Definition coerce (trimmedContent : str) : JsVal :=
  if str_eqb trimmedContent (txt "true") || str_eqb trimmedContent (txt "false")
  then VBool (str_eqb trimmedContent (txt "true"))
  else if is_numeric trimmedContent then VNum (Number_of trimmedContent)
  else VStr trimmedContent.

(** [parseElement] calls itself on the body of a match, which is shorter
    than the text it was found in: [fuel] bounds the nesting, and a text of
    length [n] never needs more than [n]. *)
Fixpoint parseElement (fuel : nat) (content : str) : JsVal :=
  let content := trim content in
  if negb (includes content (txt "<")) then VStr content
  else
    match exec_all content with
    | [] => VStr content
    | ms =>
        VObj (fold_left (fun result m =>
                obj_set (fst m)
                  (if includes (trim (snd m)) (txt "<") then
                     match fuel with
                     | O => VUndef
                     | S f => parseElement f (snd m)
                     end
                   else coerce (trim (snd m)))
                  result)
              ms [])
    end.

Definition xmlToObj (xmlContent : str) : JsVal :=
  parseElement (length xmlContent) xmlContent.

Definition prepend (x : str) (found : option (str * str)) : option (str * str) :=
  match found with
  | Some (body, rest) => Some (x ++ body, rest)
  | None => None
  end.

(** The lazy body runs over [x] without stopping in it. *)
Definition skips (closing x : str) : Prop :=
  forall s, find_close closing (x ++ s) = prepend x (find_close closing s).

(** What one entry of an object adds to the text: the body of the map in
    [objToXml]. *)
Definition renderEntry (kv : str * JsVal) : str :=
  if kept_entry kv then
    if typeof_object (snd kv) then objToXml (snd kv) (Some (fst kv))
    else "<" :: fst kv ++ ">" :: js_String (snd kv) ++ "<" :: "/" :: fst kv ++ [">"]
  else [].

(** The text between the tags of an entry. *)
Definition innerText (v : JsVal) : str :=
  match v with
  | VObj es => concat (map renderEntry es)
  | _ => js_String v
  end.

Definition openingTag (name : str) : str := "<" :: name ++ [">"].

(** The nesting of objects in a tree. *)
Fixpoint height (v : JsVal) : nat :=
  match v with
  | VObj es => S (list_max (map (fun kv => height (snd kv)) es))
  | _ => O
  end.

(** *** Trees the codec takes there and back *)

(** A key of the alphabet of the round-trip property: [[A-Za-z0-9_]], a
    letter first. *)
Definition keyOk (k : str) : bool :=
  match k with
  | c :: r => is_letter c && forallb is_word r
  | [] => false
  end.

Definition no_char (x : ascii) (s : str) : bool := forallb (fun c => negb (chr_eqb c x)) s.

(** A string leaf that [parseElement] hands back as it is: no ['<'], no
    white space at either end, and not the text of a boolean or of a
    number. *)
Definition plainText (s : str) : bool :=
  no_char "<" s && str_eqb (trim s) s &&
  negb (str_eqb s (txt "true")) && negb (str_eqb s (txt "false")) &&
  negb (is_numeric s).

(** A number leaf the codec prints as a plain numeral and reads back
    exactly: an integer from 0 to [Number.MAX_SAFE_INTEGER]. *)
Definition naturalNumber (q : Q) : bool :=
  (0 <=? Qnum q)%Z && (Qnum q <=? 9007199254740991)%Z && (Qden q =? 1)%positive.

(** Every key of a tree, at any depth. *)
Fixpoint allKeys (v : JsVal) : list str :=
  match v with
  | VObj es => concat (map (fun kv => fst kv :: allKeys (snd kv)) es)
  | VArr items => concat (map allKeys items)
  | _ => []
  end.

Definition mem (k : str) (ks : list str) : bool := existsb (str_eqb k) ks.

Fixpoint distinct (ks : list str) : bool :=
  match ks with
  | [] => true
  | k :: ks' => negb (mem k ks') && distinct ks'
  end.

(** The trees that come back as they went in: objects that are not empty,
    with distinct keys of the alphabet, no key used again below itself,
    and leaves that are booleans, natural numbers or plain text. *)
Fixpoint faithful (v : JsVal) : bool :=
  match v with
  | VBool _ => true
  | VNum q => naturalNumber q
  | VStr s => plainText s
  | VObj es =>
      nonempty es && distinct (map fst es) &&
      forallb (fun kv =>
                 keyOk (fst kv) && negb (mem (fst kv) (allKeys (snd kv)))
                 && faithful (snd kv)) es
  | _ => false
  end.

(** The trees the specification states the round trip for: objects with
    distinct keys of the alphabet; strings, numbers and booleans at the
    leaves; no arrays. *)
Fixpoint plainTree (v : JsVal) : bool :=
  match v with
  | VBool _ | VNum _ | VStr _ => true
  | VObj es =>
      distinct (map fst es) &&
      forallb (fun kv => keyOk (fst kv) && plainTree (snd kv)) es
  | _ => false
  end.

Definition sampleTree : JsVal :=
  VObj [(txt "name", VStr (txt "test"));
        (txt "value", VNum 42);
        (txt "nested", VObj [(txt "flag", VBool true);
                             (txt "note", VStr (txt "hi there"))])].

(** *** Induction on values *)

Section JsVal_nested_ind.
Variable P : JsVal -> Prop.
Hypothesis Hundef : P VUndef.
Hypothesis Hnull : P VNull.
Hypothesis Hbool : forall b, P (VBool b).
Hypothesis Hnum : forall q, P (VNum q).
Hypothesis Hstr : forall s, P (VStr s).
Hypothesis Harr : forall items, Forall P items -> P (VArr items).
Hypothesis Hobj : forall es, Forall (fun kv => P (snd kv)) es -> P (VObj es).

Fixpoint JsVal_nested_ind (v : JsVal) : P v :=
  match v with
  | VUndef => Hundef
  | VNull => Hnull
  | VBool b => Hbool b
  | VNum q => Hnum q
  | VStr s => Hstr s
  | VArr items =>
      Harr items
        ((fix all (l : list JsVal) : Forall P l :=
            match l with
            | [] => @List.Forall_nil _ _
            | x :: l' => @List.Forall_cons _ _ x l' (JsVal_nested_ind x) (all l')
            end) items)
  | VObj es =>
      Hobj es
        ((fix all (l : list (str * JsVal)) : Forall (fun kv => P (snd kv)) l :=
            match l with
            | [] => @List.Forall_nil _ _
            | kv :: l' =>
                @List.Forall_cons _ _ kv l' (JsVal_nested_ind (snd kv)) (all l')
            end) es)
  end.
End JsVal_nested_ind.

(** ** Streaming tag demultiplexer

    [processChunk] is written twice in [main.ts], in [callLLM] and in
    [callGemini], with the same text; one definition stands for both.  The
    variables the closure captures are the fields of [Demux]; the calls of
    [streamingCallback] are returned in order. *)

Record StreamingUpdate : Type := mkUpdate { field : str; value : str }.

Record Demux : Type := mkDemux {
  fullResponse : str;
  tagStack : list str;
  currentTagName : str;
  wordBuffer : str;
  insideTag : bool
}.

Definition demux_init : Demux := mkDemux [] [] [] [] false.

(** [tagStack.join("_")]. *)
Definition currentField (stack : list str) : str := join (txt "_") stack.

(** One turn of the loop [for (const char of chunk)]. *)
Definition processChar (st : Demux) (char : ascii) : Demux * list StreamingUpdate :=
  if chr_eqb char "<" then
    (mkDemux (fullResponse st) (tagStack st) [] [] true,
     if nonempty (wordBuffer st) && nonempty (tagStack st)
     then [mkUpdate (currentField (tagStack st)) (wordBuffer st)] else [])
  else if chr_eqb char ">" && insideTag st then
    (mkDemux (fullResponse st)
       (if startsWith (currentTagName st) (txt "/") then removelast (tagStack st)
        else if nonempty (trim (currentTagName st))
             then tagStack st ++ [trim (currentTagName st)]
             else tagStack st)
       [] [] false,
     [])
  else if insideTag st then
    (mkDemux (fullResponse st) (tagStack st) (currentTagName st ++ [char])
       (wordBuffer st) true,
     [])
  else if nonempty (tagStack st) then
    if chr_eqb char " " || chr_eqb char "010" then
      (mkDemux (fullResponse st) (tagStack st) (currentTagName st) [] false,
       (if nonempty (wordBuffer st)
        then [mkUpdate (currentField (tagStack st)) (wordBuffer st)] else [])
       ++ [mkUpdate (currentField (tagStack st)) [char]])
    else
      (mkDemux (fullResponse st) (tagStack st) (currentTagName st)
         (wordBuffer st ++ [char]) false,
       [])
  else (st, []).

Fixpoint processChars (st : Demux) (chars : str) : Demux * list StreamingUpdate :=
  match chars with
  | [] => (st, [])
  | c :: rest =>
      let '(st1, out1) := processChar st c in
      let '(st2, out2) := processChars st1 rest in
      (st2, out1 ++ out2)
  end.

Definition processChunk (st : Demux) (chunk : str) : Demux * list StreamingUpdate :=
  processChars
    (mkDemux (fullResponse st ++ chunk) (tagStack st) (currentTagName st)
       (wordBuffer st) (insideTag st))
    chunk.

(** "Send any pending word buffer at the end". *)
Definition flushPending (st : Demux) : list StreamingUpdate :=
  if nonempty (wordBuffer st) && nonempty (tagStack st)
  then [mkUpdate (currentField (tagStack st)) (wordBuffer st)] else [].

(** A stream delivered as a sequence of text deltas. *)
Fixpoint processStream (st : Demux) (chunks : list str) : Demux * list StreamingUpdate :=
  match chunks with
  | [] => (st, [])
  | chunk :: rest =>
      let '(st1, out1) := processChunk st chunk in
      let '(st2, out2) := processStream st1 rest in
      (st2, out1 ++ out2)
  end.

(** Every update a whole stream hands to the callback, final flush
    included. *)
Definition streamUpdates (chunks : list str) : list StreamingUpdate :=
  let '(st, out) := processStream demux_init chunks in
  out ++ flushPending st.

(** The text the consumer rebuilds for one field. *)
Definition fieldText (f : str) (updates : list StreamingUpdate) : str :=
  concat (map value (List.filter (fun u => str_eqb (field u) f) updates)).

(** Cutting a stream into chunks changes nothing but the moment the text
    is appended to [fullResponse]. *)
Definition sameParse (a b : Demux) : Prop :=
  tagStack a = tagStack b /\ currentTagName a = currentTagName b /\
  wordBuffer a = wordBuffer b /\ insideTag a = insideTag b.

(** Text with no ['<'] in it. *)
Definition no_lt (s : str) : Prop := Forall (fun c => c <> "<") s.

(** A tag name as the demultiplexer can meet it between ['<'] and ['>']. *)
Definition tag_name_ok (name : str) : Prop :=
  Forall (fun c => c <> "<" /\ c <> ">") name.

(** ** Output schema and [validateNoArrays] *)

#[warnings="-register-all"]
Inductive ZodType : Type :=
| ZodString
| ZodNumber
| ZodBoolean
| ZodEnum (values : list str)
| ZodArray (element : ZodType)
| ZodObject (shape : list (str * ZodType))
| ZodOptional (inner : ZodType)
| ZodNullable (inner : ZodType)
| ZodOther (typeName : str).

(** [path ? `${path}.${key}` : key]. *)
Definition extendPath (path key : str) : str :=
  match path with
  | [] => key
  | _ :: _ => path ++ "." :: key
  end.

Definition arrayError (currentPath key : str) : str :=
  txt "Arrays are not supported in output schema. Found array at path: "
  ++ currentPath ++ txt ". Use individual fields like " ++ key ++ txt "_1, "
  ++ key ++ txt "_2 instead.".

(** The first error a loop body raises over the entries, [None] when the
    loop runs to its end. *)
Fixpoint firstError {A} (body : A -> option str) (entries : list A) : option str :=
  match entries with
  | [] => None
  | e :: rest =>
      match body e with
      | Some err => Some err
      | None => firstError body rest
      end
  end.

(** The body of the loop of [validateNoArrays] for one field, after
    [currentPath] is computed: unwrap, test for an array, descend into an
    object.  The result is the message of the error thrown, if any. *)
Fixpoint validateField (currentPath key : str) (fieldSchema : ZodType) : option str :=
  match fieldSchema with
  | ZodOptional inner | ZodNullable inner => validateField currentPath key inner
  | ZodArray _ => Some (arrayError currentPath key)
  | ZodObject shape =>
      firstError
        (fun kf => validateField (extendPath currentPath (fst kf)) (fst kf) (snd kf))
        shape
  | _ => None
  end.


(** *** Arrays in a schema *)

(** The loop [while (typeName is ZodOptional or ZodNullable) unwrap()]. *)
Fixpoint unwrapAll (schema : ZodType) : ZodType :=
  match schema with
  | ZodOptional inner | ZodNullable inner => unwrapAll inner
  | _ => schema
  end.

(** An array kind somewhere in a schema: under optional and nullable
    wrappers and under the fields of objects, at any depth. *)
Fixpoint containsArray (schema : ZodType) : bool :=
  match schema with
  | ZodArray _ => true
  | ZodOptional inner | ZodNullable inner => containsArray inner
  | ZodObject shape => existsb (fun kf => containsArray (snd kf)) shape
  | _ => false
  end.

(** [arrayIn schema keys]: following [keys] from [schema], through the
    wrappers, leads to an array. *)
Inductive arrayIn : ZodType -> list str -> Prop :=
| arrayIn_here schema element :
    unwrapAll schema = ZodArray element -> arrayIn schema []
| arrayIn_field schema shape key fieldSchema keys :
    unwrapAll schema = ZodObject shape ->
    In (key, fieldSchema) shape ->
    arrayIn fieldSchema keys ->
    arrayIn schema (key :: keys).

(** The path [validateNoArrays] builds for a list of keys. *)
Definition dottedPath (path : str) (keys : list str) : str :=
  fold_left extendPath keys path.

Section ZodType_nested_ind.
Variable P : ZodType -> Prop.
Hypothesis Hstring : P ZodString.
Hypothesis Hnumber : P ZodNumber.
Hypothesis Hboolean : P ZodBoolean.
Hypothesis Henum : forall values, P (ZodEnum values).
Hypothesis Harray : forall element, P element -> P (ZodArray element).
Hypothesis Hobject :
  forall shape, Forall (fun kf => P (snd kf)) shape -> P (ZodObject shape).
Hypothesis Hoptional : forall inner, P inner -> P (ZodOptional inner).
Hypothesis Hnullable : forall inner, P inner -> P (ZodNullable inner).
Hypothesis Hother : forall typeName, P (ZodOther typeName).

Fixpoint ZodType_nested_ind (schema : ZodType) : P schema :=
  match schema with
  | ZodString => Hstring
  | ZodNumber => Hnumber
  | ZodBoolean => Hboolean
  | ZodEnum values => Henum values
  | ZodArray element => Harray element (ZodType_nested_ind element)
  | ZodObject shape =>
      Hobject shape
        ((fix fields (l : list (str * ZodType)) : Forall (fun kf => P (snd kf)) l :=
            match l with
            | [] => @List.Forall_nil _ _
            | kf :: l' =>
                @List.Forall_cons _ _ kf l' (ZodType_nested_ind (snd kf)) (fields l')
            end) shape)
  | ZodOptional inner => Hoptional inner (ZodType_nested_ind inner)
  | ZodNullable inner => Hnullable inner (ZodType_nested_ind inner)
  | ZodOther typeName => Hother typeName
  end.
End ZodType_nested_ind.

(** ** Outcomes and [measure]

    An awaited promise either resolves or rejects with an error, kept here
    by its message.

    [measure] comes from the package [@ments/utils], or from the caller as
    the third argument of [run]; its text is not part of the repository.
    The embedding takes from it what the call sites rely on: it runs the
    step once and hands back the value of a step that completes.  What it
    does with a step that fails is a parameter, [swallows]: at a call site
    where [swallows] holds the failure is reported as [null] ([None]),
    elsewhere it is thrown on. *)

Inductive Outcome (A : Type) : Type :=
| Resolved (a : A)
| Rejected (e : str).
Arguments Resolved {A} a.
Arguments Rejected {A} e.

(** The call sites of [measure]. *)
Inductive Step : Type :=
| AtRun | AtValidateInput | AtResolveFields
| AtSelectServers | AtSelectServersBody
| AtDiscoverAndInvoke | AtDiscoverTools
| AtSelectTools | AtSelectToolsBody
| AtExecuteTool | AtGenerateParameters | AtGenerateParametersBody | AtInvokeTool
| AtGenerateResponse | AtExecutePrompt | AtParseResponse | AtValidateOutput
| AtFetch | AtSendTransaction | AtConfirmTransaction.

Definition measure {A} (swallows : Step -> bool) (step : Step) (r : Outcome A)
  : Outcome (option A) :=
  match r with
  | Resolved a => Resolved (Some a)
  | Rejected e => if swallows step then Resolved None else Rejected e
  end.

Definition bind {A B} (r : Outcome A) (k : A -> Outcome B) : Outcome B :=
  match r with
  | Resolved a => k a
  | Rejected e => Rejected e
  end.

Notation "'let*' x := r 'in' k" := (bind r (fun x => k))
  (at level 10, x pattern, r at level 100, k at level 200).

(** ** Provider transport: [fetchWithPayment] *)

Record Response : Type := mkResponse {
  status : N;
  bodyText : str;              (* what [res.text()] resolves to *)
  bodyJson : option JsVal      (* [res.json()]; [None] when the body is not JSON *)
}.

(** [res.ok]. *)
Definition res_ok (res : Response) : bool :=
  ((200 <=? status res) && (status res <=? 299))%N.

Record Wallet : Type := mkWallet { privateKey : str; rpcUrl : option str }.

Record Transfer : Type := mkTransfer {
  fromKey : str;
  toPubkey : JsVal;
  lamports : option Z          (* [None] stands for NaN *)
}.

(** [Math.floor(amount * 1_000_000_000)] on a number. *)
Definition lamportsOf (amount : JsVal) : option Z :=
  match amount with
  | VNum q => Some (Qfloor (q * inject_Z 1000000000))
  | _ => None
  end.

(** What lies outside the program: the endpoint and the chain. *)
Record Network : Type := mkNetwork {
  (* the outcome of the n-th call [fetch(url, options)] of one wrapper call *)
  fetch : nat -> Outcome Response;
  (* [bs58.decode], [Keypair.fromSecretKey], [new PublicKey(recipient)] *)
  decodeKeys : str -> JsVal -> Outcome unit;
  sendTransaction : Transfer -> Outcome str;
  confirmTransaction : option str -> Outcome unit
}.

(** What a call of the wrapper does to the world, in order.  The calls of
    [progressCallback] are observations only and are left out. *)
Inductive NetEvent : Type :=
| Requested                    (* one call of [fetch] *)
| TransactionSent              (* one call of [sendTransaction] *)
| TransactionConfirmed.        (* one call of [confirmTransaction] *)

Definition requestFailed (res : Response) : str :=
  txt "Request failed: " ++ N_to_str (status res) ++ txt " - " ++ bodyText res.

Definition notJsonError : str := txt "SyntaxError: the response body is not JSON".
Definition nullAccessError : str := txt "TypeError: cannot read properties of null".

(** Lines 277-309: read the payment request, pay, wait for confirmation. *)
Definition payFor (swallows : Step -> bool) (net : Network) (wallet : Wallet)
    (res : Response) : Outcome unit * list NetEvent :=
  match bodyJson res with
  | None => (Rejected notJsonError, [])
  | Some paymentInfo =>
      if is_nullish paymentInfo then (Rejected nullAccessError, [])
      else
        let amount := get paymentInfo (txt "amount") in
        let recipient := get paymentInfo (txt "recipient") in
        match decodeKeys net (privateKey wallet) recipient with
        | Rejected e => (Rejected e, [])
        | Resolved _ =>
            let transfer := mkTransfer (privateKey wallet) recipient (lamportsOf amount) in
            match measure swallows AtSendTransaction (sendTransaction net transfer) with
            | Rejected e => (Rejected e, [TransactionSent])
            | Resolved signature =>
                match measure swallows AtConfirmTransaction
                        (confirmTransaction net signature) with
                | Rejected e => (Rejected e, [TransactionSent; TransactionConfirmed])
                | Resolved _ => (Resolved tt, [TransactionSent; TransactionConfirmed])
                end
            end
        end
  end.

(** The loop [while (true)] of [fetchWithPayment].  [budget] is
    [maxRetries - retries], so [retries >= maxRetries] reads [budget = 0]
    and [retries++] takes one off; [attempt] counts the calls of [fetch]. *)
Fixpoint fetchLoop (swallows : Step -> bool) (net : Network) (wallet : option Wallet)
    (budget attempt : nat) : Outcome Response * list NetEvent :=
  match measure swallows AtFetch (fetch net attempt) with
  | Rejected e => (Rejected e, [Requested])
  | Resolved None => (Rejected nullAccessError, [Requested])
  | Resolved (Some res) =>
      if res_ok res then (Resolved res, [Requested])
      else
        match budget, wallet with
        | S budget', Some w =>
            if negb (status res =? 402)%N
            then (Rejected (requestFailed res), [Requested])
            else
              match payFor swallows net w res with
              | (Rejected e, evs) => (Rejected e, Requested :: evs)
              | (Resolved _, evs) =>
                  let '(r, evs') := fetchLoop swallows net wallet budget' (S attempt) in
                  (r, Requested :: evs ++ evs')
              end
        | _, _ => (Rejected (requestFailed res), [Requested])
        end
  end.

Definition maxRetries : nat := 1.

Definition fetchWithPayment (swallows : Step -> bool) (net : Network)
    (wallet : option Wallet) : Outcome Response * list NetEvent :=
  fetchLoop swallows net wallet maxRetries 0.

Definition is_request (e : NetEvent) : bool :=
  match e with
  | Requested => true
  | _ => false
  end.

(** The number of requests a call put on the wire. *)
Definition requests (evs : list NetEvent) : nat := length (List.filter is_request evs).

(** *** Sample endpoints *)

(** The endpoint answers every attempt with status 402. *)
Definition always402 (net : Network) : Prop :=
  forall n, exists res, fetch net n = Resolved res /\ status res = 402%N.

(** An endpoint that answers 402 with a body that is not JSON, and one
    that answers 402 with a payment request; the chain accepts every
    transfer. *)
Definition plain402 : Network :=
  mkNetwork (fun _ => Resolved (mkResponse 402 (txt "Payment Required") None))
            (fun _ _ => Resolved tt)
            (fun _ => Resolved (txt "sig"))
            (fun _ => Resolved tt).

Definition paid402 : Network :=
  mkNetwork (fun _ => Resolved (mkResponse 402 (txt "pay first")
                          (Some (VObj [(txt "amount", VNum (1 # 1000));
                                       (txt "recipient", VStr (txt "addr"))]))))
            (fun _ _ => Resolved tt)
            (fun _ => Resolved (txt "sig"))
            (fun _ => Resolved tt).

Definition someWallet : Wallet := mkWallet (txt "key") None.

Definition rethrowing : Step -> bool := fun _ => false.
Definition swallowing : Step -> bool := fun _ => true.

(** ** Tool orchestration: the selection steps *)

Record MCPServer : Type := mkServer {
  server_name : str;
  server_description : str;
  server_url : str
}.

Record MCPTool : Type := mkTool {
  tool_name : str;
  tool_description : str;
  inputSchema : JsVal
}.

(** The truth value of a value, as [if], [!] and [||] take it. *)
Definition truthy (v : JsVal) : bool :=
  match v with
  | VUndef | VNull => false
  | VBool b => b
  | VNum q => negb (Qeq_bool q 0)
  | VStr s => nonempty s
  | VArr _ | VObj _ => true
  end.

(** [a?.k]. *)
Definition optGet (a : JsVal) (k : str) : JsVal :=
  if is_nullish a then VUndef else get a k.

(** [a || b]. *)
Definition orElse (a b : JsVal) : JsVal := if truthy a then a else b.

(** [x === name] for a string [name]. *)
Definition is_string (x : JsVal) (name : str) : bool :=
  match x with
  | VStr s => str_eqb s name
  | _ => false
  end.

(** The filter predicate
    [Array.isArray(names) ? names.includes(name) : names === name]. *)
Definition nameSelected (names : JsVal) (name : str) : bool :=
  match names with
  | VArr items => existsb (fun x => is_string x name) items
  | _ => is_string names name
  end.

(** [!response] on the string-or-null a call of the model returns. *)
Definition noReply (response : option str) : bool :=
  match response with
  | None | Some [] => true
  | Some (_ :: _) => false
  end.

(** The part of [selectRelevantServers] that follows the reply of the
    model.  Nothing in the [try] block throws: [xmlToObj] is total, the
    property reads are guarded, and [measure] is handed a step that
    completes; the [catch] branch is therefore not reached. *)
Definition serversFromReply (servers : list MCPServer) (response : option str)
  : list MCPServer :=
  match response with
  | None | Some [] => servers
  | Some r =>
      let parsed := xmlToObj r in
      let serverNames :=
        orElse (optGet (get parsed (txt "relevant_servers")) (txt "server_names"))
               (VArr []) in
      List.filter (fun server => nameSelected serverNames (server_name server)) servers
  end.

(** [tools.slice(0, 1)]. *)
Definition firstTool (tools : list MCPTool) : list MCPTool := take 1 tools.

(** The part of [selectRelevantTools] that follows the reply of the model. *)
Definition toolsFromReply (tools : list MCPTool) (response : option str)
  : list MCPTool :=
  match response with
  | None | Some [] => firstTool tools
  | Some r =>
      let parsed := xmlToObj r in
      let toolNames :=
        orElse (optGet (get parsed (txt "selected_tools")) (txt "tool_names"))
               (VArr []) in
      List.filter (fun tool => nameSelected toolNames (tool_name tool)) tools
  end.

(** The part of [generateToolParameters] that follows the reply. *)
Definition parametersFromReply (response : option str) : JsVal :=
  match response with
  | None | Some [] => VObj []
  | Some r => orElse (get (xmlToObj r) (txt "parameters")) (VObj [])
  end.

(** *** Sample servers and tools *)

Definition twoServers : list MCPServer :=
  [mkServer (txt "weather") (txt "Weather data") (txt "http://w.example");
   mkServer (txt "news") (txt "News search") (txt "http://n.example")].

Definition twoTools : list MCPTool :=
  [mkTool (txt "lookup") (txt "Look a city up") (VObj []);
   mkTool (txt "forecast") (txt "Forecast for a city") (VObj [])].

(** ** [JSON.stringify] *)

Definition hexDigit (n : N) : ascii :=
  if (n <? 10)%N then ascii_of_N (48 + n) else ascii_of_N (87 + n).

Definition dquote : ascii := "034".

Definition escapeChar (c : ascii) : str :=
  let n := code c in
  if chr_eqb c dquote then ["\"; dquote]
  else if chr_eqb c "\" then txt "\\"
  else if (n =? 8)%N then txt "\b"
  else if (n =? 9)%N then txt "\t"
  else if (n =? 10)%N then txt "\n"
  else if (n =? 12)%N then txt "\f"
  else if (n =? 13)%N then txt "\r"
  else if (n <? 32)%N then txt "\u00" ++ [hexDigit (n / 16); hexDigit (n mod 16)]
  else [c].

Definition quoteJson (s : str) : str :=
  dquote :: concat (map escapeChar s) ++ [dquote].

Fixpoint filterMap {A B} (f : A -> option B) (l : list A) : list B :=
  match l with
  | [] => []
  | a :: l' =>
      match f a with
      | Some b => b :: filterMap f l'
      | None => filterMap f l'
      end
  end.

(** [None] is the result [undefined]. *)
Fixpoint JSON_stringify (v : JsVal) : option str :=
  match v with
  | VUndef => None
  | VNull => Some (txt "null")
  | VBool true => Some (txt "true")
  | VBool false => Some (txt "false")
  | VNum q => Some (Number_toString q)
  | VStr s => Some (quoteJson s)
  | VArr items =>
      Some ("[" :: join (txt ",")
                     (map (fun x => default (txt "null") (JSON_stringify x)) items)
            ++ ["]"])
  | VObj es =>
      Some ("{" :: join (txt ",")
                     (filterMap (fun kv =>
                        match JSON_stringify (snd kv) with
                        | Some t => Some (quoteJson (fst kv) ++ ":" :: t)
                        | None => None
                        end) es)
            ++ ["}"])
  end.

(** ** Response generation: the prompt *)

(** [result !== null && result !== undefined && result !== ''
     && JSON.stringify(result) !== '{}']. *)
Definition usableResult (result : JsVal) : bool :=
  negb (is_nullish result) &&
  negb (is_string result []) &&
  match JSON_stringify result with
  | Some t => negb (str_eqb t (txt "{}"))
  | None => true
  end.

(** [toolResults] is the object run fills; it is given by its entries. *)
Definition hasToolResults (toolResults : list (str * JsVal)) : bool :=
  nonempty (map fst toolResults) && existsb usableResult (map snd toolResults).

(** The object [obj] of [generateResponse], after the conditional
    assignment [obj.context = { tool_results: toolResults }]. *)
Definition promptObject (input output_format : JsVal) (task : str)
    (toolResults : list (str * JsVal)) : JsVal :=
  let obj := [(txt "input", input);
              (txt "output_format", output_format);
              (txt "task", VStr task)] in
  VObj (if hasToolResults toolResults
        then obj_set (txt "context") (VObj [(txt "tool_results", VObj toolResults)]) obj
        else obj).

Definition userPrompt (input output_format : JsVal) (task : str)
    (toolResults : list (str * JsVal)) : str :=
  objToXml (promptObject input output_format task toolResults) None.

Definition requestMessage (prompt : str) : str :=
  txt "<request>" ++ prompt ++ txt "</request>".

(** A result that [hasToolResults] does not count: [null], [undefined],
    the empty string, or an object none of whose entries is serialised. *)
Definition trivialResult (v : JsVal) : Prop :=
  match v with
  | VUndef | VNull | VStr [] => True
  | VObj es => Forall (fun kv => snd kv = VUndef) es
  | _ => False
  end.

(** The text of the prompt without a context block. *)
Definition basePrompt (input output_format : JsVal) (task : str) : str :=
  objToXml (VObj [(txt "input", input); (txt "output_format", output_format);
                  (txt "task", VStr task)]) None.

(** [getOutputFormatDescription] and [getNestedDescription]. *)
Fixpoint describeField (fieldSchema : ZodType) : JsVal :=
  match fieldSchema with
  | ZodOptional inner | ZodNullable inner => describeField inner
  | ZodObject shape =>
      VObj (fold_left (fun d kf => obj_set (fst kf) (describeField (snd kf)) d) shape [])
  | _ => VStr []
  end.

Definition getOutputFormatDescription (shape : list (str * ZodType)) : JsVal :=
  describeField (ZodObject shape).

(** [getSchemaTypeName(schema) === 'ZodString']. *)
Fixpoint isZodString (schema : ZodType) : bool :=
  match schema with
  | ZodOptional inner | ZodNullable inner => isZodString inner
  | ZodString => true
  | _ => false
  end.

(** ** The agent *)

(** The input schema, as far as [run] uses it: the keys of its shape with
    the description attached to each, and [parse], the collaborator schema
    engine, which hands back a validated copy of the entries or throws. *)
Record InputSchema : Type := mkInputSchema {
  in_shape : list (str * option str);
  in_parse : list (str * JsVal) -> Outcome (list (str * JsVal))
}.

Record AgentConfig : Type := mkConfig {
  llm : str;
  inputFormat : InputSchema;
  outputFormat : list (str * ZodType);            (* the shape of the object schema *)
  outputFormat_parse : JsVal -> Outcome JsVal;    (* [outputFormat.parse] *)
  (* [generateTaskDescription()], built from the descriptions attached to
     the output schema, which [ZodType] does not carry *)
  taskDescription : str;
  servers : option (list MCPServer);
  systemPrompt : option str;
  solanaWallet : option Wallet
}.

Record Agent : Type := mkAgent { config : AgentConfig }.


(** An agent configuration around an output schema. *)
Definition cfg_with (shape : list (str * ZodType)) : AgentConfig :=
  mkConfig (txt "gpt-4o-mini") (mkInputSchema [] (fun es => Resolved es)) shape
    (fun v => Resolved v) [] None None None.

(** What a call of the model is for; it stands for the system message. *)
Inductive Purpose : Type :=
| ResolveField (key desc : str)
| SelectServers
| SelectTools
| GenerateParameters
| GenerateResponse (systemPrompt : option str).

(** The world a run talks to. *)
Record World : Type := mkWorld {
  swallows : Step -> bool;
  (* [callLLM]: the reply, [None] for a reply reported as [null] *)
  callLLM : Purpose -> str -> Outcome (option str);
  (* the body of [discoverTools]: the request and [response.json()] *)
  httpTools : MCPServer -> Outcome (list MCPTool);
  (* the body of [invokeTool] *)
  httpCall : MCPServer -> str -> JsVal -> Outcome JsVal
}.

(** *** Objects shared by reference

    The input of [run] is an object the caller owns.  The store maps the
    address of an object to its entries. *)

Abbreviation loc := nat (only parsing).
Abbreviation Store := (gmap nat (list (str * JsVal))) (only parsing).

Definition readObject (st : Store) (l : loc) : list (str * JsVal) :=
  default [] (st !! l).

(** A new object: an address not in use. *)
Definition allocObject (st : Store) (es : list (str * JsVal)) : loc * Store :=
  let l := fresh (dom st) in
  (l, <[l := es]> st).

(** [o[key] = v] on the object at [l]. *)
Definition writeField (st : Store) (l : loc) (key : str) (v : JsVal) : Store :=
  <[l := obj_set key v (readObject st l)]> st.

Definition nullable (v : option JsVal) : JsVal := default VNull v.

Definition flatten {A} (r : Outcome (option (option A))) : Outcome (option A) :=
  match r with
  | Resolved (Some a) => Resolved a
  | Resolved None => Resolved None
  | Rejected e => Rejected e
  end.

(** A use of a value that throws a TypeError when the value is [null]. *)
Definition notNull {A} (r : Outcome (option A)) : Outcome A :=
  match r with
  | Resolved (Some a) => Resolved a
  | Resolved None => Rejected nullAccessError
  | Rejected e => Rejected e
  end.

Definition toolInfo (full : bool) (t : MCPTool) : JsVal :=
  VObj ([(txt "name", VStr (tool_name t));
         (txt "description", VStr (tool_description t))]
        ++ if full then [(txt "input_schema", inputSchema t)] else []).

Definition discoverTools (w : World) (server : MCPServer)
  : Outcome (option (list MCPTool)) :=
  measure (swallows w) AtDiscoverTools (httpTools w server).

Definition invokeTool (w : World) (server : MCPServer) (toolName : str)
    (parameters : JsVal) : Outcome (option JsVal) :=
  measure (swallows w) AtInvokeTool (httpCall w server toolName parameters).

Definition generateToolParameters (w : World) (input : JsVal) (tool : MCPTool)
  : Outcome (option JsVal) :=
  measure (swallows w) AtGenerateParametersBody
    (let prompt :=
       objToXml (VObj [(txt "input", input);
                       (txt "tool", toolInfo true tool);
                       (txt "task", VStr (txt "Generate parameters for this tool"));
                       (txt "response_format",
                        VObj [(txt "parameters",
                               VStr (txt "object containing the tool parameters"))])])
         None in
     let* response := callLLM w GenerateParameters (requestMessage prompt) in
     Resolved (parametersFromReply response)).

Definition selectRelevantServers (w : World) (cfg : AgentConfig) (input : JsVal)
  : Outcome (option (list MCPServer)) :=
  match servers cfg with
  | None | Some [] => Resolved (Some [])
  | Some declared =>
      measure (swallows w) AtSelectServersBody
        (let prompt :=
           objToXml (VObj [(txt "input", input);
                           (txt "available_servers",
                            VArr (map (fun s =>
                                    VObj [(txt "name", VStr (server_name s));
                                          (txt "description", VStr (server_description s))])
                                  declared));
                           (txt "task",
                            VStr (txt "Select relevant server names that should be used to fulfill this request"));
                           (txt "response_format",
                            VObj [(txt "relevant_servers",
                                   VObj [(txt "server_names",
                                          VStr (txt "array of server names"))])])])
             None in
         let* response := callLLM w SelectServers (requestMessage prompt) in
         Resolved (serversFromReply declared response))
  end.

Definition selectRelevantTools (w : World) (input : JsVal) (tools : list MCPTool)
    (server : MCPServer) : Outcome (option (list MCPTool)) :=
  match tools with
  | [] => Resolved (Some [])
  | _ :: _ =>
      measure (swallows w) AtSelectToolsBody
        (let prompt :=
           objToXml (VObj [(txt "input", input);
                           (txt "server", VStr (server_name server));
                           (txt "available_tools", VArr (map (toolInfo false) tools));
                           (txt "task", VStr (txt "Select tool names that should be invoked"));
                           (txt "response_format",
                            VObj [(txt "selected_tools",
                                   VObj [(txt "tool_names",
                                          VStr (txt "array of tool names"))])])])
             None in
         let* response := callLLM w SelectTools (requestMessage prompt) in
         Resolved (toolsFromReply tools response))
  end.

(** *** [resolveMCPInputFields] *)

(** The match of the description against the expression with the pieces
    [^mcp:]  [\s*]  [(https?://[^\s]+)]; the result is the captured URL. *)
Definition mcpUrl (desc : str) : option str :=
  if startsWith desc (txt "mcp:") then
    let r := drop_while is_js_space (drop 4 desc) in
    let scheme :=
      if startsWith r (txt "https://") then Some (txt "https://")
      else if startsWith r (txt "http://") then Some (txt "http://")
      else None in
    match scheme with
    | Some sc =>
        let host := take_while (fun c => negb (is_js_space c)) (drop (length sc) r) in
        if nonempty host then Some (sc ++ host) else None
    | None => None
    end
  else None.

(** One turn of the loop over the input shape, up to the assignment:
    [Resolved None] is [continue], [Resolved (Some v)] is the value the
    turn then writes with [input[key] = result]. *)
Definition resolveField (w : World) (key : str) (description : option str)
    (input : JsVal) : Outcome (option JsVal) :=
  match description with
  | None => Resolved None
  | Some desc =>
      match mcpUrl desc with
      | None => Resolved None
      | Some serverUrl =>
          let tempServer :=
            mkServer (txt "resolver_" ++ key)
                     (txt "Temporary server for resolving input field " ++ key)
                     serverUrl in
          let* tools := notNull (discoverTools w tempServer) in
          if negb (nonempty tools) then Resolved None
          else
            let prompt :=
              objToXml (VObj [(txt "resolve_field", VStr key);
                              (txt "field_description", VStr desc);
                              (txt "input", input);
                              (txt "available_tools", VArr (map (toolInfo true) tools));
                              (txt "task",
                               VStr (txt "Select the tool name to invoke to resolve this field"));
                              (txt "response_format",
                               VObj [(txt "selected_tool",
                                      VStr (txt "string: the name of the selected tool"))])])
                None in
            let* response := callLLM w (ResolveField key desc) (requestMessage prompt) in
            match response with
            | None | Some [] => Resolved None
            | Some r =>
                let selectedToolName := get (xmlToObj r) (txt "selected_tool") in
                if negb (truthy selectedToolName) then Resolved None
                else
                  match List.find (fun t => is_string selectedToolName (tool_name t)) tools with
                  | None => Resolved None
                  | Some tool =>
                      let* parameters := generateToolParameters w input tool in
                      let* result :=
                        invokeTool w tempServer (tool_name tool) (nullable parameters) in
                      Resolved (Some (nullable result))
                  end
            end
      end
  end.

(** The loop over [Object.entries(shape)]; [input] is the address of the
    object the method was handed. *)
Fixpoint resolveFields (w : World) (fields : list (str * option str))
    (input : loc) (st : Store) : Outcome unit * Store :=
  match fields with
  | [] => (Resolved tt, st)
  | (key, description) :: rest =>
      match resolveField w key description (VObj (readObject st input)) with
      | Rejected e => (Rejected e, st)
      | Resolved None => resolveFields w rest input st
      | Resolved (Some result) =>
          resolveFields w rest input (writeField st input key result)
      end
  end.

Definition resolveMCPInputFields (w : World) (cfg : AgentConfig)
    (input : loc) (st : Store) : Outcome unit * Store :=
  resolveFields w (in_shape (inputFormat cfg)) input st.

(** *** Tool discovery and invocation *)

(** The body of the loop over [relevantTools], with its [try]/[catch]:
    a tool that fails leaves [toolResults] as it was. *)
Definition executeTool (w : World) (input : JsVal) (server : MCPServer)
    (tool : MCPTool) (toolResults : list (str * JsVal)) : list (str * JsVal) :=
  let step :=
    let* parameters :=
      flatten (measure (swallows w) AtGenerateParameters
                 (generateToolParameters w input tool)) in
    let* result := invokeTool w server (tool_name tool) (nullable parameters) in
    Resolved (obj_set (server_name server ++ "." :: tool_name tool)
                (nullable result) toolResults) in
  match measure (swallows w) AtExecuteTool step with
  | Resolved (Some toolResults') => toolResults'
  | _ => toolResults
  end.

(** The loop over [relevantServers]; the entries written before a failure
    stay in [toolResults]. *)
Fixpoint discoverAndInvoke (w : World) (input : JsVal) (relevantServers : list MCPServer)
    (toolResults : list (str * JsVal)) : Outcome unit * list (str * JsVal) :=
  match relevantServers with
  | [] => (Resolved tt, toolResults)
  | server :: rest =>
      match notNull (discoverTools w server) with
      | Rejected e => (Rejected e, toolResults)
      | Resolved tools =>
          if nonempty tools then
            match notNull (flatten (measure (swallows w) AtSelectTools
                                      (selectRelevantTools w input tools server))) with
            | Rejected e => (Rejected e, toolResults)
            | Resolved relevantTools =>
                discoverAndInvoke w input rest
                  (fold_left (fun tr tool => executeTool w input server tool tr)
                     relevantTools toolResults)
            end
          else discoverAndInvoke w input rest toolResults
      end
  end.

(** *** [generateResponse] *)

(** The first match of [<key>([\s\S]*?)</key>] in the reply; the key is
    taken literally. *)
Fixpoint searchField (opening closing s : str) : option str :=
  match (if startsWith s opening
         then find_close closing (drop (length opening) s) else None) with
  | Some (body, _) => Some body
  | None =>
      match s with
      | [] => None
      | _ :: s' => searchField opening closing s'
      end
  end.

(** A single root element that holds an object is looked through. *)
Definition sourceObject (parsed : JsVal) : JsVal :=
  match parsed with
  | VObj [(rootKey, v)] => if nonempty rootKey && typeof_object v then v else parsed
  | _ => parsed
  end.

(** The loop that copies the fields the schema declares.  Reads are of own
    properties; the members a value inherits are not modelled. *)
Definition extractFields (shape : list (str * ZodType)) (response : str)
    (parsed : JsVal) : JsVal :=
  let source := sourceObject parsed in
  VObj (fold_left (fun result kf =>
          match get source (fst kf) with
          | VUndef => result
          | v =>
              let v' :=
                if isZodString (snd kf) && typeof_object v && negb (is_nullish v) then
                  match searchField ("<" :: fst kf ++ [">"]) (closing_tag (fst kf)) response with
                  | Some raw => VStr raw
                  | None => v
                  end
                else v in
              obj_set (fst kf) v' result
          end) shape []).

Definition generateResponse (w : World) (cfg : AgentConfig) (input : JsVal)
    (toolResults : list (str * JsVal)) : Outcome JsVal :=
  let prompt :=
    userPrompt input (getOutputFormatDescription (outputFormat cfg))
      (taskDescription cfg) toolResults in
  let* response :=
    flatten (measure (swallows w) AtExecutePrompt
               (callLLM w (GenerateResponse (systemPrompt cfg)) (requestMessage prompt))) in
  match response with
  | None | Some [] => Resolved (VObj [])
  | Some r =>
      let* parsed := measure (swallows w) AtParseResponse (Resolved (xmlToObj r)) in
      if truthy (nullable parsed)
      then Resolved (extractFields (outputFormat cfg) r (nullable parsed))
      else Resolved (VObj [])
  end.

(** *** [run] *)

Definition inputValidationFailed : str :=
  txt "Input validation failed. Please check the provided input against the agent's input format.".

(** Lines 169-235: server selection, tool discovery and invocation,
    response generation.  These stages read the validated input and write
    to no object that outlives the call.  The result is [response]. *)
Definition afterResolution (w : World) (cfg : AgentConfig) (input : JsVal)
  : Outcome (option JsVal) :=
  let* relevantServers :=
    match servers cfg with
    | Some (_ :: _) =>
        notNull (flatten (measure (swallows w) AtSelectServers
                            (selectRelevantServers w cfg input)))
    | _ => Resolved []
    end in
  let* toolResults :=
    if nonempty relevantServers then
      let '(done, toolResults) := discoverAndInvoke w input relevantServers [] in
      let* _ := measure (swallows w) AtDiscoverAndInvoke done in
      Resolved toolResults
    else Resolved [] in
  measure (swallows w) AtGenerateResponse (generateResponse w cfg input toolResults).

(** Lines 150-235: everything [run] does before it validates the output.
    [input] is the address of the caller's object; [parse] reads it and its
    result is a new object. *)
Definition generatedResponse (w : World) (agent : Agent) (input : loc) (st : Store)
  : Outcome (option JsVal) * Store :=
  let cfg := config agent in
  match measure (swallows w) AtValidateInput
          (in_parse (inputFormat cfg) (readObject st input)) with
  | Rejected e => (Rejected e, st)
  | Resolved None => (Rejected inputValidationFailed, st)
  | Resolved (Some parsed) =>
      let '(validatedInput, st1) := allocObject st parsed in
      let '(resolved, st2) := resolveMCPInputFields w cfg validatedInput st1 in
      match measure (swallows w) AtResolveFields resolved with
      | Rejected e => (Rejected e, st2)
      | Resolved _ => (afterResolution w cfg (VObj (readObject st2 validatedInput)), st2)
      end
  end.

(** Lines 238-245: [outputFormat.parse(response || {})] under [measure],
    then [validatedResponse || {}]. *)
Definition validateOutput (w : World) (cfg : AgentConfig) (response : option JsVal)
  : Outcome JsVal :=
  let* validatedResponse :=
    measure (swallows w) AtValidateOutput
      (outputFormat_parse cfg (orElse (nullable response) (VObj []))) in
  Resolved (orElse (nullable validatedResponse) (VObj [])).

(** The function handed to the outermost [measure]. *)
Definition runBody (w : World) (agent : Agent) (input : loc) (st : Store)
  : Outcome JsVal * Store :=
  let '(r, st') := generatedResponse w agent input st in
  (let* response := r in validateOutput w (config agent) response, st').

(** [run]: the promise it returns settles as the outermost [measure]
    settles; [None] is the value [null]. *)
Definition run (w : World) (agent : Agent) (input : loc) (st : Store)
  : Outcome (option JsVal) * Store :=
  let '(r, st') := runBody w agent input st in
  (measure (swallows w) AtRun r, st').

(** *** A sample agent and sample worlds *)

(** A [measure] that reports the failure of every nested step as [null]
    and throws on the failure of the outermost one. *)
Definition swallowsNested (step : Step) : bool :=
  match step with
  | AtRun => false
  | _ => true
  end.

(** A schema engine that accepts an input when it has a string [city]. *)
Definition cityParse (es : list (str * JsVal)) : Outcome (list (str * JsVal)) :=
  match assoc (txt "city") es with
  | Some (VStr s) => Resolved [(txt "city", VStr s)]
  | _ => Rejected (txt "ZodError: city: expected string")
  end.

(** A schema engine that accepts an output when it has a string [answer]. *)
Definition answerParse (v : JsVal) : Outcome JsVal :=
  match get v (txt "answer") with
  | VStr s => Resolved (VObj [(txt "answer", VStr s)])
  | _ => Rejected (txt "ZodError: answer: required")
  end.

Definition cityAgent : Agent :=
  mkAgent (mkConfig (txt "gpt-4o-mini")
             (mkInputSchema [(txt "city", Some (txt "mcp: http://tools.example"))] cityParse)
             [(txt "answer", ZodString)] answerParse
             (txt "Generate a response matching the output format exactly, using XML tags for each field")
             None None None).

(** The model picks the tool [lookup] for the field, and then answers with
    text that has no [answer] tag; the tool server lists two tools and
    returns a string. *)
Definition modelReply (purpose : Purpose) (prompt : str) : Outcome (option str) :=
  match purpose with
  | ResolveField _ _ => Resolved (Some (txt "<selected_tool>lookup</selected_tool>"))
  | GenerateParameters => Resolved (Some (txt "<parameters><q>x</q></parameters>"))
  | _ => Resolved (Some (txt "<note>no answer here</note>"))
  end.

Definition sampleWorld (swallows : Step -> bool) : World :=
  mkWorld swallows modelReply
          (fun _ => Resolved twoTools)
          (fun _ _ _ => Resolved (VStr (txt "Paris"))).

(** The caller's objects: a valid input at address 0, an invalid one at 1. *)
Definition callerStore : gmap nat (list (str * JsVal)) :=
  <[0%nat := [(txt "city", VStr (txt "?"))]]> (<[1%nat := [(txt "town", VNum 3)]]> ∅).


(** A model that answers every question with prose. *)
Definition chattyWorld : World :=
  mkWorld rethrowing
          (fun _ _ => Resolved (Some (txt "I am not sure which of them applies.")))
          (fun _ => Resolved twoTools)
          (fun _ _ _ => Resolved VNull).

Definition serversConfig : AgentConfig :=
  mkConfig (txt "gpt-4o-mini") (mkInputSchema [] (fun es => Resolved es))
    [(txt "answer", ZodString)] (fun v => Resolved v) [] (Some twoServers) None None.

Definition sampleInput : JsVal := VObj [(txt "question", VStr (txt "weather in Paris"))].

(** * More of [main.ts]

    The event stream of [callLLM], the task description, the citations
    of [deepResearch], and the predicates and samples that the further
    properties of the codec, the transport and the run pipeline are
    stated with. *)

(** ** The codec: the shape of decoded values, and arrays *)

(** What [parseElement] builds: strings, numbers, booleans and objects of
    these; no array, no [null], no [undefined]. *)
Fixpoint decodedShape (v : JsVal) : bool :=
  match v with
  | VBool _ | VNum _ | VStr _ => true
  | VObj es => forallb (fun kv => decodedShape (snd kv)) es
  | _ => false
  end.

(** What an element of an array adds to the text, for an element that is
    not an object. *)
Definition itemText (v : JsVal) : str := wrapTag (txt "item") (innerText v).

(** ** The payment-retry wrapper: traces *)

(** The traces a call of [fetchWithPayment] can leave. *)
Definition fetchTraces : list (list NetEvent) :=
  [ [Requested];
    [Requested; TransactionSent];
    [Requested; TransactionSent; TransactionConfirmed];
    [Requested; TransactionSent; TransactionConfirmed; Requested] ].

(** An endpoint that asks for a payment once and answers the second
    request; the chain accepts the transfer. *)
Definition paidThenOk : Network :=
  mkNetwork
    (fun n => match n with
              | O => Resolved (mkResponse 402 (txt "pay first")
                       (Some (VObj [(txt "amount", VNum (1 # 1000));
                                    (txt "recipient", VStr (txt "addr"))])))
              | S _ => Resolved (mkResponse 200 (txt "[]") (Some (VArr [])))
              end)
    (fun _ _ => Resolved tt)
    (fun _ => Resolved (txt "sig"))
    (fun _ => Resolved tt).

(** ** The streaming demultiplexer: the form of an update *)




(** ** The run pipeline: marked fields and result keys *)

(** A field of the input shape that [resolveMCPInputFields] takes up: its
    description starts with [mcp:] and holds a URL. *)
Definition marked (description : option str) : bool :=
  match description with
  | Some desc => match mcpUrl desc with Some _ => true | None => false end
  | None => false
  end.

(** The key [run] files a tool result under. *)
Definition resultKey (server : MCPServer) (toolName : str) : str :=
  server_name server ++ "." :: toolName.

(** *** A sample agent with two output fields *)

Definition reportShape : list (str * ZodType) :=
  [(txt "answer", ZodString); (txt "sure", ZodBoolean)].

Definition reportConfig : AgentConfig :=
  mkConfig (txt "gpt-4o-mini")
    (mkInputSchema [(txt "city", Some (txt "the name of a city"))] cityParse)
    reportShape (fun v => Resolved v)
    (txt "Generate a response matching the output format exactly, using XML tags for each field")
    None None None.

(** A model that selects the tool [lookup], gives it one parameter, and
    answers with the two fields; every tool call returns a string. *)
Definition toolWorld : World :=
  mkWorld rethrowing
    (fun purpose _ =>
       match purpose with
       | SelectTools =>
           Resolved (Some (txt "<selected_tools><tool_names>lookup</tool_names></selected_tools>"))
       | GenerateParameters => Resolved (Some (txt "<parameters><q>x</q></parameters>"))
       | _ => Resolved (Some (txt "<answer>Paris</answer><sure>true</sure>"))
       end)
    (fun _ => Resolved twoTools)
    (fun _ _ _ => Resolved (VStr (txt "Paris"))).

(** ** The event stream of [callLLM]

    In streaming mode the body of the response is read piece by piece;
    the pieces are cut into lines, each line is handed to [parseSseLine],
    and the text it returns, when there is some, to [processChunk].

    [deltaText] stands for the [try] block of [parseSseLine]: [JSON.parse]
    and the vendor's path to the text of a delta; it is the empty string
    when the line does not parse or holds no text.  The text of a delta is
    a string, as the formats of the vendors have it.  [reads] are the
    texts the decoder gives for the values read, up to the end of a stream
    that ends without an error. *)

Definition consHead (c : ascii) (lines : list str) : list str :=
  match lines with
  | line :: rest => (c :: line) :: rest
  | [] => [[c]]
  end.

(** [s.split("\n")]. *)
Fixpoint splitLines (s : str) : list str :=
  match s with
  | [] => [[]]
  | c :: s' => if chr_eqb c "010" then [] :: splitLines s' else consHead c (splitLines s')
  end.

Definition parseSseLine (deltaText : str -> str) (line : str) : str :=
  if negb (startsWith line (txt "data: ")) || includes line (txt "[DONE]") then []
  else deltaText (drop 6 line).

(** The body of the loop over [lines]: the demultiplexer and the updates
    it has emitted so far. *)
Definition onLine (deltaText : str -> str) (st : Demux * list StreamingUpdate) (line : str)
  : Demux * list StreamingUpdate :=
  let content := parseSseLine deltaText line in
  if nonempty content then
    let '(st', out) := processChunk (fst st) content in (st', snd st ++ out)
  else st.

(** [lines.pop() || ""]. *)
Definition popLine (lines : list str) : str := default [] (last lines).

(** One turn of the loop [while (true)], for a value that was read. *)
Definition onRead (deltaText : str -> str)
    (s : str * (Demux * list StreamingUpdate)) (piece : str)
  : str * (Demux * list StreamingUpdate) :=
  let lines := splitLines (fst s ++ piece) in
  (popLine lines, fold_left (onLine deltaText) (removelast lines) (snd s)).

(** Lines 522-553: the loop, the [finally] block, and the text returned,
    with the updates handed to the callback. *)
Definition readStream (deltaText : str -> str) (reads : list str)
  : str * list StreamingUpdate :=
  let '(buffer, st) := fold_left (onRead deltaText) reads ([], (demux_init, [])) in
  let st' := if nonempty buffer then onLine deltaText st buffer else st in
  (fullResponse (fst st'), snd st' ++ flushPending (fst st')).

(** ** The task description: [generateTaskDescription]

    [getFieldDescriptions] reads, besides the kind of a schema node, the
    description attached to it.  [ZodSchema] is [ZodType] with that
    member. *)

#[warnings="-register-all"]
Inductive ZodSchema : Type :=
| SString (description : option str)
| SNumber (description : option str)
| SBoolean (description : option str)
| SEnum (description : option str) (values : list str)
| SArray (description : option str) (element : ZodSchema)
| SObject (description : option str) (shape : list (str * ZodSchema))
| SOptional (description : option str) (inner : ZodSchema)
| SNullable (description : option str) (inner : ZodSchema)
| SOther (description : option str) (typeName : str).

(** The kind of a node, without the descriptions. *)
Fixpoint kindOf (schema : ZodSchema) : ZodType :=
  match schema with
  | SString _ => ZodString
  | SNumber _ => ZodNumber
  | SBoolean _ => ZodBoolean
  | SEnum _ values => ZodEnum values
  | SArray _ element => ZodArray (kindOf element)
  | SObject _ shape => ZodObject (map (fun kf => (fst kf, kindOf (snd kf))) shape)
  | SOptional _ inner => ZodOptional (kindOf inner)
  | SNullable _ inner => ZodNullable (kindOf inner)
  | SOther _ typeName => ZodOther typeName
  end.

(** [schema.description || '']. *)
Definition ownDescription (schema : ZodSchema) : str :=
  default []
    match schema with
    | SString d | SNumber d | SBoolean d | SEnum d _ | SArray d _ | SObject d _
    | SOptional d _ | SNullable d _ | SOther d _ => d
    end.

(** [path ? `${path}_${key}` : key]. *)
Definition underscorePath (path key : str) : str :=
  match path with
  | [] => key
  | _ :: _ => path ++ "_" :: key
  end.

(** [`"${v}"`]. *)
Definition quoted (v : str) : str := dquote :: v ++ [dquote].

(** The constraint of a boolean and of an enumeration. *)
Definition constraintOf (schema : ZodSchema) : option str :=
  match schema with
  | SBoolean _ =>
      Some (txt "either " ++ quoted (txt "true") ++ txt " or " ++ quoted (txt "false"))
  | SEnum _ values =>
      Some (txt "exactly one of these values: " ++ join (txt ", ") (map quoted values))
  | _ => None
  end.

Definition withConstraint (description : str) (constraint : option str) : str :=
  match constraint with
  | Some c =>
      if nonempty description then description ++ txt ". Must be " ++ c
      else txt "Must be " ++ c
  | None => description
  end.

Definition fieldLine (currentPath description : str) : str :=
  txt "- " ++ currentPath ++ txt " SHOULD be " ++ description.

Definition describedLine (currentPath description : str) : list str :=
  if nonempty description then [fieldLine currentPath description] else [].

(** The body of the loop of [getFieldDescriptions] for one field.
    [description] is what the unwrapping loop holds when it reaches
    [schema]: the first description that is not empty, from the field
    inwards. *)
Fixpoint describeFrom (description currentPath : str) (schema : ZodSchema) : list str :=
  let description := if nonempty description then description else ownDescription schema in
  match schema with
  | SOptional _ inner | SNullable _ inner => describeFrom description currentPath inner
  | SObject _ shape =>
      describedLine currentPath description
      ++ concat (map (fun kf =>
                   describeFrom [] (underscorePath currentPath (fst kf)) (snd kf))
                 shape)
  | _ => describedLine currentPath (withConstraint description (constraintOf schema))
  end.

Definition getFieldDescriptions (shape : list (str * ZodSchema)) (path : str) : list str :=
  concat (map (fun kf => describeFrom [] (underscorePath path (fst kf)) (snd kf)) shape).

Definition baseTask : str :=
  txt "Generate a response matching the output format exactly, using XML tags for each field".

Definition generateTaskDescription (shape : list (str * ZodSchema)) : str :=
  let fieldDescriptions := getFieldDescriptions shape [] in
  baseTask ++
  if nonempty fieldDescriptions
  then "010" :: txt "accordingly to following instructions:" ++ "010" :: "010"
       :: join ["010"] fieldDescriptions
  else [].

(** The schema under the optional and nullable wrappers. *)
Fixpoint coreOf (schema : ZodSchema) : ZodSchema :=
  match schema with
  | SOptional _ inner | SNullable _ inner => coreOf inner
  | _ => schema
  end.

(** The description the unwrapping loop ends with. *)
Fixpoint foundDescription (schema : ZodSchema) : str :=
  if nonempty (ownDescription schema) then ownDescription schema
  else
    match schema with
    | SOptional _ inner | SNullable _ inner => foundDescription inner
    | _ => []
    end.

(** [fieldAt shape keys schema]: following [keys] from the fields of
    [shape], through the wrappers, leads to the field [schema]. *)
Inductive fieldAt : list (str * ZodSchema) -> list str -> ZodSchema -> Prop :=
| fieldAt_here shape key schema :
    In (key, schema) shape -> fieldAt shape [key] schema
| fieldAt_below shape key parent d shape' keys schema :
    In (key, parent) shape ->
    coreOf parent = SObject d shape' ->
    fieldAt shape' keys schema ->
    fieldAt shape (key :: keys) schema.

(** The path [getFieldDescriptions] builds for a list of keys. *)
Definition underscoredPath (path : str) (keys : list str) : str :=
  fold_left underscorePath keys path.

(** A schema for a status and a nested verdict. *)
Definition statusShape : list (str * ZodSchema) :=
  [(txt "status", SEnum None [txt "OK"; txt "FAIL"]);
   (txt "analysis",
    SOptional None
      (SObject None [(txt "step1", SString (Some (txt "the first step")));
                     (txt "done", SNullable (Some (txt "whether it is over"))
                                    (SBoolean None))]))].

(** ** The citations of a research report: [deepResearch]

    The report is searched with the expression with the pieces
    [\[]  [\d+]  [\]:]  [\s* ]  [(https?://[^\s]+)]  and the flag [g]; each
    match gives the captured address.  The pieces are greedy and none of
    them can give back a character to the next one. *)

Definition not_space (c : ascii) : bool := negb (is_js_space c).

(** The piece [(https?://[^\s]+)] at the start of [s]: the address and
    the text after it. *)
Definition addressAt (s : str) : option (str * str) :=
  let scheme :=
    if startsWith s (txt "https://") then Some (txt "https://")
    else if startsWith s (txt "http://") then Some (txt "http://")
    else None in
  match scheme with
  | Some sc =>
      let tail := drop (length sc) s in
      if nonempty (take_while not_space tail)
      then Some (sc ++ take_while not_space tail, drop_while not_space tail)
      else None
  | None => None
  end.

(** One attempt of the expression at the start of [s]. *)
Definition citationAt (s : str) : option (str * str) :=
  match s with
  | c :: r =>
      if chr_eqb c "[" && nonempty (take_while is_digit r) then
        match drop_while is_digit r with
        | c1 :: c2 :: r2 =>
            if chr_eqb c1 "]" && chr_eqb c2 ":"
            then addressAt (drop_while is_js_space r2)
            else None
        | _ => None
        end
      else None
  | [] => None
  end.

(** The loop [while ((match = citationRegex.exec(finalReport)) !== null)]:
    the leftmost match from [lastIndex], then on from its end. *)
Fixpoint citationsFrom (skip : nat) (s : str) : list str :=
  match s with
  | [] => []
  | _ :: r =>
      match skip with
      | S k => citationsFrom k r
      | O =>
          match citationAt s with
          | Some (url, rest) => url :: citationsFrom (length s - length rest - 1) r
          | None => citationsFrom 0 r
          end
      end
  end.

Definition citations (finalReport : str) : list str := citationsFrom 0 finalReport.

(** An address as the expression captures it. *)
Definition addressOk (url : str) : bool :=
  forallb not_space url &&
  ((startsWith url (txt "https://") && (length (txt "https://") <? length url)%nat)
   || (startsWith url (txt "http://") && (length (txt "http://") <? length url)%nat)).

(** A line of a reference list: [[n]: address]. *)
Definition referenceLine (ref : N * str) : str :=
  "[" :: N_to_str (fst ref) ++ txt "]: " ++ snd ref ++ ["010"].

(** ** The skeleton of the output format *)

(** The schema as a tree of empty strings: each object with its fields in
    the order of the declaration, each other kind as [''], wrappers
    looked through. *)
Fixpoint skeleton (schema : ZodType) : JsVal :=
  match schema with
  | ZodOptional inner | ZodNullable inner => skeleton inner
  | ZodObject shape => VObj (map (fun kf => (fst kf, skeleton (snd kf))) shape)
  | _ => VStr []
  end.

(** Field names of the alphabet of the codec, distinct in each object. *)
Fixpoint wellKeyed (schema : ZodType) : bool :=
  match schema with
  | ZodOptional inner | ZodNullable inner => wellKeyed inner
  | ZodObject shape =>
      distinct (map fst shape) &&
      forallb (fun kf => keyOk (fst kf) && wellKeyed (snd kf)) shape
  | _ => true
  end.

(** * Theorems *)

(** Lists built with [++] and [::], brought to one shape. *)
Ltac reassoc := repeat (progress cbn [app] || rewrite <- app_assoc).



(** * Facts about characters and strings *)

Lemma chr_eqb_eq a b : chr_eqb a b = true <-> a = b.
Proof. unfold chr_eqb. apply Ascii.eqb_eq. Qed.

Lemma chr_eqb_refl a : chr_eqb a a = true.
Proof. apply chr_eqb_eq. reflexivity. Qed.

Lemma chr_eqb_neq a b : chr_eqb a b = false <-> a <> b.
Proof. unfold chr_eqb. apply Ascii.eqb_neq. Qed.

Lemma str_eqb_eq a b : str_eqb a b = true <-> a = b.
Proof.
  revert b. induction a as [|x a IH]; intros [|y b]; simpl; split; try congruence; try done.
  - intros H. apply andb_true_iff in H as [H1 H2].
    apply chr_eqb_eq in H1. apply IH in H2. congruence.
  - intros H. inversion H; subst. apply andb_true_iff. split.
    + apply chr_eqb_refl.
    + by apply IH.
Qed.

Lemma str_eqb_neq a b : str_eqb a b = false <-> a <> b.
Proof. rewrite <- not_true_iff_false, str_eqb_eq. done. Qed.

(** A character of the key alphabet is a name character for the scanner,
    and none of the characters the codec gives a meaning to. *)
Lemma word_char c :
  is_word c = true ->
  name_char c = true /\ is_js_space c = false /\
  chr_eqb c "<" = false /\ chr_eqb c ">" = false /\ chr_eqb c "/" = false.
Proof.
  destruct c as [b0 b1 b2 b3 b4 b5 b6 b7].
  destruct b0, b1, b2, b3, b4, b5, b6, b7; vm_compute; intros H;
    try discriminate H; repeat split; reflexivity.
Qed.

Lemma letter_char c :
  is_letter c = true -> is_word c = true /\ is_digit c = false /\ chr_eqb c "_" = false.
Proof.
  destruct c as [b0 b1 b2 b3 b4 b5 b6 b7].
  destruct b0, b1, b2, b3, b4, b5, b6, b7; vm_compute; intros H;
    try discriminate H; repeat split; reflexivity.
Qed.

Lemma digit_char_props c :
  is_digit c = true ->
  is_js_space c = false /\ chr_eqb c "<" = false /\ chr_eqb c "t" = false
  /\ chr_eqb c "f" = false /\ digit_char (digit_val c) = c /\ (digit_val c < 10)%N.
Proof.
  destruct c as [b0 b1 b2 b3 b4 b5 b6 b7].
  destruct b0, b1, b2, b3, b4, b5, b6, b7; vm_compute; intros H;
    try discriminate H; repeat split; reflexivity.
Qed.

Lemma digit_char_digit d :
  (d < 10)%N -> is_digit (digit_char d) = true /\ digit_val (digit_char d) = d.
Proof.
  intros H. unfold is_digit, digit_val, digit_char, code.
  rewrite N_ascii_embedding by lia. split; [|lia].
  apply andb_true_iff. split; apply N.leb_le; lia.
Qed.

Lemma startsWith_app p s : startsWith (p ++ s) p = true.
Proof. induction p as [|c p IH]; simpl; [done|]. rewrite chr_eqb_refl. exact IH. Qed.

Lemma startsWith_spec s p : startsWith s p = true <-> exists r, s = p ++ r.
Proof.
  revert s. induction p as [|c p IH]; intros s; simpl.
  - split; [intros _; by exists s | done].
  - destruct s as [|d s]; simpl.
    + split; [done | intros [r Hr]; discriminate].
    + split.
      * intros H. apply andb_true_iff in H as [H1 H2].
        apply chr_eqb_eq in H1. apply IH in H2 as [r ->]. exists r. by subst.
      * intros [r Hr]. inversion Hr; subst. rewrite chr_eqb_refl. simpl.
        apply IH. by exists r.
Qed.

Lemma no_char_spec x s : no_char x s = true <-> Forall (fun c => c <> x) s.
Proof.
  unfold no_char. rewrite forallb_forall, Forall_forall. split.
  - intros H c Hc. apply chr_eqb_neq, negb_true_iff, H. by apply list_elem_of_In.
  - intros H c Hc. apply negb_true_iff, chr_eqb_neq, H. by apply list_elem_of_In.
Qed.

Lemma includes_char s x : includes s [x] = negb (no_char x s).
Proof.
  induction s as [|c s IH]; [reflexivity|].
  cbn [includes startsWith no_char forallb]. fold (no_char x s). rewrite IH.
  unfold chr_eqb. rewrite (Ascii.eqb_sym x c).
  destruct (Ascii.eqb c x); simpl; [reflexivity|]. by destruct (no_char x s).
Qed.

Lemma drop_while_head p c s : p c = false -> drop_while p (c :: s) = c :: s.
Proof. intros H. simpl. by rewrite H. Qed.

(** [trim] leaves alone a string that neither starts nor ends with white
    space. *)
Lemma trim_id s :
  match s with [] => True | c :: _ => is_js_space c = false end ->
  match rev s with [] => True | c :: _ => is_js_space c = false end ->
  trim s = s.
Proof.
  intros H1 H2. unfold trim, trimStart, trimEnd.
  assert (E1 : drop_while is_js_space s = s).
  { destruct s as [|c s]; [done|]. by apply drop_while_head. }
  rewrite E1.
  assert (E2 : drop_while is_js_space (rev s) = rev s).
  { destruct (rev s) as [|c r]; [done|]. by apply drop_while_head. }
  rewrite E2. apply rev_involutive.
Qed.

Lemma trim_id_Forall s : Forall (fun c => is_js_space c = false) s -> trim s = s.
Proof.
  intros H. apply trim_id.
  - destruct s; [done|]. by inversion H.
  - assert (Hr : Forall (fun c => is_js_space c = false) (rev s)).
    { apply Forall_forall. intros c Hc. rewrite Forall_forall in H. apply H.
      apply list_elem_of_In. apply in_rev. by apply list_elem_of_In. }
    destruct (rev s); [done|]. by inversion Hr.
Qed.

(** * Numerals *)

Lemma parse_digits_app a b :
  parse_digits (a ++ b) = fold_left parse_step b (parse_digits a).
Proof. unfold parse_digits. apply fold_left_app. Qed.

Lemma N_digits_acc fuel : forall n acc,
  N_digits fuel n acc = N_digits fuel n [] ++ acc.
Proof.
  induction fuel as [|f IH]; intros n acc; simpl; [done|].
  destruct (n / 10 =? 0)%N; [done|].
  rewrite IH. rewrite (IH _ [digit_char (n mod 10)]). by rewrite <- app_assoc.
Qed.

Lemma N_digits_parse fuel : forall n,
  (n < 2 ^ N.of_nat fuel)%N -> parse_digits (N_digits (S fuel) n []) = n.
Proof.
  induction fuel as [|f IH]; intros n Hn.
  - simpl in Hn. assert (n = 0%N) by lia. subst. reflexivity.
  - change (N_digits (S (S f)) n [])
      with (if (n / 10 =? 0)%N then [digit_char (n mod 10)]
            else N_digits (S f) (n / 10) [digit_char (n mod 10)]).
    assert (Hd : (n mod 10 < 10)%N) by (apply N.mod_lt; done).
    pose proof (digit_char_digit _ Hd) as [_ Hv].
    pose proof (N.div_mod n 10 ltac:(done)) as Hdm.
    destruct (n / 10 =? 0)%N eqn:E.
    + apply N.eqb_eq in E. unfold parse_digits. simpl. unfold parse_step. rewrite Hv. lia.
    + rewrite N_digits_acc, parse_digits_app. rewrite IH.
      * simpl. unfold parse_step. rewrite Hv. lia.
      * rewrite Nat2N.inj_succ, N.pow_succ_r' in Hn.
        apply N.Div0.div_lt_upper_bound. lia.
Qed.

Lemma N_digits_all_digits fuel : forall n,
  Forall (fun c => is_digit c = true) (N_digits fuel n []).
Proof.
  induction fuel as [|f IH]; intros n; simpl; [constructor|].
  assert (Hd : (n mod 10 < 10)%N) by (apply N.mod_lt; done).
  pose proof (digit_char_digit _ Hd) as [Hg _].
  destruct (n / 10 =? 0)%N; [by repeat constructor|].
  rewrite N_digits_acc. apply Forall_app. split; [apply IH | by repeat constructor].
Qed.

Lemma N_digits_nonempty fuel n : N_digits (S fuel) n [] <> [].
Proof.
  simpl. destruct (n / 10 =? 0)%N; [done|]. rewrite N_digits_acc.
  intros H. apply app_eq_nil in H as [_ H]. done.
Qed.

Lemma N_to_str_parse n : parse_digits (N_to_str n) = n.
Proof.
  unfold N_to_str. apply N_digits_parse. rewrite N2Nat.id. apply N.size_gt.
Qed.

Lemma N_to_str_digits n : Forall (fun c => is_digit c = true) (N_to_str n).
Proof. apply N_digits_all_digits. Qed.

Lemma N_to_str_nonempty n : N_to_str n <> [].
Proof. apply N_digits_nonempty. Qed.

Lemma take_while_all p s : Forall (fun c => p c = true) s -> take_while p s = s.
Proof. induction 1 as [|c s Hc _ IH]; simpl; [done|]. by rewrite Hc, IH. Qed.

Lemma drop_while_all p s : Forall (fun c => p c = true) s -> drop_while p s = [].
Proof. induction 1 as [|c s Hc _ IH]; simpl; [done|]. by rewrite Hc. Qed.

(** [String] of a natural number is its numeral. *)
Lemma Number_toString_natural q :
  naturalNumber q = true -> Number_toString q = N_to_str (Z.to_N (Qnum q)).
Proof.
  intros H. apply andb_true_iff in H as [H1 H2]. apply andb_true_iff in H1 as [H1 _].
  apply Z.leb_le in H1. apply Pos.eqb_eq in H2.
  destruct q as [n d]. simpl in *. subst d.
  unfold Number_toString.
  rewrite Qred_identity by (simpl; apply Z.gcd_1_r).
  cbn [Qnum Qden].
  assert (E1 : (n <? 0)%Z = false) by (apply Z.ltb_ge; lia). rewrite E1.
  rewrite Z.abs_eq, Z.div_1_r, Z.mod_1_r by lia.
  cbn [Z.eqb app]. by rewrite app_nil_r.
Qed.

(** * The scanner on the text of the encoder *)



Lemma prepend_app x y o : prepend (x ++ y) o = prepend x (prepend y o).
Proof. destruct o as [[b r]|]; simpl; [|done]. by rewrite app_assoc. Qed.

Lemma skips_nil closing : skips closing [].
Proof. intros s. simpl. by destruct (find_close closing s) as [[b r]|]. Qed.

Lemma skips_app closing x y : skips closing x -> skips closing y -> skips closing (x ++ y).
Proof.
  intros Hx Hy s. rewrite <- app_assoc, Hx, Hy. by rewrite prepend_app.
Qed.

Lemma skips_concat closing xs : Forall (skips closing) xs -> skips closing (concat xs).
Proof.
  induction 1 as [|x xs Hx _ IH]; simpl; [apply skips_nil | by apply skips_app].
Qed.

Lemma find_close_step closing c s :
  startsWith (c :: s) closing = false ->
  find_close closing (c :: s) = prepend [c] (find_close closing s).
Proof.
  intros H. cbn [find_close]. rewrite H.
  by destruct (find_close closing s) as [[b r]|].
Qed.

(** A character other than ['<'] cannot start a closing tag. *)
Lemma skips_char name c : c <> "<" -> skips (closing_tag name) [c].
Proof.
  intros Hc s. apply find_close_step. unfold closing_tag. cbn [startsWith].
  assert (E : chr_eqb "<" c = false) by (apply chr_eqb_neq; congruence).
  by rewrite E.
Qed.

Lemma skips_text name x : Forall (fun c => c <> "<") x -> skips (closing_tag name) x.
Proof.
  induction 1 as [|c x Hc _ IH]; [apply skips_nil|].
  change (c :: x) with ([c] ++ x). apply skips_app; [by apply skips_char | done].
Qed.

(** ['<'] followed by a character other than ['/'] is no closing tag. *)
Lemma skips_lt name c : c <> "/" -> forall s,
  find_close (closing_tag name) ("<" :: c :: s)
  = prepend ["<"] (find_close (closing_tag name) (c :: s)).
Proof.
  intros Hc s. apply find_close_step. unfold closing_tag. cbn [startsWith].
  assert (E : chr_eqb "/" c = false) by (apply chr_eqb_neq; congruence).
  rewrite E. by rewrite andb_false_r.
Qed.

Lemma word_not_lt k : forallb is_word k = true -> Forall (fun c => c <> "<") k.
Proof.
  intros H. apply Forall_forall. intros c Hc. rewrite forallb_forall in H.
  apply list_elem_of_In, H, word_char in Hc as (_ & _ & Hlt & _). by apply chr_eqb_neq.
Qed.

Lemma keyOk_word k : keyOk k = true -> forallb is_word k = true.
Proof.
  destruct k as [|c r]; [done|]. simpl. intros H. apply andb_true_iff in H as [H1 H2].
  apply letter_char in H1 as [H1 _]. by rewrite H1.
Qed.

Lemma skips_opening name k : keyOk k = true -> skips (closing_tag name) (openingTag k).
Proof.
  intros Hk s. unfold openingTag.
  pose proof (word_not_lt _ (keyOk_word _ Hk)) as Hw.
  destruct k as [|c r]; [done|].
  assert (Hc : c <> "/").
  { simpl in Hk. apply andb_true_iff in Hk as [Hk _].
    apply letter_char in Hk as [Hk _]. apply word_char in Hk as (_ & _ & _ & _ & Hk).
    by apply chr_eqb_neq. }
  replace (("<" :: (c :: r) ++ [">"]) ++ s) with ("<" :: c :: (r ++ [">"] ++ s))
    by (simpl; by rewrite <- app_assoc).
  rewrite skips_lt by done.
  change (c :: r ++ [">"] ++ s) with ((c :: r) ++ [">"] ++ s).
  rewrite (skips_text name (c :: r) Hw), (skips_char name ">" ltac:(discriminate)).
  destruct (find_close (closing_tag name) s) as [[b r']|]; simpl; [|done].
  by rewrite <- app_assoc.
Qed.

Lemma startsWith_name_gt k' : forall name s,
  Forall (fun c => c <> ">") name -> Forall (fun c => c <> ">") k' ->
  startsWith (k' ++ ">" :: s) (name ++ [">"]) = true -> name = k'.
Proof.
  induction k' as [|c k' IH]; intros name s Hn Hk H.
  - destruct name as [|d name]; [done|]. cbn [startsWith app] in H.
    apply andb_true_iff in H as [H _]. apply chr_eqb_eq in H.
    inversion Hn; subst. done.
  - destruct name as [|d name].
    + cbn [startsWith app] in H. apply andb_true_iff in H as [H _]. apply chr_eqb_eq in H.
      inversion Hk; subst. done.
    + cbn [startsWith app] in H. apply andb_true_iff in H as [H1 H2]. apply chr_eqb_eq in H1.
      inversion Hn; inversion Hk; subst. f_equal. by eapply IH.
Qed.

Lemma word_not_gt k : forallb is_word k = true -> Forall (fun c => c <> ">") k.
Proof.
  intros H. apply Forall_forall. intros c Hc. rewrite forallb_forall in H.
  apply list_elem_of_In, H, word_char in Hc as (_ & _ & _ & Hgt & _). by apply chr_eqb_neq.
Qed.

(** The closing tag of another key is run over. *)
Lemma skips_closing name k :
  keyOk name = true -> keyOk k = true -> k <> name ->
  skips (closing_tag name) (closing_tag k).
Proof.
  intros Hn Hk Hne s.
  pose proof (word_not_lt _ (keyOk_word _ Hk)) as Hw.
  unfold closing_tag at 2.
  replace (("<" :: "/" :: k ++ [">"]) ++ s) with ("<" :: "/" :: k ++ [">"] ++ s)
    by (simpl; by rewrite <- app_assoc).
  rewrite find_close_step.
  - change ("/" :: k ++ [">"] ++ s) with (["/"] ++ k ++ [">"] ++ s).
    rewrite (skips_char name "/" ltac:(discriminate)), (skips_text name k Hw),
      (skips_char name ">" ltac:(discriminate)).
    destruct (find_close (closing_tag name) s) as [[b r']|]; simpl; [|done].
    by rewrite <- app_assoc.
  - apply not_true_iff_false. intros H. apply Hne. symmetry.
    unfold closing_tag in H. cbn [startsWith] in H. rewrite !chr_eqb_refl in H.
    cbn [andb] in H.
    eapply (startsWith_name_gt k name s); [| |exact H];
      by apply word_not_gt, keyOk_word.
Qed.

(** The closing tag itself ends the body. *)
Lemma find_close_here closing rest : find_close closing (closing ++ rest) = Some ([], rest).
Proof.
  destruct closing as [|c cl].
  - simpl. by destruct rest.
  - cbn [find_close app]. change (c :: cl ++ rest) with ((c :: cl) ++ rest).
    rewrite startsWith_app. f_equal. f_equal. by rewrite drop_app_length.
Qed.

Lemma skips_find closing x rest :
  skips closing x -> find_close closing (x ++ closing ++ rest) = Some (x, rest).
Proof. intros H. rewrite H, find_close_here. simpl. by rewrite app_nil_r. Qed.


(** * The encoder on faithful trees *)

Lemma mem_spec k ks : mem k ks = true <-> In k ks.
Proof.
  unfold mem. rewrite existsb_exists. split.
  - intros (x & Hx & E). apply str_eqb_eq in E. by subst.
  - intros H. exists k. split; [done | by apply str_eqb_eq].
Qed.

Lemma faithful_obj es :
  faithful (VObj es) = true <->
  es <> [] /\ distinct (map fst es) = true /\
  Forall (fun kv => keyOk (fst kv) = true /\ ~ In (fst kv) (allKeys (snd kv))
                    /\ faithful (snd kv) = true) es.
Proof.
  cbn [faithful]. rewrite !andb_true_iff, forallb_forall, Forall_forall.
  split.
  - intros [[H1 H2] H3]. split; [by destruct es|]. split; [done|].
    intros kv Hkv. apply list_elem_of_In, H3 in Hkv.
    apply andb_true_iff in Hkv as [Hkv Hf]. apply andb_true_iff in Hkv as [Hk Hm].
    repeat split; auto. rewrite <- mem_spec. by apply negb_true_iff, not_true_iff_false in Hm.
  - intros (H1 & H2 & H3). split; [split; [by destruct es | done]|].
    intros kv Hkv. apply list_elem_of_In, H3 in Hkv as (Hk & Hm & Hf).
    rewrite Hk, Hf, andb_true_r. cbn [andb]. apply negb_true_iff, not_true_iff_false.
    by rewrite mem_spec.
Qed.

Lemma faithful_kept k v : faithful v = true -> kept_entry (k, v) = true.
Proof. by destruct v. Qed.

Lemma sanitize_keyOk k : keyOk k = true -> sanitizeTagName k = k.
Proof.
  intros Hk. pose proof (keyOk_word _ Hk) as Hw. unfold sanitizeTagName.
  assert (E : map (fun c => if is_word c then c else "_") k = k).
  { clear Hk. induction k as [|c k IH]; [done|]. cbn [forallb] in Hw.
    apply andb_true_iff in Hw as [H1 H2]. cbn [map]. by rewrite H1, IH. }
  rewrite E. destruct k as [|c r]; [done|]. cbn [keyOk] in Hk.
  apply andb_true_iff in Hk as [Hk _]. by rewrite Hk.
Qed.

Lemma wrapTag_keyOk k content :
  keyOk k = true -> wrapTag k content = openingTag k ++ content ++ closing_tag k.
Proof.
  intros Hk. unfold wrapTag, openingTag, closing_tag. rewrite sanitize_keyOk by done.
  cbn [app]. f_equal. by rewrite <- app_assoc.
Qed.

(** An entry of a faithful tree is its inner text between its tags. *)
Lemma renderEntry_faithful k v :
  keyOk k = true -> faithful v = true ->
  renderEntry (k, v) = openingTag k ++ innerText v ++ closing_tag k.
Proof.
  intros Hk Hv. unfold renderEntry. rewrite (faithful_kept k v Hv). cbn [fst snd].
  destruct v as [| |b|q|s|items|es]; try discriminate Hv; cbn [typeof_object innerText].
  1-3: unfold openingTag, closing_tag; cbn [app]; f_equal; by rewrite <- app_assoc.
  apply faithful_obj in Hv as (Hne & _ & HF).
  change (objToXml (VObj es) (Some k))
    with (match List.filter kept_entry es with
          | [] => wrapTag (default (txt "empty") (truthy_key (Some k))) []
          | _ :: _ =>
              match truthy_key (Some k) with
              | Some pk => wrapTag pk (concat (map renderEntry es))
              | None => concat (map renderEntry es)
              end
          end).
  destruct es as [|[k0 v0] es]; [done|]. inversion HF as [|? ? (_ & _ & Hf0) _]; subst.
  cbn [List.filter]. rewrite (faithful_kept k0 v0 Hf0).
  destruct k as [|c r]; [done|]. cbn [truthy_key]. by apply wrapTag_keyOk.
Qed.

Lemma true_false_no_lt b : Forall (fun c => c <> "<") (js_String (VBool b)).
Proof. destruct b; repeat constructor; discriminate. Qed.

Lemma digits_no_lt s :
  Forall (fun c => is_digit c = true) s -> Forall (fun c => c <> "<") s.
Proof.
  intros H. eapply Forall_impl; [exact H|]. intros c Hc.
  apply digit_char_props in Hc as (_ & Hlt & _). by apply chr_eqb_neq.
Qed.

Lemma digits_no_space s :
  Forall (fun c => is_digit c = true) s -> Forall (fun c => is_js_space c = false) s.
Proof.
  intros H. eapply Forall_impl; [exact H|]. intros c Hc.
  by apply digit_char_props in Hc as (Hsp & _).
Qed.

(** The text of a faithful leaf has no ['<'], is not changed by [trim],
    and is coerced back to the leaf. *)
Lemma leaf_text v :
  faithful v = true -> typeof_object v = false ->
  Forall (fun c => c <> "<") (innerText v) /\
  trim (innerText v) = innerText v /\
  coerce (innerText v) = v.
Proof.
  intros Hv Ht. destruct v as [| |b|q|s|items|es]; try discriminate.
  - split; [apply true_false_no_lt|]. destruct b; split; reflexivity.
  - cbn [innerText js_String]. rewrite (Number_toString_natural q Hv).
    set (n := Z.to_N (Qnum q)).
    pose proof (N_to_str_digits n) as Hd. pose proof (N_to_str_nonempty n) as Hne.
    split; [by apply digits_no_lt|]. split; [by apply trim_id_Forall, digits_no_space|].
    unfold coerce.
    assert (Hh : exists c r, N_to_str n = c :: r /\ is_digit c = true).
    { destruct (N_to_str n) as [|c r]; [done|]. inversion Hd; subst. eauto. }
    destruct Hh as (c & r & E & Hc).
    apply digit_char_props in Hc as (_ & _ & Ht' & Hf' & _).
    assert (E1 : str_eqb (N_to_str n) (txt "true") = false).
    { rewrite E. change (txt "true") with ("t" :: txt "rue"). cbn [str_eqb]. by rewrite Ht'. }
    assert (E2 : str_eqb (N_to_str n) (txt "false") = false).
    { rewrite E. change (txt "false") with ("f" :: txt "alse"). cbn [str_eqb]. by rewrite Hf'. }
    rewrite E1, E2. cbn [orb].
    assert (E3 : is_numeric (N_to_str n) = true).
    { unfold is_numeric. rewrite take_while_all, drop_while_all by done.
      rewrite andb_true_r. apply negb_true_iff, str_eqb_neq. done. }
    rewrite E3. unfold Number_of. rewrite drop_while_all by done.
    rewrite N_to_str_parse. unfold n.
    apply andb_true_iff in Hv as [H1 H2]. apply andb_true_iff in H1 as [H1 _].
    apply Z.leb_le in H1. apply Pos.eqb_eq in H2.
    rewrite Z2N.id by done. destruct q as [a d]. simpl in *. by subst.
  - cbn [innerText js_String]. cbn [faithful] in Hv. unfold plainText in Hv.
    repeat (apply andb_true_iff in Hv as [Hv ?]).
    split; [by apply no_char_spec|]. split; [by apply str_eqb_eq|].
    unfold coerce.
    repeat match goal with H : negb _ = true |- _ => apply negb_true_iff in H; rewrite H end.
    reflexivity.
Qed.

(** The lazy body runs over the whole text of a faithful tree that does
    not use the name in its keys. *)
Lemma skips_inner name v :
  keyOk name = true -> faithful v = true -> ~ In name (allKeys v) ->
  skips (closing_tag name) (innerText v).
Proof.
  intros Hn. induction v as [| |b|q|s|items IH|es IH] using JsVal_nested_ind;
    intros Hv Hnot; try discriminate Hv.
  - by apply skips_text, leaf_text.
  - by apply skips_text, leaf_text.
  - by apply skips_text, leaf_text.
  - cbn [innerText]. apply skips_concat.
    apply faithful_obj in Hv as (_ & _ & HF).
    rewrite Forall_forall in IH, HF. apply Forall_forall.
    intros x Hx. apply list_elem_of_In, in_map_iff in Hx as ([k v] & <- & Hkv).
    apply list_elem_of_In in Hkv.
    destruct (HF _ Hkv) as (Hk & _ & Hf). cbn [fst snd] in *.
    rewrite renderEntry_faithful by done.
    assert (Hin : forall x, In x (k :: allKeys v) -> In x (allKeys (VObj es))).
    { intros x Hx. cbn [allKeys]. apply in_concat. exists (k :: allKeys v).
      split; [|done]. apply in_map_iff. exists (k, v). split; [done|]. by apply list_elem_of_In. }
    apply skips_app; [by apply skips_opening|]. apply skips_app.
    + apply (IH (k, v) Hkv Hf). intros Hc. apply Hnot, Hin. by right.
    + apply skips_closing; auto. intros ->. apply Hnot, Hin. by left.
Qed.

(** * The scanner on an entry *)

Lemma take_while_stop p x c s :
  Forall (fun a => p a = true) x -> p c = false -> take_while p (x ++ c :: s) = x.
Proof.
  intros Hx Hc. induction Hx as [|a x Ha _ IH]; cbn [take_while app].
  - by rewrite Hc.
  - by rewrite Ha, IH.
Qed.

Lemma word_name_chars k : forallb is_word k = true -> Forall (fun c => name_char c = true) k.
Proof.
  intros H. apply Forall_forall. intros c Hc. rewrite forallb_forall in H.
  by apply list_elem_of_In, H, word_char in Hc as (Hn & _).
Qed.

(** The expression matches an entry whole: its key, its inner text. *)
Lemma match_here_entry k inner rest :
  keyOk k = true -> skips (closing_tag k) inner ->
  match_here (openingTag k ++ inner ++ closing_tag k ++ rest) = Some (k, inner, rest).
Proof.
  intros Hk Hs. pose proof (keyOk_word _ Hk) as Hw.
  unfold openingTag. unfold match_here.
  replace (("<" :: k ++ [">"]) ++ inner ++ closing_tag k ++ rest)
    with ("<" :: k ++ ">" :: inner ++ closing_tag k ++ rest)
    by (cbn [app]; f_equal; rewrite <- app_assoc; reflexivity).
  rewrite chr_eqb_refl.
  rewrite take_while_stop; [|by apply word_name_chars | reflexivity].
  destruct k as [|c r] eqn:Ek; [done|]. rewrite <- Ek in *.
  assert (El : length k = S (length r)) by (by subst k).
  rewrite El. cbn [try_names]. rewrite <- El.
  rewrite take_app_length, drop_app_length.
  cbn [drop_while]. change (not_gt ">") with false. cbv iota.
  by rewrite skips_find.
Qed.

Lemma exec_all_from_skip x : forall n s,
  length x = n -> exec_all_from n (x ++ s) = exec_all_from 0 s.
Proof.
  induction x as [|c x IH]; intros n s Hn; simpl in Hn; subst n; [done|].
  cbn [exec_all_from app]. by apply IH.
Qed.

Lemma exec_all_entry k inner rest :
  keyOk k = true -> skips (closing_tag k) inner ->
  exec_all (openingTag k ++ inner ++ closing_tag k ++ rest)
  = (k, inner) :: exec_all rest.
Proof.
  intros Hk Hs. unfold exec_all.
  pose proof (match_here_entry k inner rest Hk Hs) as Hm.
  set (whole := openingTag k ++ inner ++ closing_tag k ++ rest) in *.
  assert (Hw : whole = "<" :: (k ++ [">"] ++ inner ++ closing_tag k) ++ rest).
  { unfold whole, openingTag. by reassoc. }
  rewrite Hw in *. cbn [exec_all_from]. rewrite Hm. f_equal.
  apply exec_all_from_skip. cbn [length]. rewrite !length_app. cbn [length]. lia.
Qed.

(** The matches of the text of a faithful object are its entries. *)
Lemma exec_all_entries es : forall rest,
  Forall (fun kv => keyOk (fst kv) = true /\ ~ In (fst kv) (allKeys (snd kv))
                    /\ faithful (snd kv) = true) es ->
  exec_all (concat (map renderEntry es) ++ rest)
  = map (fun kv => (fst kv, innerText (snd kv))) es ++ exec_all rest.
Proof.
  induction es as [|[k v] es IH]; intros rest HF; [reflexivity|].
  inversion HF as [|? ? (Hk & Hnot & Hf) HF']; subst. cbn [fst snd] in *.
  cbn [map concat]. rewrite renderEntry_faithful by done.
  rewrite <- !app_assoc. rewrite exec_all_entry; [|done|by apply skips_inner].
  cbn [app fst snd]. f_equal. by apply IH.
Qed.

(** * The decoder on faithful trees *)

Lemma keyOk_not_index k : keyOk k = true -> is_array_index k = false.
Proof.
  destruct k as [|c r]; [done|]. cbn [keyOk]. intros H.
  apply andb_true_iff in H as [H _]. apply letter_char in H as (_ & Hd & _).
  unfold is_array_index. cbn [forallb]. rewrite Hd. cbn [andb].
  by rewrite andb_false_r.
Qed.

Lemma keyOk_not_proto k : keyOk k = true -> str_eqb k (txt "__proto__") = false.
Proof.
  destruct k as [|c r]; [done|]. cbn [keyOk]. intros H.
  apply andb_true_iff in H as [H _]. apply letter_char in H as (_ & _ & Hu).
  change (txt "__proto__") with ("_" :: txt "_proto__"). cbn [str_eqb]. by rewrite Hu.
Qed.

Lemma assoc_None k es : ~ In k (map fst es) -> assoc k es = None.
Proof.
  induction es as [|[k' v] es IH]; [done|]. cbn [map fst assoc]. intros H.
  destruct (str_eqb k k') eqn:E.
  - apply str_eqb_eq in E. subst. exfalso. apply H. by left.
  - apply IH. intros Hin. apply H. by right.
Qed.

Lemma obj_set_new k v es :
  keyOk k = true -> ~ In k (map fst es) -> obj_set k v es = es ++ [(k, v)].
Proof.
  intros Hk Hnot. unfold obj_set.
  by rewrite keyOk_not_proto, assoc_None, keyOk_not_index.
Qed.

Lemma distinct_cons k ks : distinct (k :: ks) = true <-> ~ In k ks /\ distinct ks = true.
Proof.
  cbn [distinct]. rewrite andb_true_iff, negb_true_iff, <- not_true_iff_false, mem_spec. done.
Qed.

(** Assigning the entries one after the other to an object that has none
    of their keys appends them in order. *)
Lemma fold_obj_set (decode : str -> JsVal) ms : forall acc,
  Forall (fun m => keyOk (fst m) = true) ms ->
  distinct (map fst ms) = true ->
  (forall m, In m ms -> ~ In (fst m) (map fst acc)) ->
  fold_left (fun result m => obj_set (fst m) (decode (snd m)) result) ms acc
  = acc ++ map (fun m => (fst m, decode (snd m))) ms.
Proof.
  induction ms as [|[k c] ms IH]; intros acc Hk Hd Hfresh; cbn [fold_left map].
  - by rewrite app_nil_r.
  - inversion Hk as [|? ? Hk1 Hk2]; subst. cbn [fst snd] in Hk1 |- *.
    cbn [map fst] in Hd. apply distinct_cons in Hd as [Hnot Hd].
    rewrite obj_set_new; [|done|]. 2: { apply (Hfresh (k, c)). by left. }
    rewrite IH; [by rewrite <- app_assoc | done | done |].
    intros m Hm Hin. rewrite List.map_app in Hin. apply in_app_or in Hin as [Hin | Hin].
    + apply (Hfresh m); [by right | done].
    + cbn [map fst In] in Hin. destruct Hin as [E | []]. apply Hnot.
      apply in_map_iff. by exists m.
Qed.

Lemma list_max_ge (l : list nat) x : In x l -> (x <= list_max l)%nat.
Proof.
  induction l as [|y l IH]; [done|]. cbn [list_max foldr]. intros [-> | H].
  - apply Nat.le_max_l.
  - etransitivity; [by apply IH | apply Nat.le_max_r].
Qed.

Lemma innerText_obj_shape es :
  faithful (VObj es) = true ->
  exists r, innerText (VObj es) = "<" :: r ++ [">"].
Proof.
  intros H. apply faithful_obj in H as (Hne & _ & HF). cbn [innerText].
  assert (Hlast : exists kv es', es = es' ++ [kv]).
  { destruct (rev es) as [|kv res] eqn:E.
    - apply (f_equal (@rev _)) in E. rewrite rev_involutive in E. done.
    - exists kv, (rev res). apply (f_equal (@rev _)) in E. rewrite rev_involutive in E.
      by rewrite E. }
  destruct Hlast as ([kl vl] & es' & ->).
  apply Forall_app in HF as [HF1 HF2]. inversion HF2 as [|? ? (Hkl & _ & Hfl) _]; subst.
  rewrite map_app, concat_app. cbn [map concat]. rewrite app_nil_r.
  rewrite (renderEntry_faithful kl vl) by done.
  destruct es' as [|[k0 v0] es'].
  - cbn [map concat app]. unfold openingTag, closing_tag.
    exists (kl ++ [">"] ++ innerText vl ++ "<" :: "/" :: kl).
    by reassoc.
  - inversion HF1 as [|? ? (Hk0 & _ & Hf0) _]; subst. cbn [map concat].
    rewrite (renderEntry_faithful k0 v0) by done. unfold openingTag, closing_tag.
    eexists (k0 ++ [">"] ++ innerText v0 ++ ("<" :: "/" :: k0 ++ [">"])
             ++ concat (map renderEntry es')
             ++ ("<" :: kl ++ [">"]) ++ innerText vl ++ "<" :: "/" :: kl).
    by reassoc.
Qed.

Lemma trim_tagged r : trim ("<" :: r ++ [">"]) = "<" :: r ++ [">"].
Proof.
  apply trim_id; [reflexivity|].
  change ("<" :: r ++ [">"]) with (("<" :: r) ++ [">"]). rewrite rev_app_distr. reflexivity.
Qed.

Lemma includes_tagged r : includes ("<" :: r) (txt "<") = true.
Proof. reflexivity. Qed.

Lemma height_child es kv :
  In kv es -> (S (height (snd kv)) <= height (VObj es))%nat.
Proof.
  intros H. cbn [height]. apply le_n_S, list_max_ge.
  apply in_map_iff. by exists kv.
Qed.

Lemma includes_no_lt s : Forall (fun c => c <> "<") s -> includes s (txt "<") = false.
Proof.
  intros H. change (txt "<") with ["<"]. rewrite includes_char.
  apply negb_false_iff. by apply no_char_spec.
Qed.

Lemma parseElement_eq fuel content :
  parseElement fuel content =
  let content := trim content in
  if negb (includes content (txt "<")) then VStr content
  else
    match exec_all content with
    | [] => VStr content
    | ms =>
        VObj (fold_left (fun result m =>
                obj_set (fst m)
                  (if includes (trim (snd m)) (txt "<") then
                     match fuel with
                     | O => VUndef
                     | S f => parseElement f (snd m)
                     end
                   else coerce (trim (snd m)))
                  result)
              ms [])
    end.
Proof. destruct fuel; reflexivity. Qed.

(** The decoder rebuilds a faithful object from its text, given fuel for
    its height. *)
Lemma parseElement_faithful v : forall fuel,
  faithful v = true -> typeof_object v = true -> (height v <= S fuel)%nat ->
  parseElement fuel (innerText v) = v.
Proof.
  induction v as [| |b|q|s|items IH|es IH] using JsVal_nested_ind;
    intros fuel Hv Ht Hh; try discriminate.
  destruct (innerText_obj_shape es Hv) as [r Hr].
  pose proof Hv as Hv'. apply faithful_obj in Hv' as (Hne & Hd & HF).
  rewrite parseElement_eq. cbv zeta. rewrite Hr, trim_tagged, includes_tagged.
  cbn [negb]. rewrite <- Hr. cbn [innerText].
  rewrite <- (app_nil_r (concat (map renderEntry es))), exec_all_entries by done.
  change (exec_all []) with (@nil (str * str)). rewrite app_nil_r.
  destruct (map (fun kv => (fst kv, innerText (snd kv))) es) as [|m0 ms0] eqn:Ems.
  { destruct es; [done | discriminate]. }
  rewrite <- Ems. clear m0 ms0 Ems.
  rewrite (fold_obj_set
             (fun c => if includes (trim c) (txt "<")
                       then match fuel with
                            | O => VUndef
                            | S f => parseElement f c
                            end
                       else coerce (trim c))).
  - cbn [app]. f_equal. rewrite List.map_map. cbn [fst snd].
    rewrite <- (List.map_id es) at 2. apply List.map_ext_in.
    intros [k v] Hin. cbn [fst snd]. f_equal.
    rewrite Forall_forall in IH, HF. apply list_elem_of_In in Hin as Hin'.
    destruct (HF _ Hin') as (Hk & _ & Hf). cbn [fst snd] in *.
    destruct (typeof_object v) eqn:Et.
    + destruct v as [| |b|q|s|items|es']; try discriminate.
      destruct (innerText_obj_shape es' Hf) as [r' Hr'].
      rewrite Hr', trim_tagged, includes_tagged, <- Hr'.
      pose proof (height_child es (k, VObj es') Hin) as Hc. cbn [snd] in Hc.
      assert (Hpos : (1 <= height (VObj es'))%nat) by (cbn [height]; lia).
      destruct fuel as [|f]; [lia|].
      apply (IH (k, VObj es') Hin'); cbn [snd]; [done | done | lia].
    + destruct (leaf_text v Hf Et) as (Hlt & Htr & Hco).
      rewrite Htr, includes_no_lt by done. exact Hco.
  - apply Forall_forall. intros m Hm.
    apply list_elem_of_In, in_map_iff in Hm as (kv & <- & Hkv).
    rewrite Forall_forall in HF. apply list_elem_of_In in Hkv. by apply HF in Hkv as (Hk & _).
  - by rewrite List.map_map.
  - intros m _ [].
Qed.

Lemma length_concat_ge (x : str) xs : In x xs -> (length x <= length (concat xs))%nat.
Proof.
  induction xs as [|y xs IH]; [done|]. cbn [concat]. rewrite length_app.
  intros [-> | H]; [lia|]. apply IH in H. lia.
Qed.

(** The text of a faithful tree is longer than the tree is high. *)
Lemma height_le_length v :
  faithful v = true -> (height v <= S (length (innerText v)))%nat.
Proof.
  induction v as [| |b|q|s|items IH|es IH] using JsVal_nested_ind;
    intros Hv; try (cbn [height]; lia).
  apply faithful_obj in Hv as (_ & _ & HF). cbn [height innerText].
  apply le_n_S. apply list_max_le, Forall_forall.
  intros h Hh. apply list_elem_of_In, in_map_iff in Hh as ([k v] & <- & Hkv).
  rewrite Forall_forall in IH, HF. apply list_elem_of_In in Hkv as Hkv'.
  destruct (HF _ Hkv') as (Hk & _ & Hf). cbn [fst snd] in *.
  specialize (IH _ Hkv' Hf). cbn [snd] in IH.
  assert (Hl : (length (renderEntry (k, v)) <= length (concat (map renderEntry es)))%nat).
  { apply length_concat_ge. apply in_map_iff. by exists (k, v). }
  rewrite renderEntry_faithful in Hl by done.
  unfold openingTag, closing_tag in Hl. rewrite !length_app in Hl. cbn [length] in Hl. lia.
Qed.

Lemma objToXml_faithful es :
  faithful (VObj es) = true -> objToXml (VObj es) None = innerText (VObj es).
Proof.
  intros Hv. apply faithful_obj in Hv as (Hne & _ & HF).
  change (objToXml (VObj es) None)
    with (match List.filter kept_entry es with
          | [] => wrapTag (default (txt "empty") (truthy_key None)) []
          | _ :: _ =>
              match truthy_key None with
              | Some pk => wrapTag pk (concat (map renderEntry es))
              | None => concat (map renderEntry es)
              end
          end).
  destruct es as [|[k0 v0] es]; [done|]. inversion HF as [|? ? (_ & _ & Hf0) _]; subst.
  cbn [List.filter]. by rewrite (faithful_kept k0 v0 Hf0).
Qed.

(** C1 (in the form that holds): [xmlToObj (objToXml tree)] is [tree] for every tree
    whose root and inner nodes are objects that are not empty, with keys of
    [[A-Za-z0-9_]] that start with a letter, are distinct within an object
    and are not used again below themselves, and whose leaves are booleans,
    integers that are not negative, or strings with no ['<'], with no white
    space at either end, and other than the text of a boolean or of a
    number. *)
Theorem codec_round_trip es :
  faithful (VObj es) = true -> xmlToObj (objToXml (VObj es) None) = VObj es.
Proof.
  intros Hv. rewrite objToXml_faithful by done. unfold xmlToObj.
  apply parseElement_faithful; [done | reflexivity |]. by apply height_le_length.
Qed.



(** * The fuel of [parseElement] *)

Lemma find_close_length closing s body rest :
  find_close closing s = Some (body, rest) ->
  length s = (length body + length closing + length rest)%nat.
Proof.
  revert body rest. induction s as [|c s IH]; intros body rest; cbn [find_close].
  - destruct (startsWith [] closing) eqn:E; [|done].
    intros [= <- <-]. apply startsWith_spec in E as [r Hr].
    symmetry in Hr. apply app_eq_nil in Hr as [-> ->]. reflexivity.
  - destruct (startsWith (c :: s) closing) eqn:E.
    + intros [= <- <-]. apply startsWith_spec in E as [r Hr]. rewrite Hr.
      rewrite drop_app_length, length_app. reflexivity.
    + destruct (find_close closing s) as [[b r]|] eqn:Ef; [|done].
      intros [= <- <-]. cbn [length]. rewrite (IH b r eq_refl). reflexivity.
Qed.

Lemma drop_while_length p s : (length (drop_while p s) <= length s)%nat.
Proof.
  induction s as [|c s IH]; [done|]. cbn [drop_while].
  destruct (p c); cbn [length]; lia.
Qed.

Lemma try_names_length n : forall r name content rest,
  try_names n r = Some (name, content, rest) ->
  (length content + length rest < length r)%nat.
Proof.
  induction n as [|n IH]; intros r name content rest; [done|].
  cbn [try_names].
  pose proof (drop_while_length not_gt (drop (S n) r)) as Hd.
  rewrite length_drop in Hd.
  destruct (drop_while not_gt (drop (S n) r)) as [|c body] eqn:E; [apply IH|].
  destruct (find_close _ body) as [[b r']|] eqn:Ef; [|apply IH].
  intros [= _ <- <-]. apply find_close_length in Ef. cbn [length] in Hd. lia.
Qed.

Lemma match_here_length s name content rest :
  match_here s = Some (name, content, rest) ->
  (length content + length rest < length s)%nat.
Proof.
  destruct s as [|c r]; [done|]. cbn [match_here].
  destruct (chr_eqb c "<"); [|done]. intros H. apply try_names_length in H.
  cbn [length]. lia.
Qed.

(** The body of a match is shorter than the text it was found in. *)
Lemma exec_all_from_length s : forall skip m,
  In m (exec_all_from skip s) -> (length (snd m) < length s)%nat.
Proof.
  induction s as [|c r IH]; intros skip m; [done|].
  cbn [exec_all_from]. destruct skip as [|k].
  - destruct (match_here (c :: r)) as [[[name content] rest]|] eqn:E.
    + intros [<- | H].
      * apply match_here_length in E. cbn [snd]. lia.
      * apply IH in H. cbn [length]. lia.
    + intros H. apply IH in H. cbn [length]. lia.
  - intros H. apply IH in H. cbn [length]. lia.
Qed.

Lemma trim_length s : (length (trim s) <= length s)%nat.
Proof.
  unfold trim, trimEnd, trimStart. rewrite length_rev.
  etransitivity; [apply drop_while_length|]. rewrite length_rev. apply drop_while_length.
Qed.

Lemma fold_left_ext_in {A B} (f g : A -> B -> A) l : forall a,
  (forall a x, In x l -> f a x = g a x) -> fold_left f l a = fold_left g l a.
Proof.
  induction l as [|x l IH]; intros a H; [done|]. cbn [fold_left].
  rewrite (H a x) by (by left). apply IH. intros a' y Hy. apply H. by right.
Qed.

(** Fuel beyond the length of the text changes nothing: the bound in
    [xmlToObj] is never the reason for a result. *)
Lemma parseElement_fuel n : forall s f1 f2,
  (length s <= n)%nat -> (n <= f1)%nat -> (n <= f2)%nat ->
  parseElement f1 s = parseElement f2 s.
Proof.
  induction n as [|n IH]; intros s f1 f2 Hs H1 H2.
  - destruct s; [|cbn [length] in Hs; lia]. rewrite !parseElement_eq. reflexivity.
  - rewrite !parseElement_eq. cbv zeta.
    destruct (negb (includes (trim s) (txt "<"))); [reflexivity|].
    destruct (exec_all (trim s)) as [|m ms] eqn:E; [reflexivity|]. rewrite <- E.
    f_equal. apply fold_left_ext_in. intros a x Hx.
    destruct (includes (trim (snd x)) (txt "<")); [|reflexivity].
    apply exec_all_from_length in Hx. pose proof (trim_length s).
    destruct f1 as [|f1]; [lia|]. destruct f2 as [|f2]; [lia|].
    f_equal. apply IH; lia.
Qed.

Lemma xmlToObj_fuel s fuel :
  (length s <= fuel)%nat -> xmlToObj s = parseElement fuel s.
Proof. intros H. unfold xmlToObj. by apply (parseElement_fuel (length s)). Qed.

(** * The round trip, on samples *)

Lemma codec_round_trip_witness :
  faithful sampleTree = true /\
  xmlToObj (objToXml sampleTree None) = sampleTree.
Proof.
  assert (H : faithful sampleTree = true) by reflexivity.
  split; [exact H|]. exact (codec_round_trip _ H).
Defined.

(** C1 as stated does not hold: a string leaf with white space at
    an end comes back trimmed. *)
Lemma codec_round_trip_counterexample :
  plainTree (VObj [(txt "note", VStr (txt " padded "))]) = true /\
  xmlToObj (objToXml (VObj [(txt "note", VStr (txt " padded "))]) None)
  = VObj [(txt "note", VStr (txt "padded"))] /\
  xmlToObj (objToXml (VObj [(txt "note", VStr (txt " padded "))]) None)
  <> VObj [(txt "note", VStr (txt " padded "))].
Proof. split; [reflexivity|]. split; [reflexivity | discriminate]. Qed.

(** Each condition of [faithful] is needed: the trees below are plain
    trees that do not come back. *)
Example round_trip_numeral_string :
  xmlToObj (objToXml (VObj [(txt "zip", VStr (txt "042"))]) None)
  = VObj [(txt "zip", VNum 42)].
Proof. reflexivity. Qed.

Example round_trip_boolean_string :
  xmlToObj (objToXml (VObj [(txt "word", VStr (txt "true"))]) None)
  = VObj [(txt "word", VBool true)].
Proof. reflexivity. Qed.

Example round_trip_negative_number :
  xmlToObj (objToXml (VObj [(txt "delta", VNum (-3))]) None)
  = VObj [(txt "delta", VStr (txt "-3"))].
Proof. reflexivity. Qed.

Example round_trip_markup_in_string :
  xmlToObj (objToXml (VObj [(txt "a", VStr (txt "x</a>y"))]) None)
  = VObj [(txt "a", VStr (txt "x"))].
Proof. reflexivity. Qed.

Example round_trip_key_below_itself :
  xmlToObj (objToXml (VObj [(txt "a", VObj [(txt "a", VStr (txt "x"))])]) None)
  = VObj [(txt "a", VStr (txt "<a>x"))].
Proof. reflexivity. Qed.

Example round_trip_empty_object :
  xmlToObj (objToXml (VObj [(txt "a", VObj [])]) None) = VObj [(txt "a", VStr [])]
  /\ xmlToObj (objToXml (VObj []) None) = VObj [(txt "empty", VStr [])].
Proof. split; reflexivity. Qed.



(** * The streaming tag demultiplexer *)

Lemma processChars_app st a b :
  processChars st (a ++ b) =
  let '(st1, out1) := processChars st a in
  let '(st2, out2) := processChars st1 b in
  (st2, out1 ++ out2).
Proof.
  revert st. induction a as [|c a IH]; intros st; simpl.
  - by destruct (processChars st b).
  - destruct (processChar st c) as [st1 o1]. rewrite IH.
    destruct (processChars st1 a) as [st2 o2].
    destruct (processChars st2 b) as [st3 o3]. by rewrite app_assoc.
Qed.

Lemma processChar_sameParse a b c :
  sameParse a b ->
  sameParse (fst (processChar a c)) (fst (processChar b c)) /\
  snd (processChar a c) = snd (processChar b c).
Proof.
  intros (H1 & H2 & H3 & H4). unfold processChar.
  rewrite H1, H2, H3, H4.
  repeat match goal with
         | |- context [if ?b then _ else _] => destruct b eqn:?
         end; simpl; unfold sameParse; simpl; repeat split; auto; congruence.
Qed.

Lemma processChars_sameParse s a b :
  sameParse a b ->
  sameParse (fst (processChars a s)) (fst (processChars b s)) /\
  snd (processChars a s) = snd (processChars b s).
Proof.
  revert a b. induction s as [|c s IH]; intros a b H; simpl; [done|].
  destruct (processChar_sameParse a b c H) as [H1 H2].
  destruct (processChar a c) as [a1 oa], (processChar b c) as [b1 ob]; simpl in *.
  destruct (IH a1 b1 H1) as [H3 H4].
  destruct (processChars a1 s), (processChars b1 s); simpl in *. split; congruence.
Qed.

Lemma processStream_chars chunks st :
  sameParse (fst (processStream st chunks)) (fst (processChars st (concat chunks))) /\
  snd (processStream st chunks) = snd (processChars st (concat chunks)).
Proof.
  revert st. induction chunks as [|ch chunks IH]; intros st; simpl; [done|].
  unfold processChunk. rewrite processChars_app.
  set (st0 := mkDemux _ _ _ _ _).
  assert (H0 : sameParse st0 st) by (unfold sameParse; done).
  destruct (processChars_sameParse ch st0 st H0) as [H1 H2].
  destruct (processChars st0 ch) as [a1 oa], (processChars st ch) as [b1 ob]; simpl in *.
  destruct (IH a1) as [H3 H4].
  destruct (processChars_sameParse (concat chunks) a1 b1 H1) as [H5 H6].
  destruct (processStream a1 chunks) as [a2 oa2]; simpl in *.
  destruct (processChars a1 (concat chunks)) as [a3 oa3]; simpl in *.
  destruct (processChars b1 (concat chunks)) as [b3 ob3]; simpl in *.
  split; [|congruence].
  destruct H3 as (?&?&?&?), H5 as (?&?&?&?). unfold sameParse. repeat split; congruence.
Qed.

(** Plain text inside an open tag: every character ends up in an update
    of the current field or in the word buffer. *)
Lemma processChars_text inner : forall st,
  no_lt inner -> insideTag st = false -> tagStack st <> [] ->
  let '(st', out) := processChars st inner in
  tagStack st' = tagStack st /\ insideTag st' = false /\
  Forall (fun u => field u = currentField (tagStack st)) out /\
  concat (map value out) ++ wordBuffer st' = wordBuffer st ++ inner.
Proof.
  induction inner as [|c inner IH]; intros st Hlt Hin Hst; simpl.
  - repeat split; auto. by rewrite app_nil_r.
  - inversion Hlt as [|? ? Hc Hlt']; subst.
    assert (Hne : nonempty (tagStack st) = true) by (destruct (tagStack st); done).
    unfold processChar. apply chr_eqb_neq in Hc. rewrite Hc, Hin, andb_false_r, Hne.
    destruct (chr_eqb c " " || chr_eqb c "010") eqn:Hsp.
    + match goal with |- context [processChars ?s inner] => specialize (IH s Hlt' eq_refl Hst) end.
      simpl in IH.
      match goal with |- context [processChars ?s inner] => destruct (processChars s inner) as [st' out] end.
      destruct IH as (H1 & H2 & H3 & H4). simpl in *.
      repeat split; auto.
      * apply Forall_app. split; [|exact H3].
        destruct (nonempty (wordBuffer st)); repeat constructor.
      * rewrite map_app, concat_app, <- app_assoc. rewrite H4.
        destruct (wordBuffer st); simpl; rewrite ?app_nil_r, <- ?app_assoc; done.
    + match goal with |- context [processChars ?s inner] => specialize (IH s Hlt' eq_refl Hst) end.
      simpl in IH.
      match goal with |- context [processChars ?s inner] => destruct (processChars s inner) as [st' out] end.
      destruct IH as (H1 & H2 & H3 & H4). simpl in *.
      repeat split; auto. rewrite H4. by rewrite <- app_assoc.
Qed.

(** The characters of a tag name pile up in [currentTagName]. *)
Lemma processChars_name name : forall st,
  tag_name_ok name -> insideTag st = true ->
  processChars st name =
  (mkDemux (fullResponse st) (tagStack st) (currentTagName st ++ name)
     (wordBuffer st) true, []).
Proof.
  induction name as [|c name IH]; intros st Hok Hin; simpl.
  - rewrite app_nil_r. destruct st; simpl in *; by subst.
  - inversion Hok as [|? ? [Hc1 Hc2] Hok']; subst.
    unfold processChar. apply chr_eqb_neq in Hc1, Hc2. rewrite Hc1, Hc2, Hin. simpl.
    rewrite IH by done. simpl. by rewrite <- app_assoc.
Qed.

Lemma processChar_lt st :
  processChar st "<" =
  (mkDemux (fullResponse st) (tagStack st) [] [] true, flushPending st).
Proof. reflexivity. Qed.

Lemma processChar_gt st :
  insideTag st = true ->
  processChar st ">" =
  (mkDemux (fullResponse st)
     (if startsWith (currentTagName st) (txt "/") then removelast (tagStack st)
      else if nonempty (trim (currentTagName st))
           then tagStack st ++ [trim (currentTagName st)] else tagStack st)
     [] [] false, []).
Proof. intros H. unfold processChar. simpl. by rewrite H. Qed.

(** An opening tag pushes its trimmed name; what was in the word buffer
    goes out first. *)
Lemma processChars_open name st :
  tag_name_ok name -> startsWith name (txt "/") = false ->
  nonempty (trim name) = true ->
  processChars st ("<" :: name ++ [">"]) =
  (mkDemux (fullResponse st) (tagStack st ++ [trim name]) [] [] false,
   flushPending st).
Proof.
  intros Hok Hslash Hne. cbn [processChars]. rewrite processChar_lt.
  rewrite processChars_app, processChars_name by done.
  cbn [processChars]. rewrite processChar_gt by done.
  cbn [currentTagName tagStack fullResponse wordBuffer insideTag app].
  rewrite Hslash, Hne. by rewrite app_nil_r.
Qed.

(** A tag whose name starts with ['/'] pops, whatever the name. *)
Lemma processChars_close name st :
  tag_name_ok name ->
  processChars st (closing_tag name) =
  (mkDemux (fullResponse st) (removelast (tagStack st)) [] [] false,
   flushPending st).
Proof.
  intros Hok. unfold closing_tag. cbn [processChars]. rewrite processChar_lt.
  assert (E : processChar (mkDemux (fullResponse st) (tagStack st) [] [] true) "/"
              = (mkDemux (fullResponse st) (tagStack st) ["/"] [] true, []))
    by reflexivity.
  rewrite E. rewrite processChars_app, processChars_name by done.
  cbn [processChars]. rewrite processChar_gt by done.
  cbn [currentTagName tagStack fullResponse wordBuffer insideTag app].
  change (startsWith ("/" :: name) (txt "/")) with true.
  by rewrite app_nil_r.
Qed.

Lemma flushPending_sameParse a b : sameParse a b -> flushPending a = flushPending b.
Proof. intros (H1 & _ & H3 & _). unfold flushPending. by rewrite H1, H3. Qed.

Lemma streamUpdates_chars chunks :
  streamUpdates chunks =
  snd (processChars demux_init (concat chunks))
  ++ flushPending (fst (processChars demux_init (concat chunks))).
Proof.
  unfold streamUpdates.
  destruct (processStream_chars chunks demux_init) as [H1 H2].
  destruct (processStream demux_init chunks) as [st out]; simpl in *.
  by rewrite H2, (flushPending_sameParse _ _ H1).
Qed.

(** The updates of one tag pair, from the state the text before it leaves. *)
Lemma processChars_pair st name inner :
  tag_name_ok name -> startsWith name (txt "/") = false ->
  nonempty (trim name) = true -> no_lt inner ->
  exists st1 mid,
    processChars st ("<" :: name ++ ">" :: inner) = (st1, flushPending st ++ mid) /\
    tagStack st1 = tagStack st ++ [trim name] /\ insideTag st1 = false /\
    Forall (fun u => field u = currentField (tagStack st ++ [trim name]))
      (mid ++ flushPending st1) /\
    concat (map value (mid ++ flushPending st1)) = inner.
Proof.
  intros Hok Hslash Hne Hlt.
  change ("<" :: name ++ ">" :: inner) with (("<" :: name) ++ ">" :: inner).
  replace (("<" :: name) ++ ">" :: inner) with (("<" :: name ++ [">"]) ++ inner)
    by (simpl; by rewrite <- app_assoc).
  rewrite processChars_app, processChars_open by done.
  set (s1 := mkDemux _ _ _ _ _).
  pose proof (processChars_text inner s1 Hlt eq_refl) as H.
  assert (Hs : tagStack s1 <> []) by (simpl; by destruct (tagStack st)).
  specialize (H Hs). destruct (processChars s1 inner) as [st1 mid].
  destruct H as (H1 & H2 & H3 & H4). simpl in H1, H3, H4.
  exists st1, mid. repeat split; auto.
  - apply Forall_app. split; [exact H3|]. unfold flushPending.
    destruct (nonempty (wordBuffer st1) && nonempty (tagStack st1)); repeat constructor.
    simpl. by rewrite H1.
  - rewrite map_app, concat_app, <- H4. f_equal. unfold flushPending. rewrite H1.
    assert (nonempty (tagStack st ++ [trim name]) = true) as -> by (by destruct (tagStack st)).
    destruct (wordBuffer st1); simpl; by rewrite ?app_nil_r.
Qed.

(** C5 (in the form that holds): for a stream that holds the tag pair of a field whose
    inner text has no ['<'] -- or that ends inside such a field -- the
    updates emitted from the end of the opening tag up to the closing tag
    (up to the final flush when the stream ends first) form one run of the
    emitted sequence; each carries the field of the tag stack of that
    moment, and their values, concatenated in order, are exactly the inner
    text, separators included.  The cut of the stream into chunks does not
    matter. *)
Theorem streaming_reconstruction chunks pre name inner tail :
  concat chunks = pre ++ "<" :: name ++ ">" :: inner ++ tail ->
  tag_name_ok name -> startsWith name (txt "/") = false ->
  nonempty (trim name) = true -> no_lt inner ->
  tail = [] \/ (exists post, tail = closing_tag name ++ post) ->
  exists mid after,
    streamUpdates chunks =
      (snd (processChars demux_init pre)
       ++ flushPending (fst (processChars demux_init pre)))
      ++ mid ++ after /\
    Forall (fun u => field u =
              currentField (tagStack (fst (processChars demux_init pre)) ++ [trim name]))
           mid /\
    concat (map value mid) = inner.
Proof.
  intros Hcat Hok Hslash Hne Hlt Htail.
  rewrite streamUpdates_chars, Hcat.
  replace ("<" :: name ++ ">" :: inner ++ tail)
    with (("<" :: name ++ ">" :: inner) ++ tail)
    by (simpl; rewrite <- !app_assoc; reflexivity).
  rewrite processChars_app.
  destruct (processChars demux_init pre) as [st0 out0] eqn:E0.
  cbv beta iota. cbn [fst snd]. rewrite processChars_app.
  destruct (processChars_pair st0 name inner Hok Hslash Hne Hlt)
    as (st1 & mid & E1 & Hs1 & Hi1 & HF & HC).
  rewrite E1.
  destruct Htail as [-> | [post ->]].
  - cbn [processChars fst snd]. exists (mid ++ flushPending st1), [].
    split; [|done]. by rewrite !app_nil_r, <- !app_assoc.
  - rewrite processChars_app.
    assert (Hc : processChars st1 (closing_tag name)
                 = (mkDemux (fullResponse st1) (removelast (tagStack st1)) [] [] false,
                    flushPending st1)).
    { unfold closing_tag. cbn [processChars]. rewrite processChar_lt.
      assert (E : processChar (mkDemux (fullResponse st1) (tagStack st1) [] [] true) "/"
                  = (mkDemux (fullResponse st1) (tagStack st1) ["/"] [] true, []))
        by reflexivity.
      rewrite E, processChars_app, processChars_name by done.
      cbn [processChars]. rewrite processChar_gt by done.
      cbn [currentTagName tagStack fullResponse wordBuffer insideTag app].
      change (startsWith ("/" :: name) (txt "/")) with true. by rewrite app_nil_r. }
    rewrite Hc.
    match goal with |- context [processChars ?s post] =>
      destruct (processChars s post) as [st3 out3] end.
    cbn [fst snd].
    exists (mid ++ flushPending st1), (out3 ++ flushPending st3).
    split; [|done]. by rewrite <- !app_assoc.
Qed.

Lemma streaming_reconstruction_witness :
  exists mid after,
    streamUpdates [txt "x<a>he"; txt "llo  wor"; txt "ld</a>y"] = [] ++ mid ++ after /\
    Forall (fun u => field u = txt "a") mid /\
    concat (map value mid) = txt "hello  world".
Proof.
  apply (streaming_reconstruction
           [txt "x<a>he"; txt "llo  wor"; txt "ld</a>y"]
           (txt "x") (txt "a") (txt "hello  world") (txt "</a>y")).
  - reflexivity.
  - repeat constructor; discriminate.
  - reflexivity.
  - reflexivity.
  - repeat constructor; discriminate.
  - right. exists (txt "y"). reflexivity.
Defined.

(** C5 as stated does not hold: a ['<'] in the inner text opens a
    tag for the demultiplexer, and what follows it never reaches the
    field. *)
Lemma streaming_reconstruction_counterexample :
  fieldText (txt "a") (streamUpdates [txt "<a>1 < 2</a>"]) = txt "1 "
  /\ fieldText (txt "a") (streamUpdates [txt "<a>1 < 2</a>"]) <> txt "1 < 2".
Proof. split; [reflexivity | discriminate]. Qed.

(** C10: the demultiplexer has a result for every chunk in every state,
    with no error branch.  A ['>'] that ends a tag whose name starts with
    ['/'] pops the stack, whatever the rest of the name and whatever is on
    the stack; so a closing tag [</name>] pops for every [name], and on an
    empty stack leaves it empty. *)
Theorem demux_total_pop_any st name :
  tag_name_ok name ->
  (forall chunk, exists st' out, processChunk st chunk = (st', out)) /\
  (insideTag st = true -> startsWith (currentTagName st) (txt "/") = true ->
     tagStack (fst (processChar st ">")) = removelast (tagStack st)) /\
  tagStack (fst (processChars st (closing_tag name))) = removelast (tagStack st) /\
  (tagStack st = [] -> tagStack (fst (processChars st (closing_tag name))) = []).
Proof.
  intros Hok. split; [|split; [|split]].
  - intros chunk. destruct (processChunk st chunk) as [st' out]. by exists st', out.
  - intros Hin Hs. rewrite processChar_gt by done. cbn [fst tagStack]. by rewrite Hs.
  - by rewrite processChars_close.
  - intros He. rewrite processChars_close by done. simpl. by rewrite He.
Qed.

Lemma demux_total_pop_any_witness :
  tag_name_ok (txt "b") /\
  tagStack (fst (processChars (mkDemux [] [txt "a"; txt "c"] [] (txt "w") false)
                   (closing_tag (txt "b")))) = [txt "a"].
Proof.
  split.
  - repeat constructor; discriminate.
  - apply (proj1 (proj2 (proj2 (demux_total_pop_any
             (mkDemux [] [txt "a"; txt "c"] [] (txt "w") false) (txt "b")
             ltac:(repeat constructor; discriminate))))).
Defined.



(** * The output schema check *)




Lemma unwrapAll_validateField schema currentPath key :
  validateField currentPath key schema = validateField currentPath key (unwrapAll schema).
Proof. induction schema; simpl; auto. Qed.

Lemma last_cons_default {A} (x : A) l : exists y, last (x :: l) = Some y.
Proof. revert x. induction l as [|z l IH]; intros x; simpl; eauto. Qed.


Lemma containsArray_unwrapAll schema : containsArray (unwrapAll schema) = containsArray schema.
Proof. induction schema; simpl; auto. Qed.

(** [containsArray] says that some path leads to an array. *)
Lemma containsArray_arrayIn schema :
  containsArray schema = true <-> exists keys, arrayIn schema keys.
Proof.
  split.
  - induction schema as [| | | |e IH|shape IH|i IH|i IH|] using ZodType_nested_ind;
      simpl; try done.
    + intros _. exists []. by eapply arrayIn_here.
    + intros H. apply existsb_exists in H as ([k f] & Hin & Hc). simpl in Hc.
      rewrite Forall_forall in IH.
      destruct (IH (k, f) (proj2 (list_elem_of_In _ _) Hin) Hc) as [keys Hk].
      exists (k :: keys). by eapply arrayIn_field.
    + intros H. destruct (IH H) as [keys Hk]. exists keys.
      inversion Hk; subst; [eapply arrayIn_here | eapply arrayIn_field]; simpl; eauto.
    + intros H. destruct (IH H) as [keys Hk]. exists keys.
      inversion Hk; subst; [eapply arrayIn_here | eapply arrayIn_field]; simpl; eauto.
  - intros [keys Hk]. induction Hk as [s e Hu | s shape k f keys Hu Hin Hk IH].
    + rewrite <- containsArray_unwrapAll, Hu. reflexivity.
    + rewrite <- containsArray_unwrapAll, Hu. simpl.
      apply existsb_exists. exists (k, f). auto.
Qed.


(** With keys that are not empty the path is the keys joined by dots. *)
Lemma dottedPath_join keys :
  Forall (fun k => k <> []) keys -> dottedPath [] keys = join (txt ".") keys.
Proof.
  intros H. destruct keys as [|k keys]; [reflexivity|].
  inversion H as [|? ? Hk Hks]; subst. unfold dottedPath. simpl.
  assert (G : forall ks p, p <> [] -> Forall (fun k => k <> []) ks ->
              fold_left extendPath ks p = p ++ concat (map (fun q => txt "." ++ q) ks)).
  { induction ks as [|q ks IH]; intros p Hp Hq; simpl; [by rewrite app_nil_r|].
    inversion Hq; subst. rewrite IH; auto.
    - destruct p; [done|]. simpl. by rewrite <- app_assoc.
    - destruct p; [done|]. discriminate. }
  by apply G.
Qed.





(** * The payment-retry wrapper *)

Lemma payFor_requests swallows net w res :
  requests (snd (payFor swallows net w res)) = 0%nat.
Proof.
  unfold payFor.
  destruct (bodyJson res) as [info|]; [|reflexivity].
  destruct (is_nullish info); [reflexivity|].
  destruct (decodeKeys net _ _); [|reflexivity].
  destruct (measure swallows AtSendTransaction _); [|reflexivity].
  destruct (measure swallows AtConfirmTransaction _); reflexivity.
Qed.

Lemma requests_app a b : requests (a ++ b) = (requests a + requests b)%nat.
Proof. unfold requests. by rewrite List.filter_app, length_app. Qed.

Lemma requests_cons_Requested evs : requests (Requested :: evs) = S (requests evs).
Proof. reflexivity. Qed.

(** The last turn of the loop, with no retry left: one request. *)
Lemma fetchLoop_last swallows net wallet attempt :
  requests (snd (fetchLoop swallows net wallet 0 attempt)) = 1%nat.
Proof.
  simpl. destruct (measure swallows AtFetch (fetch net attempt)) as [[res|]|]; try reflexivity.
  destruct (res_ok res); reflexivity.
Qed.

Lemma fetchLoop_requests swallows net wallet budget : forall attempt,
  (1 <= requests (snd (fetchLoop swallows net wallet budget attempt)) <= S budget)%nat.
Proof.
  induction budget as [|b IH]; intros attempt.
  - rewrite fetchLoop_last. lia.
  - simpl. destruct (measure swallows AtFetch (fetch net attempt)) as [[res|]|];
      try (simpl; unfold requests; simpl; lia).
    destruct (res_ok res); [unfold requests; simpl; lia|].
    destruct wallet as [w|]; [|unfold requests; simpl; lia].
    destruct (negb (status res =? 402)%N); [unfold requests; simpl; lia|].
    pose proof (payFor_requests swallows net w res) as Hp.
    destruct (payFor swallows net w res) as [[[]|e] evs]; simpl in Hp.
    + specialize (IH (S attempt)).
      destruct (fetchLoop swallows net (Some w) b (S attempt)) as [r evs']. simpl in *.
      rewrite requests_cons_Requested, requests_app. lia.
    + simpl. rewrite requests_cons_Requested. lia.
Qed.

Lemma res_ok_402 res : status res = 402%N -> res_ok res = false.
Proof. intros H. unfold res_ok. by rewrite H. Qed.

(** C4 (in the form that holds): a call never puts more than two requests
    on the wire, whatever the endpoint answers.  When the endpoint answers
    402 to every attempt: with no wallet the call fails at once, after the
    one request, with the error that carries the body text; with a wallet
    and a payment that goes through there are exactly two requests, and the
    call fails with the error that carries the body text of the second
    reply; with a wallet and a payment step that fails, the call fails with
    the error of that step after the one request. *)
Theorem payment_retry_bound swallows net wallet :
  (1 <= requests (snd (fetchWithPayment swallows net wallet)) <= 2)%nat /\
  (forall reply : nat -> Response,
     (forall n, fetch net n = Resolved (reply n)) ->
     (forall n, status (reply n) = 402%N) ->
     (wallet = None ->
        fetchWithPayment swallows net wallet
        = (Rejected (requestFailed (reply 0%nat)), [Requested])) /\
     (forall w evs, wallet = Some w ->
        payFor swallows net w (reply 0%nat) = (Resolved tt, evs) ->
        fetchWithPayment swallows net wallet
        = (Rejected (requestFailed (reply 1%nat)), Requested :: evs ++ [Requested])
        /\ requests (snd (fetchWithPayment swallows net wallet)) = 2%nat) /\
     (forall w e evs, wallet = Some w ->
        payFor swallows net w (reply 0%nat) = (Rejected e, evs) ->
        fetchWithPayment swallows net wallet = (Rejected e, Requested :: evs)
        /\ requests (snd (fetchWithPayment swallows net wallet)) = 1%nat)).
Proof.
  split.
  { pose proof (fetchLoop_requests swallows net wallet maxRetries 0%nat).
    unfold fetchWithPayment. unfold maxRetries in *. lia. }
  intros reply Hfetch H402. split; [|split].
  - intros ->. unfold fetchWithPayment, maxRetries. simpl.
    rewrite Hfetch. simpl. by rewrite res_ok_402.
  - intros w evs -> Hpay.
    assert (E : fetchWithPayment swallows net (Some w)
                = (Rejected (requestFailed (reply 1%nat)), Requested :: evs ++ [Requested])).
    { unfold fetchWithPayment, maxRetries. simpl.
      rewrite !Hfetch. simpl. rewrite !res_ok_402, !H402 by done. simpl.
      by rewrite Hpay. }
    split; [exact E|]. rewrite E. simpl.
    rewrite requests_cons_Requested, requests_app.
    pose proof (payFor_requests swallows net w (reply 0%nat)) as Hp. rewrite Hpay in Hp.
    simpl in Hp. rewrite Hp. reflexivity.
  - intros w e evs -> Hpay.
    assert (E : fetchWithPayment swallows net (Some w) = (Rejected e, Requested :: evs)).
    { unfold fetchWithPayment, maxRetries. simpl.
      rewrite !Hfetch. simpl. rewrite !res_ok_402, !H402 by done. simpl.
      by rewrite Hpay. }
    split; [exact E|]. rewrite E. simpl. rewrite requests_cons_Requested.
    pose proof (payFor_requests swallows net w (reply 0%nat)) as Hp. rewrite Hpay in Hp.
    simpl in Hp. by rewrite Hp.
Qed.

Lemma payment_retry_bound_witness :
  fetchWithPayment rethrowing paid402 (Some someWallet)
  = (Rejected (txt "Request failed: 402 - pay first"),
     [Requested; TransactionSent; TransactionConfirmed; Requested])
  /\ requests (snd (fetchWithPayment rethrowing paid402 (Some someWallet))) = 2%nat.
Proof.
  apply (proj1 (proj2 (proj2 (payment_retry_bound rethrowing paid402 (Some someWallet))
           (fun _ => mkResponse 402 (txt "pay first")
                       (Some (VObj [(txt "amount", VNum (1 # 1000));
                                    (txt "recipient", VStr (txt "addr"))])))
           ltac:(reflexivity) ltac:(reflexivity))) someWallet
           [TransactionSent; TransactionConfirmed]).
  - reflexivity.
  - reflexivity.
Defined.

(** C4 as stated does not hold: 402 on every attempt and a wallet do
    not make two requests when the payment step itself fails -- here the
    body of the 402 is not JSON; the call ends after one request, and not
    with the body text. *)
Lemma payment_retry_counterexample :
  always402 plain402 /\
  fetchWithPayment rethrowing plain402 (Some someWallet)
  = (Rejected notJsonError, [Requested]) /\
  requests (snd (fetchWithPayment rethrowing plain402 (Some someWallet))) <> 2%nat.
Proof.
  split; [|split].
  - intros n. eexists. split; reflexivity.
  - reflexivity.
  - discriminate.
Qed.



(** * Selection steps *)

Lemma parseElement_no_markup fuel r :
  includes (trim r) (txt "<") = false -> parseElement fuel r = VStr (trim r).
Proof. intros H. rewrite parseElement_eq. cbv zeta. by rewrite H. Qed.

Lemma filter_none {A} (l : list A) : List.filter (fun _ => false) l = [].
Proof. induction l; simpl; auto. Qed.

(** A reply with no markup in it selects no server... *)
Lemma serversFromReply_no_markup servers c r :
  includes (trim (c :: r)) (txt "<") = false ->
  serversFromReply servers (Some (c :: r)) = [].
Proof.
  intros H. unfold serversFromReply, xmlToObj.
  rewrite parseElement_no_markup by done. simpl. apply filter_none.
Qed.

(** ...and no tool. *)
Lemma toolsFromReply_no_markup tools c r :
  includes (trim (c :: r)) (txt "<") = false ->
  toolsFromReply tools (Some (c :: r)) = [].
Proof.
  intros H. unfold toolsFromReply, xmlToObj.
  rewrite parseElement_no_markup by done. simpl. apply filter_none.
Qed.

(** A reply that is empty or missing: all servers, the first tool. *)
Lemma serversFromReply_no_reply servers response :
  noReply response = true -> serversFromReply servers response = servers.
Proof. destruct response as [[|c r]|]; simpl; done. Qed.

Lemma toolsFromReply_no_reply tools response :
  noReply response = true -> toolsFromReply tools response = firstTool tools.
Proof. destruct response as [[|c r]|]; simpl; done. Qed.

(** C2 (the code on a malformed reply): with two servers declared and a
    reply of the model that is prose with no markup, [selectRelevantServers]
    returns no server at all.  The claim has it return both: the [catch]
    branch that would do so is never entered, because [xmlToObj] does not
    throw, and the missing names default to the empty array. *)
Theorem server_selection_malformed_reply :
  selectRelevantServers chattyWorld serversConfig sampleInput = Resolved (Some []) /\
  serversFromReply twoServers (Some (txt "I am not sure which of them applies.")) = [].
Proof. split; vm_compute; reflexivity. Qed.

Example server_selection_unclosed_markup :
  serversFromReply twoServers (Some (txt "<relevant_servers><server_names>weather")) = [].
Proof. vm_compute. reflexivity. Qed.

Example server_selection_one_name :
  serversFromReply twoServers
    (Some (txt "<relevant_servers><server_names>news</server_names></relevant_servers>"))
  = [mkServer (txt "news") (txt "News search") (txt "http://n.example")].
Proof. vm_compute. reflexivity. Qed.

(** C3 (the code on a malformed reply): with two tools discovered and a
    reply of the model that is prose with no markup, [selectRelevantTools]
    returns no tool.  The claim has it return the first tool: that is what
    the branches for a missing reply and for a thrown error do, and neither
    is taken. *)
Theorem tool_selection_malformed_reply :
  selectRelevantTools chattyWorld sampleInput twoTools
    (mkServer (txt "weather") (txt "Weather data") (txt "http://w.example"))
  = Resolved (Some []) /\
  toolsFromReply twoTools (Some (txt "I am not sure which of them applies.")) = [].
Proof. split; vm_compute; reflexivity. Qed.

Example tool_selection_unclosed_markup :
  toolsFromReply twoTools (Some (txt "<selected_tools><tool_names>lookup")) = [].
Proof. vm_compute. reflexivity. Qed.

Example tool_selection_missing_reply :
  toolsFromReply twoTools None = [mkTool (txt "lookup") (txt "Look a city up") (VObj [])]
  /\ toolsFromReply twoTools (Some []) = [mkTool (txt "lookup") (txt "Look a city up") (VObj [])]
  /\ serversFromReply twoServers None = twoServers
  /\ serversFromReply twoServers (Some []) = twoServers.
Proof. repeat split; reflexivity. Qed.

(** * The prompt of response generation *)

Lemma digit_char_not_brace d : digit_char (d mod 10) <> "{".
Proof.
  unfold digit_char. intros H.
  assert (Hlt : (d mod 10 < 10)%N) by (apply N.mod_lt; done).
  apply (f_equal N_of_ascii) in H.
  rewrite N_ascii_embedding in H by lia. simpl in H. lia.
Qed.

Lemma N_digits_head f : forall n acc,
  exists d rest, N_digits (S f) n acc = digit_char (d mod 10) :: rest.
Proof.
  induction f as [|f IH]; intros n acc.
  - simpl. destruct (n / 10 =? 0)%N; eauto.
  - change (N_digits (S (S f)) n acc)
      with (if (n / 10 =? 0)%N then digit_char (n mod 10) :: acc
            else N_digits (S f) (n / 10) (digit_char (n mod 10) :: acc)).
    destruct (n / 10 =? 0)%N; eauto.
Qed.

Lemma Number_toString_not_braces q : Number_toString q <> txt "{}".
Proof.
  unfold Number_toString.
  destruct (Qnum (Qred q) <? 0)%Z; [discriminate|].
  unfold N_to_str.
  destruct (N_digits_head (N.to_nat (N.size (Z.to_N (Z.abs (Qnum (Qred q)) / Z.pos (Qden (Qred q))))))
              (Z.to_N (Z.abs (Qnum (Qred q)) / Z.pos (Qden (Qred q)))) []) as (d & rest & ->).
  cbn [app]. intros H.
  assert (Hh : forall (a : ascii) r t, a :: r = t -> head t = Some a)
    by (intros; subst; reflexivity).
  apply Hh in H. change (head (txt "{}")) with (Some "{") in H.
  injection H as H. symmetry in H. by apply digit_char_not_brace in H.
Qed.

Lemma join_nil sep parts :
  sep <> [] -> Forall (fun p => p <> []) parts -> join sep parts = [] -> parts = [].
Proof.
  intros Hsep HF. destruct parts as [|p ps]; [done|].
  inversion HF; subst. simpl. intros H. apply app_eq_nil in H as [? _]. done.
Qed.

Lemma filterMap_nil {A B} (f : A -> option B) l :
  filterMap f l = [] <-> Forall (fun a => f a = None) l.
Proof.
  induction l as [|a l IH]; simpl.
  - split; [constructor | done].
  - destruct (f a) eqn:E.
    + split; [done | intros H; inversion H; congruence].
    + rewrite IH. split; [by constructor | intros H; by inversion H].
Qed.

Lemma filterMap_Forall {A B} (f : A -> option B) (P : B -> Prop) l :
  (forall a b, f a = Some b -> P b) -> Forall P (filterMap f l).
Proof.
  intros H. induction l as [|a l IH]; simpl; [constructor|].
  destruct (f a) eqn:E; [constructor; eauto | done].
Qed.

Lemma JSON_stringify_None v : JSON_stringify v = None <-> v = VUndef.
Proof. destruct v as [| |[]| | | |]; simpl; split; congruence. Qed.

Lemma JSON_stringify_braces v :
  JSON_stringify v = Some (txt "{}")
  <-> exists es, v = VObj es /\ Forall (fun kv => snd kv = VUndef) es.
Proof.
  split.
  - destruct v as [| |[]|q|s| items|es]; cbn [JSON_stringify]; try discriminate.
    + intros [= H]. by apply Number_toString_not_braces in H.
    + intros [= H]. exists es. split; [done|].
      assert (Hj : join (txt ",")
                     (filterMap (fun kv => match JSON_stringify (snd kv) with
                                           | Some t => Some (quoteJson (fst kv) ++ ":" :: t)
                                           | None => None end) es) = []).
      { destruct (join _ _) as [|c r]; [done|]. simpl in H.
        destruct r; simpl in H; discriminate. }
      apply join_nil in Hj; [|discriminate|].
      * apply filterMap_nil in Hj. eapply Forall_impl; [exact Hj|].
        intros kv Hkv. simpl in Hkv. destruct (JSON_stringify (snd kv)) eqn:E; [done|].
        by apply JSON_stringify_None.
      * apply filterMap_Forall. intros kv b Hb.
        destruct (JSON_stringify (snd kv)); [|done]. injection Hb as <-. discriminate.
  - intros (es & -> & HF). simpl.
    replace (filterMap _ es) with (@nil str); [reflexivity|].
    symmetry. apply filterMap_nil. eapply Forall_impl; [exact HF|].
    intros kv ->. reflexivity.
Qed.

Lemma str_eqb_head c r : chr_eqb c "{" = false -> str_eqb (c :: r) (txt "{}") = false.
Proof. intros H. change (txt "{}") with ["{"; "}"]. cbn [str_eqb]. by rewrite H. Qed.

Lemma usableResult_false v : usableResult v = false <-> trivialResult v.
Proof.
  unfold usableResult. split.
  - intros H. destruct v as [| |b|q|s|items|es]; cbn [trivialResult]; try done.
    + destruct b; discriminate H.
    + cbn [is_nullish is_string JSON_stringify negb andb] in H.
      apply negb_false_iff, str_eqb_eq in H. by apply Number_toString_not_braces in H.
    + destruct s as [|c s]; [done|].
      cbn [is_nullish is_string JSON_stringify negb andb str_eqb] in H.
      unfold quoteJson in H. by rewrite str_eqb_head in H.
    + cbn [is_nullish is_string negb andb] in H.
      destruct (JSON_stringify (VObj es)) as [t|] eqn:E; [|done].
      apply negb_false_iff, str_eqb_eq in H. subst t.
      apply JSON_stringify_braces in E as (es' & [= <-] & HF). exact HF.
  - intros H. destruct v as [| |b|q|s|items|es]; cbn [trivialResult] in H; try done.
    + destruct s; done.
    + assert (Hs : JSON_stringify (VObj es) = Some (txt "{}"))
        by (apply JSON_stringify_braces; eauto).
      rewrite Hs. reflexivity.
Qed.

Lemma hasToolResults_false toolResults :
  hasToolResults toolResults = false <-> Forall (fun kv => trivialResult (snd kv)) toolResults.
Proof.
  unfold hasToolResults. destruct toolResults as [|kv rest].
  - split; [constructor | reflexivity].
  - cbn [map nonempty andb]. rewrite <- not_true_iff_false, existsb_exists.
    split.
    + intros Hno. apply Forall_forall. intros x Hx. apply usableResult_false.
      apply not_true_iff_false. intros Hu. apply Hno. exists (snd x). split; [|done].
      apply (in_map snd (kv :: rest) x). by apply list_elem_of_In.
    + intros HF (v & Hin & Hu).
      apply (in_map_iff snd (kv :: rest) v) in Hin as (x & <- & Hx).
      rewrite Forall_forall in HF. apply list_elem_of_In in Hx.
      apply HF, usableResult_false in Hx. congruence.
Qed.

Lemma objToXml_obj es parentKey :
  objToXml (VObj es) parentKey =
  match List.filter kept_entry es with
  | [] => wrapTag (default (txt "empty") (truthy_key parentKey)) []
  | _ :: _ =>
      match truthy_key parentKey with
      | Some pk => wrapTag pk (concat (map renderEntry es))
      | None => concat (map renderEntry es)
      end
  end.
Proof. reflexivity. Qed.

Lemma objToXml_snoc es e :
  List.filter kept_entry es <> [] ->
  objToXml (VObj (es ++ [e])) None = objToXml (VObj es) None ++ renderEntry e.
Proof.
  intros Hne. rewrite !objToXml_obj, List.filter_app.
  destruct (List.filter kept_entry es) as [|x xs]; [done|].
  cbn [app truthy_key]. rewrite map_app, concat_app. cbn [map concat].
  by rewrite app_nil_r.
Qed.

Lemma userPrompt_split input output_format task toolResults :
  userPrompt input output_format task toolResults =
  basePrompt input output_format task ++
  (if hasToolResults toolResults
   then objToXml (VObj [(txt "tool_results", VObj toolResults)]) (Some (txt "context"))
   else []).
Proof.
  unfold userPrompt, promptObject, basePrompt.
  destruct (hasToolResults toolResults); [|by rewrite app_nil_r].
  change (obj_set (txt "context") ?v ?es) with (es ++ [(txt "context", v)]).
  rewrite objToXml_snoc; [reflexivity|].
  cbn [List.filter].
  change (kept_entry (txt "task", VStr task)) with true.
  destruct (kept_entry (txt "input", input)), (kept_entry (txt "output_format", output_format));
    discriminate.
Qed.

(** C8 (in the form that holds): the prompt has a context block exactly when
    [hasToolResults] holds, and that is when some tool result is none of
    [null], [undefined], the empty string and an object that serialises to
    ["{}"].  When every result is one of these, the object handed to
    [objToXml] has no [context] key and the prompt is the text built from
    [input], [output_format] and [task] alone; otherwise the block follows
    that text.  A result such as [false], [0] or an empty array counts. *)
Theorem tool_results_gating input output_format task toolResults :
  (Forall (fun kv => trivialResult (snd kv)) toolResults ->
     get (promptObject input output_format task toolResults) (txt "context") = VUndef /\
     userPrompt input output_format task toolResults = basePrompt input output_format task) /\
  (~ Forall (fun kv => trivialResult (snd kv)) toolResults ->
     get (promptObject input output_format task toolResults) (txt "context")
     = VObj [(txt "tool_results", VObj toolResults)] /\
     userPrompt input output_format task toolResults
     = basePrompt input output_format task
       ++ objToXml (VObj [(txt "tool_results", VObj toolResults)]) (Some (txt "context"))).
Proof.
  split.
  - intros H. apply hasToolResults_false in H.
    rewrite userPrompt_split. unfold promptObject. rewrite H. split; [reflexivity|].
    by rewrite app_nil_r.
  - intros H. assert (Hh : hasToolResults toolResults = true).
    { apply not_false_iff_true. intros Hf. by apply H, hasToolResults_false. }
    rewrite userPrompt_split. unfold promptObject. rewrite Hh. split; reflexivity.
Qed.

Lemma tool_results_gating_witness :
  Forall (fun kv => trivialResult (snd kv))
    [(txt "s.a", VNull); (txt "s.b", VStr []); (txt "s.c", VObj [])] /\
  userPrompt (VObj [(txt "q", VStr (txt "hi"))]) (VObj [(txt "answer", VStr [])])
    (txt "answer it") [(txt "s.a", VNull); (txt "s.b", VStr []); (txt "s.c", VObj [])]
  = txt "<input><q>hi</q></input><output_format><answer></answer></output_format><task>answer it</task>".
Proof.
  assert (H : Forall (fun kv => trivialResult (snd kv))
                [(txt "s.a", VNull); (txt "s.b", VStr []); (txt "s.c", VObj [])])
    by (repeat constructor).
  split; [exact H|].
  exact (proj2 (proj1 (tool_results_gating
           (VObj [(txt "q", VStr (txt "hi"))]) (VObj [(txt "answer", VStr [])])
           (txt "answer it") _) H)).
Defined.

(** C8 as stated does not hold: a tool result that is falsy but is
    not one of the values the test names -- here [false] -- puts the
    context block into the prompt. *)
Lemma tool_results_gating_counterexample :
  truthy (VBool false) = false /\
  get (promptObject (VObj [(txt "q", VStr (txt "hi"))]) (VObj [(txt "answer", VStr [])])
         (txt "answer it") [(txt "srv.tool", VBool false)]) (txt "context")
  = VObj [(txt "tool_results", VObj [(txt "srv.tool", VBool false)])] /\
  userPrompt (VObj [(txt "q", VStr (txt "hi"))]) (VObj [(txt "answer", VStr [])])
    (txt "answer it") [(txt "srv.tool", VBool false)]
  = txt "<input><q>hi</q></input><output_format><answer></answer></output_format><task>answer it</task><context><tool_results><srv.tool>false</srv.tool></tool_results></context>".
Proof. repeat split; reflexivity. Qed.



(** * The run pipeline *)

(** ** The caller's objects *)

Lemma writeField_other st l key v l' :
  l' <> l -> writeField st l key v !! l' = st !! l'.
Proof. intros H. unfold writeField. by rewrite lookup_insert_ne. Qed.

Lemma resolveFields_other w fields input : forall st l,
  l <> input -> snd (resolveFields w fields input st) !! l = st !! l.
Proof.
  induction fields as [|[key description] fields IH]; intros st l Hl; simpl; [done|].
  destruct (resolveField w key description (VObj (readObject st input))) as [[result|]|e].
  - rewrite IH by done. by apply writeField_other.
  - by apply IH.
  - done.
Qed.

Lemma generatedResponse_other w agent input st l :
  is_Some (st !! l) -> snd (generatedResponse w agent input st) !! l = st !! l.
Proof.
  intros Hl. unfold generatedResponse.
  destruct (measure (swallows w) AtValidateInput _) as [[parsed|]|e]; [|done|done].
  unfold allocObject, resolveMCPInputFields.
  set (l' := fresh (dom st)).
  assert (Hne : l <> l').
  { intros ->. apply (is_fresh (dom st)). by apply elem_of_dom. }
  pose proof (resolveFields_other w (in_shape (inputFormat (config agent))) l'
                (<[l' := parsed]> st) l Hne) as Hr.
  destruct (resolveFields w _ l' _) as [resolved st2]. simpl in Hr.
  destruct (measure (swallows w) AtResolveFields resolved); simpl;
    rewrite Hr; by apply lookup_insert_ne.
Qed.

Lemma run_store w agent input st :
  snd (run w agent input st) = snd (generatedResponse w agent input st).
Proof.
  unfold run, runBody. by destruct (generatedResponse w agent input st).
Qed.

(** C9: [run] leaves every object the caller holds as it was, the input
    object first of all; the values that input resolution fetches are
    written to the copy that [parse] returned. *)
Theorem caller_input_not_mutated w agent input st :
  is_Some (st !! input) ->
  readObject (snd (run w agent input st)) input = readObject st input /\
  (forall l, is_Some (st !! l) -> snd (run w agent input st) !! l = st !! l).
Proof.
  intros Hin. rewrite run_store. split.
  - unfold readObject. by rewrite generatedResponse_other.
  - intros l Hl. by apply generatedResponse_other.
Qed.

Lemma caller_input_not_mutated_witness :
  is_Some (callerStore !! 0%nat) /\
  readObject (snd (run (sampleWorld swallowsNested) cityAgent 0%nat callerStore)) 0%nat
  = [(txt "city", VStr (txt "?"))] /\
  readObject (snd (run (sampleWorld swallowsNested) cityAgent 0%nat callerStore)) 2%nat
  = [(txt "city", VStr (txt "Paris"))].
Proof.
  assert (H : is_Some (callerStore !! 0%nat)) by (eexists; reflexivity).
  split; [exact H|]. split.
  - exact (proj1 (caller_input_not_mutated (sampleWorld swallowsNested) cityAgent
                    0%nat callerStore H)).
  - vm_compute. reflexivity.
Defined.

(** ** Validation of the input and of the output *)

Lemma run_outcome w agent input st :
  fst (run w agent input st) = measure (swallows w) AtRun (fst (runBody w agent input st)).
Proof. unfold run. by destruct (runBody w agent input st). Qed.

Lemma runBody_outcome w agent input st :
  fst (runBody w agent input st) =
  bind (fst (generatedResponse w agent input st)) (validateOutput w (config agent)).
Proof. unfold runBody. by destruct (generatedResponse w agent input st). Qed.

(** C7 (in the form that holds): what [run] does with a validation failure is settled
    by [measure].  For an input that fails the input schema the body of
    [run] throws -- the message "Input validation failed..." where [measure]
    reports the failed parse as [null], the error of the schema engine
    where it throws it on -- and the promise of [run] rejects with that
    error unless the outermost [measure] reports it as [null].  For a
    response that fails the output schema, [run] resolves with the empty
    object where [measure] reports the failed parse as [null]; where it
    throws the error on, the outermost [measure] decides as before. *)
Theorem run_validation_outcomes w agent input st :
  (forall e,
     in_parse (inputFormat (config agent)) (readObject st input) = Rejected e ->
     let thrown := if swallows w AtValidateInput then inputValidationFailed else e in
     fst (runBody w agent input st) = Rejected thrown /\
     fst (run w agent input st)
     = (if swallows w AtRun then Resolved None else Rejected thrown)) /\
  (forall response e,
     fst (generatedResponse w agent input st) = Resolved response ->
     outputFormat_parse (config agent) (orElse (nullable response) (VObj [])) = Rejected e ->
     fst (runBody w agent input st)
     = (if swallows w AtValidateOutput then Resolved (VObj []) else Rejected e) /\
     fst (run w agent input st)
     = (if swallows w AtValidateOutput then Resolved (Some (VObj []))
        else if swallows w AtRun then Resolved None else Rejected e)).
Proof.
  split.
  - intros e He thrown.
    assert (Hb : fst (runBody w agent input st) = Rejected thrown).
    { rewrite runBody_outcome. unfold generatedResponse. rewrite He. unfold thrown. simpl.
      destruct (swallows w AtValidateInput); reflexivity. }
    split; [exact Hb|]. rewrite run_outcome, Hb. reflexivity.
  - intros response e Hr He.
    assert (Hb : fst (runBody w agent input st)
                 = (if swallows w AtValidateOutput then Resolved (VObj []) else Rejected e)).
    { rewrite runBody_outcome, Hr. simpl. unfold validateOutput. rewrite He. simpl.
      destruct (swallows w AtValidateOutput); reflexivity. }
    split; [exact Hb|]. rewrite run_outcome, Hb.
    destruct (swallows w AtValidateOutput); reflexivity.
Qed.

Lemma run_validation_outcomes_witness :
  fst (run (sampleWorld swallowsNested) cityAgent 1%nat callerStore)
  = Rejected inputValidationFailed /\
  fst (run (sampleWorld swallowsNested) cityAgent 0%nat callerStore)
  = Resolved (Some (VObj [])).
Proof.
  split.
  - exact (proj2 (proj1 (run_validation_outcomes (sampleWorld swallowsNested) cityAgent
                           1%nat callerStore)
                    (txt "ZodError: city: expected string") ltac:(reflexivity))).
  - exact (proj2 (proj2 (run_validation_outcomes (sampleWorld swallowsNested) cityAgent
                           0%nat callerStore)
                    (Some (VObj [])) (txt "ZodError: answer: required")
                    ltac:(vm_compute; reflexivity) ltac:(reflexivity))).
Defined.

(** C7 as stated does not hold, for any [measure] that treats its
    call sites alike.  One that reports failures as [null] -- what the
    tests [if (!validatedInput)] and [validatedResponse || {}] expect of
    it -- makes [run] resolve with [null] on an invalid input; one that
    throws failures on makes [run] reject on an invalid output. *)
Lemma run_validation_counterexample :
  in_parse (inputFormat (config cityAgent)) (readObject callerStore 1%nat)
  = Rejected (txt "ZodError: city: expected string") /\
  fst (run (sampleWorld swallowing) cityAgent 1%nat callerStore) = Resolved None /\
  fst (run (sampleWorld rethrowing) cityAgent 0%nat callerStore)
  = Rejected (txt "ZodError: answer: required").
Proof. repeat split; vm_compute; reflexivity. Qed.


(** * Further properties of the code *)

(** * More on the codec *)

Lemma sanitize_word name :
  forallb is_word (map (fun c => if is_word c then c else "_") name) = true.
Proof.
  induction name as [|c name IH]; [done|].
  cbn [map forallb]. rewrite IH, andb_true_r.
  destruct (is_word c) eqn:Hc; [exact Hc | reflexivity].
Qed.

Lemma sanitizeTagName_keyOk name :
  nonempty name = true -> keyOk (sanitizeTagName name) = true.
Proof.
  intros Hne. destruct name as [|c name]; [done|].
  pose proof (sanitize_word (c :: name)) as Hw.
  unfold sanitizeTagName. cbn [map] in *.
  set (c' := if is_word c then c else "_") in *.
  destruct (is_letter c') eqn:Hl.
  - cbn [keyOk]. rewrite Hl. cbn [forallb] in Hw.
    apply andb_true_iff in Hw as [_ Hw]. exact Hw.
  - change (txt "tag_" ++ c' :: map (fun c0 => if is_word c0 then c0 else "_") name)
      with ("t" :: "a" :: "g" :: "_" :: c' :: map (fun c0 => if is_word c0 then c0 else "_") name).
    cbn [keyOk forallb]. cbn [forallb] in Hw. rewrite Hw. reflexivity.
Qed.

Lemma wrapTag_shape tag content :
  wrapTag tag content
  = openingTag (sanitizeTagName tag) ++ content ++ closing_tag (sanitizeTagName tag).
Proof.
  unfold wrapTag, openingTag, closing_tag. cbn [app]. f_equal.
  rewrite <- app_assoc. reflexivity.
Qed.

(** X1: [sanitizeTagName] turns any name that is not empty into a tag name
    of the alphabet [[A-Za-z0-9_]] that starts with a letter, and leaves
    such a name as it is: applying it twice is applying it once. *)
Theorem sanitizeTagName_valid name :
  nonempty name = true ->
  keyOk (sanitizeTagName name) = true /\
  sanitizeTagName (sanitizeTagName name) = sanitizeTagName name.
Proof.
  intros Hne. pose proof (sanitizeTagName_keyOk name Hne) as Hk.
  split; [exact Hk | by apply sanitize_keyOk].
Qed.

Lemma sanitizeTagName_valid_witness :
  nonempty (txt "2nd place!") = true /\
  keyOk (sanitizeTagName (txt "2nd place!")) = true /\
  sanitizeTagName (sanitizeTagName (txt "2nd place!")) = sanitizeTagName (txt "2nd place!").
Proof.
  split; [reflexivity|]. apply (sanitizeTagName_valid (txt "2nd place!")). reflexivity.
Defined.

Lemma exec_all_nil : exec_all [] = [].
Proof. reflexivity. Qed.

Lemma drop_while_In p (s : str) x : In x (drop_while p s) -> In x s.
Proof.
  induction s as [|a s IH]; cbn [drop_while]; [done|].
  destruct (p a); [intros H; right; by apply IH | done].
Qed.

Lemma trim_In s x : In x (trim s) -> In x s.
Proof.
  unfold trim, trimEnd, trimStart. intros H.
  apply in_rev in H. apply drop_while_In in H. apply in_rev in H.
  by apply drop_while_In in H.
Qed.

Lemma trim_Forall (P : ascii -> Prop) s : Forall P s -> Forall P (trim s).
Proof.
  rewrite !List.Forall_forall. intros H x Hx. apply H. by apply trim_In.
Qed.

Lemma parseElement_single fuel k inner v :
  keyOk k = true -> Forall (fun c => c <> "<") inner ->
  coerce (trim inner) = v ->
  parseElement fuel (openingTag k ++ inner ++ closing_tag k) = VObj [(k, v)].
Proof.
  intros Hk Hin Hv. rewrite parseElement_eq. cbv zeta.
  assert (Ht : trim (openingTag k ++ inner ++ closing_tag k)
               = openingTag k ++ inner ++ closing_tag k).
  { unfold openingTag, closing_tag.
    replace (("<" :: k ++ [">"]) ++ inner ++ "<" :: "/" :: k ++ [">"])
      with ("<" :: (k ++ ">" :: inner ++ "<" :: "/" :: k) ++ [">"])
      by (cbn [app]; f_equal; repeat rewrite <- app_assoc; cbn [app];
          repeat rewrite <- app_assoc; reflexivity).
    apply trim_tagged. }
  rewrite Ht.
  replace (includes (openingTag k ++ inner ++ closing_tag k) (txt "<")) with true
    by (unfold openingTag; cbn [app]; symmetry; apply includes_tagged).
  cbn [negb].
  replace (openingTag k ++ inner ++ closing_tag k)
    with (openingTag k ++ inner ++ closing_tag k ++ []) by (by rewrite app_nil_r).
  rewrite exec_all_entry; [|exact Hk | by apply skips_text].
  rewrite exec_all_nil. cbn [fold_left fst snd].
  assert (Hl : includes (trim inner) (txt "<") = false).
  { apply includes_no_lt. by apply trim_Forall. }
  rewrite Hl, Hv.
  rewrite obj_set_new; [reflexivity | exact Hk | intros []].
Qed.

(** X2: a value that is not an object, encoded under a parent key (or
    under the default key [value]), decodes to an object with one entry:
    the sanitised key and the value. *)
Theorem keyed_leaf_round_trip v parentKey :
  faithful v = true -> typeof_object v = false ->
  xmlToObj (objToXml v parentKey)
  = VObj [(sanitizeTagName (default (txt "value") (truthy_key parentKey)), v)].
Proof.
  intros Hf Ht.
  destruct (leaf_text v Hf Ht) as (Hlt & Htrim & Hco).
  set (k := default (txt "value") (truthy_key parentKey)).
  assert (Hne : nonempty k = true).
  { unfold k. destruct parentKey as [[|c p]|]; reflexivity. }
  pose proof (sanitizeTagName_keyOk k Hne) as Hk.
  assert (He : objToXml v parentKey = wrapTag k (innerText v)).
  { destruct v; try discriminate Ht; try discriminate Hf; reflexivity. }
  rewrite He, wrapTag_shape. unfold xmlToObj.
  apply parseElement_single; [exact Hk | exact Hlt | by rewrite Htrim].
Qed.

Lemma keyed_leaf_round_trip_witness :
  faithful (VStr (txt "7 days")) = true /\
  xmlToObj (objToXml (VStr (txt "7 days")) (Some (txt "time-left")))
  = VObj [(txt "time_left", VStr (txt "7 days"))].
Proof.
  split; [reflexivity|].
  exact (keyed_leaf_round_trip (VStr (txt "7 days")) (Some (txt "time-left"))
           ltac:(reflexivity) ltac:(reflexivity)).
Defined.

(** ** Arrays *)

Lemma obj_set_item v acc :
  acc = [] \/ (exists a, acc = [(txt "item", a)]) ->
  obj_set (txt "item") v acc = [(txt "item", v)].
Proof. intros [->|[a ->]]; reflexivity. Qed.

Lemma fold_items (dec : str -> JsVal) texts : forall acc,
  acc = [] \/ (exists a, acc = [(txt "item", a)]) ->
  let r := fold_left (fun result m => obj_set (fst m) (dec (snd m)) result)
             (map (fun t => (txt "item", t)) texts) acc in
  r = [] \/ (exists a, r = [(txt "item", a)]).
Proof.
  induction texts as [|t texts IH]; intros acc Hacc; [exact Hacc|].
  cbn [map fold_left fst snd]. apply IH. right.
  exists (dec t). by apply obj_set_item.
Qed.

Lemma exec_all_items items : forall rest,
  Forall (fun v => faithful v = true /\ typeof_object v = false) items ->
  exec_all (concat (map itemText items) ++ rest)
  = map (fun t => (txt "item", t)) (map innerText items) ++ exec_all rest.
Proof.
  induction items as [|v items IH]; intros rest Hall; [reflexivity|].
  inversion Hall as [|? ? [Hf Ht] Hall']; subst.
  cbn [map concat]. unfold itemText at 1. rewrite wrapTag_shape.
  change (sanitizeTagName (txt "item")) with (txt "item").
  rewrite <- !app_assoc.
  rewrite exec_all_entry; [|reflexivity|].
  - cbn [app]. f_equal. by apply IH.
  - apply skips_text. by apply (leaf_text v).
Qed.

Lemma tagged_concat xs : forall x,
  (forall y, In y (xs ++ [x]) -> exists r, y = "<" :: r ++ [">"]) ->
  exists r, concat (xs ++ [x]) = "<" :: r ++ [">"].
Proof.
  induction xs as [|y xs IH]; intros x H.
  - cbn [app concat]. rewrite app_nil_r. apply H. by left.
  - destruct (H y) as [r1 ->]; [by left|].
    destruct (IH x) as [r2 Hr2]; [intros z Hz; apply H; by right|].
    cbn [app concat]. rewrite Hr2.
    exists (r1 ++ ">" :: "<" :: r2). cbn [app]. f_equal.
    rewrite <- !app_assoc. reflexivity.
Qed.

Lemma itemText_tagged v : exists r, itemText v = "<" :: r ++ [">"].
Proof.
  unfold itemText, wrapTag. change (sanitizeTagName (txt "item")) with (txt "item").
  exists (txt "item" ++ ">" :: innerText v ++ "<" :: "/" :: txt "item").
  cbn [app]. f_equal. rewrite <- !app_assoc. cbn [app]. f_equal. f_equal.
  rewrite <- !app_assoc. reflexivity.
Qed.

Lemma skips_itemText name v :
  keyOk name = true -> name <> txt "item" ->
  faithful v = true -> typeof_object v = false ->
  skips (closing_tag name) (itemText v).
Proof.
  intros Hn Hne Hf Ht. unfold itemText. rewrite wrapTag_shape.
  change (sanitizeTagName (txt "item")) with (txt "item").
  apply skips_app; [by apply skips_opening|].
  apply skips_app; [apply skips_text; by apply (leaf_text v)|].
  apply skips_closing; [exact Hn | reflexivity | congruence].
Qed.

Lemma objToXml_array items parentKey :
  Forall (fun v => faithful v = true /\ typeof_object v = false) items ->
  objToXml (VArr items) parentKey
  = wrapTag (default (txt "array") parentKey) (concat (map itemText items)).
Proof.
  intros Hall. cbn [objToXml]. f_equal. f_equal.
  apply map_ext_in. intros v Hv.
  rewrite List.Forall_forall in Hall. destruct (Hall v Hv) as [Hf Ht].
  rewrite Ht. unfold itemText. f_equal. by destruct v.
Qed.

(** X3: the decoder has no array form.  An array of plain leaves, encoded
    under a key, comes back as an object with the single key [item] that
    holds the last element; the elements before it are lost. *)
Theorem array_collapses_to_last_item items lastItem parentKey :
  Forall (fun v => faithful v = true /\ typeof_object v = false) (items ++ [lastItem]) ->
  parentKey <> Some [] ->
  sanitizeTagName (default (txt "array") parentKey) <> txt "item" ->
  xmlToObj (objToXml (VArr (items ++ [lastItem])) parentKey)
  = VObj [(sanitizeTagName (default (txt "array") parentKey),
           VObj [(txt "item", lastItem)])].
Proof.
  intros Hall Hpk Hitem.
  set (k := default (txt "array") parentKey) in *.
  assert (Hne : nonempty k = true).
  { unfold k. destruct parentKey as [[|c p]|]; try reflexivity. congruence. }
  pose proof (sanitizeTagName_keyOk k Hne) as Hk.
  rewrite objToXml_array by exact Hall. fold k.
  set (inner := concat (map itemText (items ++ [lastItem]))).
  assert (Hall' := Hall). rewrite List.Forall_forall in Hall'.
  destruct (Hall' lastItem) as [Hlf Hlt]; [apply in_or_app; right; by left|].
  destruct (leaf_text lastItem Hlf Hlt) as (Hno & Htrim & Hco).
  (* the inner text *)
  assert (Htag : exists r, inner = "<" :: r ++ [">"]).
  { unfold inner. rewrite List.map_app. cbn [map]. apply tagged_concat.
    intros y Hy. apply in_app_or in Hy as [Hy|[<-|[]]].
    - apply in_map_iff in Hy as (v & <- & _). apply itemText_tagged.
    - apply itemText_tagged. }
  destruct Htag as [r Hr].
  assert (Hskip : skips (closing_tag (sanitizeTagName k)) inner).
  { unfold inner. apply skips_concat. apply List.Forall_forall. intros y Hy.
    apply in_map_iff in Hy as (v & <- & Hv). destruct (Hall' v Hv) as [Hf Ht].
    by apply skips_itemText. }
  assert (Hinner : forall f, parseElement f inner = VObj [(txt "item", lastItem)]).
  { intros f. rewrite parseElement_eq. cbv zeta.
    rewrite Hr, trim_tagged, includes_tagged. cbn [negb]. rewrite <- Hr.
    replace inner with (inner ++ []) by apply app_nil_r.
    unfold inner at 1. rewrite exec_all_items by exact Hall.
    rewrite exec_all_nil, app_nil_r, !List.map_app. cbn [map].
    set (dec := fun t : str =>
                  if includes (trim t) (txt "<") then
                    match f with O => VUndef | S f' => parseElement f' t end
                  else coerce (trim t)).
    change (fun (result : list (str * JsVal)) (m : str * str) =>
              obj_set (fst m)
                (if includes (trim (snd m)) (txt "<") then
                   match f with O => VUndef | S f' => parseElement f' (snd m) end
                 else coerce (trim (snd m))) result)
      with (fun (result : list (str * JsVal)) (m : str * str) =>
              obj_set (fst m) (dec (snd m)) result).
    destruct (map (fun t => (txt "item", t)) (map innerText items)
              ++ [(txt "item", innerText lastItem)]) as [|m ms] eqn:E.
    { by destruct (map (fun t => (txt "item", t)) (map innerText items)). }
    rewrite <- E. rewrite fold_left_app. cbn [fold_left fst snd].
    rewrite obj_set_item by (apply fold_items; by left).
    unfold dec. rewrite Htrim, (includes_no_lt _ Hno), Hco. reflexivity. }
  (* the outer element *)
  unfold xmlToObj. rewrite wrapTag_shape.
  destruct (length (openingTag (sanitizeTagName k) ++ inner
                    ++ closing_tag (sanitizeTagName k))) as [|f] eqn:Hlen.
  { unfold openingTag in Hlen. discriminate Hlen. }
  rewrite parseElement_eq. cbv zeta.
  assert (Ht : trim (openingTag (sanitizeTagName k) ++ inner ++ closing_tag (sanitizeTagName k))
               = openingTag (sanitizeTagName k) ++ inner ++ closing_tag (sanitizeTagName k)).
  { unfold openingTag, closing_tag.
    replace (("<" :: sanitizeTagName k ++ [">"]) ++ inner
             ++ "<" :: "/" :: sanitizeTagName k ++ [">"])
      with ("<" :: (sanitizeTagName k ++ ">" :: inner ++ "<" :: "/" :: sanitizeTagName k)
            ++ [">"])
      by (cbn [app]; f_equal; repeat rewrite <- app_assoc; cbn [app];
          repeat rewrite <- app_assoc; reflexivity).
    apply trim_tagged. }
  rewrite Ht.
  replace (includes (openingTag (sanitizeTagName k) ++ inner
                     ++ closing_tag (sanitizeTagName k)) (txt "<")) with true
    by (unfold openingTag; cbn [app]; symmetry; apply includes_tagged).
  cbn [negb].
  replace (openingTag (sanitizeTagName k) ++ inner ++ closing_tag (sanitizeTagName k))
    with (openingTag (sanitizeTagName k) ++ inner ++ closing_tag (sanitizeTagName k) ++ [])
    by (by rewrite app_nil_r).
  rewrite exec_all_entry by assumption.
  rewrite exec_all_nil. cbn [fold_left fst snd].
  rewrite Hr, trim_tagged, includes_tagged, <- Hr, Hinner.
  rewrite obj_set_new; [reflexivity | exact Hk | intros []].
Qed.

Lemma array_collapses_to_last_item_witness :
  xmlToObj (objToXml (VArr [VStr (txt "red"); VStr (txt "green"); VStr (txt "blue")])
              (Some (txt "colors")))
  = VObj [(txt "colors", VObj [(txt "item", VStr (txt "blue"))])].
Proof.
  apply (array_collapses_to_last_item [VStr (txt "red"); VStr (txt "green")]
           (VStr (txt "blue")) (Some (txt "colors"))).
  - repeat constructor.
  - discriminate.
  - discriminate.
Defined.

(** ** The shape of decoded values *)

Lemma replace_entry_Forall (P : str * JsVal -> Prop) k v es :
  Forall P es -> P (k, v) -> Forall P (replace_entry k v es).
Proof.
  intros Hes Hkv. induction Hes as [|[k' v'] es Hx Hes IH]; cbn [replace_entry]; [constructor|].
  destruct (str_eqb k k'); by constructor.
Qed.

Lemma insert_index_Forall (P : str * JsVal -> Prop) k v es :
  Forall P es -> P (k, v) -> Forall P (insert_index k v es).
Proof.
  intros Hes Hkv. induction Hes as [|[k' v'] es Hx Hes IH]; cbn [insert_index].
  - by constructor.
  - destruct (is_array_index k' && (parse_digits k' <? parse_digits k)%N);
      repeat constructor; assumption.
Qed.

Lemma obj_set_Forall (P : str * JsVal -> Prop) k v es :
  Forall P es -> P (k, v) -> Forall P (obj_set k v es).
Proof.
  intros Hes Hkv. unfold obj_set.
  destruct (str_eqb k (txt "__proto__")); [exact Hes|].
  destruct (assoc k es).
  - by apply replace_entry_Forall.
  - destruct (is_array_index k).
    + by apply insert_index_Forall.
    + apply Forall_app. split; [exact Hes | by constructor].
Qed.

Lemma coerce_shape s : decodedShape (coerce s) = true.
Proof.
  unfold coerce.
  destruct (str_eqb s (txt "true") || str_eqb s (txt "false")); [reflexivity|].
  destruct (is_numeric s); reflexivity.
Qed.

Lemma decodedShape_obj es :
  decodedShape (VObj es) = true <-> Forall (fun kv => decodedShape (snd kv) = true) es.
Proof. cbn [decodedShape]. rewrite forallb_forall, List.Forall_forall. reflexivity. Qed.

Lemma fold_obj_set_Forall {M} (P : str * JsVal -> Prop) (key : M -> str) (val : M -> JsVal) ms :
  forall acc,
  Forall P acc -> (forall m, In m ms -> P (key m, val m)) ->
  Forall P (fold_left (fun result m => obj_set (key m) (val m) result) ms acc).
Proof.
  induction ms as [|m ms IH]; intros acc Hacc Hms; [exact Hacc|].
  cbn [fold_left]. apply IH.
  - apply obj_set_Forall; [exact Hacc | apply Hms; by left].
  - intros m' Hm'. apply Hms. by right.
Qed.

Lemma parseElement_shape fuel : forall s,
  (length s <= fuel)%nat -> decodedShape (parseElement fuel s) = true.
Proof.
  induction fuel as [|f IH]; intros s Hlen.
  - destruct s; [reflexivity | cbn [length] in Hlen; lia].
  - rewrite parseElement_eq. cbv zeta.
    destruct (negb (includes (trim s) (txt "<"))); [reflexivity|].
    destruct (exec_all (trim s)) as [|m ms] eqn:E; [reflexivity|].
    apply decodedShape_obj. rewrite <- E.
    apply (fold_obj_set_Forall (fun kv => decodedShape (snd kv) = true) fst
             (fun m => if includes (trim (snd m)) (txt "<") then parseElement f (snd m)
                       else coerce (trim (snd m)))); [constructor|].
    intros m' Hm'. cbn [snd].
    destruct (includes (trim (snd m')) (txt "<")); [|apply coerce_shape].
    apply IH. apply exec_all_from_length in Hm'.
    pose proof (trim_length s). lia.
Qed.

(** X4: whatever the text, [xmlToObj] returns a string, a number, a
    boolean, or an object whose values are again of these kinds: never an
    array, [null] or [undefined], at any depth. *)
Theorem xmlToObj_shape xmlContent : decodedShape (xmlToObj xmlContent) = true.
Proof. unfold xmlToObj. by apply parseElement_shape. Qed.

Lemma assoc_In k es v : assoc k es = Some v -> In v (map snd es).
Proof.
  induction es as [|[k' v'] es IH]; cbn [assoc map snd]; [discriminate|].
  destruct (str_eqb k k'); [intros [= ->]; by left | intros H; right; by apply IH].
Qed.

Lemma get_shape o k :
  decodedShape o = true -> get o k = VUndef \/ decodedShape (get o k) = true.
Proof.
  intros Ho. destruct o; try (by left). cbn [get].
  destruct (assoc k entries) as [v|] eqn:E; [|by left]. right. cbn [default].
  apply decodedShape_obj in Ho. rewrite List.Forall_forall in Ho.
  apply assoc_In, in_map_iff in E as ([k' v'] & <- & Hin). by apply Ho in Hin.
Qed.

Lemma selected_names_single parsed outer inner :
  decodedShape parsed = true ->
  let names := orElse (optGet (get parsed outer) inner) (VArr []) in
  exists n, forall name, nameSelected names name = true -> name = n.
Proof.
  intros Hp names.
  assert (Hn : names = VArr [] \/ decodedShape names = true).
  { unfold names, orElse.
    destruct (truthy (optGet (get parsed outer) inner)) eqn:Ht; [|by left]. right.
    unfold optGet in *. destruct (is_nullish (get parsed outer)); [discriminate Ht|].
    destruct (get_shape parsed outer Hp) as [Hu|Hs].
    - rewrite Hu in Ht. discriminate Ht.
    - destruct (get_shape (get parsed outer) inner Hs) as [Hu|Hs'].
      + rewrite Hu in Ht. discriminate Ht.
      + exact Hs'. }
  destruct Hn as [->|Hs].
  - exists []. intros name H. discriminate H.
  - destruct names; try discriminate Hs; try (exists []; intros name H; discriminate H).
    exists s. intros name H. cbn in H. symmetry. by apply str_eqb_eq.
Qed.

(** X5: a reply can select servers, and tools, of one name at most.  The
    decoder never yields an array, so the names it hands back are compared
    with each declared name as one string. *)
Theorem selection_single_name servers tools c r :
  (exists n, forall s, In s (serversFromReply servers (Some (c :: r))) -> server_name s = n) /\
  (exists n, forall t, In t (toolsFromReply tools (Some (c :: r))) -> tool_name t = n).
Proof.
  assert (Hp : decodedShape (xmlToObj (c :: r)) = true)
    by (unfold xmlToObj; by apply parseElement_shape).
  split.
  - destruct (selected_names_single (xmlToObj (c :: r)) (txt "relevant_servers")
                (txt "server_names") Hp) as [n Hn].
    exists n. intros s Hs. cbn [serversFromReply] in Hs.
    apply filter_In in Hs as [_ Hs]. by apply Hn.
  - destruct (selected_names_single (xmlToObj (c :: r)) (txt "selected_tools")
                (txt "tool_names") Hp) as [n Hn].
    exists n. intros t Ht. cbn [toolsFromReply] in Ht.
    apply filter_In in Ht as [_ Ht]. by apply Hn.
Qed.

(** ** Entries without a value *)






(** * More on the payment-retry wrapper *)

Lemma payFor_traces swallows net w res :
  match payFor swallows net w res with
  | (Resolved _, evs) => evs = [TransactionSent; TransactionConfirmed]
  | (Rejected _, evs) =>
      evs = [] \/ evs = [TransactionSent] \/ evs = [TransactionSent; TransactionConfirmed]
  end.
Proof.
  unfold payFor.
  destruct (bodyJson res) as [info|]; [|by left].
  destruct (is_nullish info); [by left|].
  destruct (decodeKeys net _ _); [|by left].
  destruct (measure swallows AtSendTransaction _); [|right; by left].
  destruct (measure swallows AtConfirmTransaction _); [reflexivity | right; by right].
Qed.

Lemma fetchLoop_eq swallows net wallet budget attempt :
  fetchLoop swallows net wallet (S budget) attempt =
  match measure swallows AtFetch (fetch net attempt) with
  | Rejected e => (Rejected e, [Requested])
  | Resolved None => (Rejected nullAccessError, [Requested])
  | Resolved (Some res) =>
      if res_ok res then (Resolved res, [Requested])
      else
        match wallet with
        | Some w =>
            if negb (status res =? 402)%N
            then (Rejected (requestFailed res), [Requested])
            else
              match payFor swallows net w res with
              | (Rejected e, evs) => (Rejected e, Requested :: evs)
              | (Resolved _, evs) =>
                  let '(r, evs') := fetchLoop swallows net wallet budget (S attempt) in
                  (r, Requested :: evs ++ evs')
              end
        | None => (Rejected (requestFailed res), [Requested])
        end
  end.
Proof. reflexivity. Qed.

Lemma fetchLoop_last_trace swallows net wallet attempt :
  snd (fetchLoop swallows net wallet 0 attempt) = [Requested].
Proof.
  cbn [fetchLoop].
  destruct (measure swallows AtFetch (fetch net attempt)) as [[res|]|]; try reflexivity.
  destruct (res_ok res); reflexivity.
Qed.

(** X7: what a call of [fetchWithPayment] does to the world is one of four
    things: one request; one request and a transfer that is not accepted;
    one request and a transfer that is sent and waited for; or these
    followed by the second request.  So a call pays at most once, pays only
    after a request, asks a second time only after a payment was sent and
    waited for; and without a wallet, or when the first reply is not a 402,
    it makes the one request and nothing else. *)
Theorem fetchWithPayment_traces swallows net wallet :
  let evs := snd (fetchWithPayment swallows net wallet) in
  In evs fetchTraces /\
  (wallet = None -> evs = [Requested]) /\
  (forall res, fetch net 0 = Resolved res -> status res <> 402%N -> evs = [Requested]).
Proof.
  cbv zeta. unfold fetchWithPayment, maxRetries. rewrite fetchLoop_eq.
  destruct (fetch net 0) as [res|e] eqn:Hfetch; cbn [measure].
  2:{ destruct (swallows AtFetch); (split; [by left|]); split; try done;
      intros res [=]. }
  destruct (res_ok res) eqn:Hok.
  { split; [by left|]. split; [done|]. done. }
  destruct wallet as [w|].
  2:{ split; [by left|]. split; done. }
  destruct (status res =? 402)%N eqn:H402; cbn [negb].
  2:{ split; [by left|]. split; [done|]. done. }
  apply N.eqb_eq in H402.
  pose proof (payFor_traces swallows net w res) as Hp.
  destruct (payFor swallows net w res) as [[[]|e] evs].
  - subst evs.
    pose proof (fetchLoop_last_trace swallows net (Some w) 1) as Hl.
    destruct (fetchLoop swallows net (Some w) 0 1) as [r evs']. cbn [snd] in *. subst evs'.
    split; [right; right; right; by left|].
    split; [discriminate|]. intros res' Hres Hne. injection Hres as <-. done.
  - cbn [snd]. split.
    + destruct Hp as [-> | [-> | ->]]; [by left | right; by left | right; right; by left].
    + split; [discriminate|]. intros res' Hres Hne. injection Hres as <-. done.
Qed.

Lemma fetchLoop_last_ok swallows net wallet attempt res :
  fst (fetchLoop swallows net wallet 0 attempt) = Resolved res ->
  res_ok res = true /\ fetch net attempt = Resolved res.
Proof.
  cbn [fetchLoop].
  destruct (fetch net attempt) as [res'|e]; cbn [measure].
  - destruct (res_ok res') eqn:Hok; cbn [fst].
    + intros [= <-]. done.
    + destruct wallet; discriminate.
  - destruct (swallows AtFetch); discriminate.
Qed.

(** X8: when [fetchWithPayment] resolves, it resolves to a response whose
    status is in the range 200-299, and that response is the endpoint's
    answer to the first request or to the second one; a reply with any
    other status is never handed to the caller. *)
Theorem fetchWithPayment_resolves_ok swallows net wallet res :
  fst (fetchWithPayment swallows net wallet) = Resolved res ->
  res_ok res = true /\ (fetch net 0 = Resolved res \/ fetch net 1 = Resolved res).
Proof.
  unfold fetchWithPayment, maxRetries. rewrite fetchLoop_eq.
  destruct (fetch net 0) as [res0|e] eqn:Hfetch; cbn [measure].
  2:{ destruct (swallows AtFetch); discriminate. }
  destruct (res_ok res0) eqn:Hok.
  { cbn [fst]. intros [= <-]. split; [done | by left]. }
  destruct wallet as [w|]; [|discriminate].
  destruct (negb (status res0 =? 402)%N); [discriminate|].
  destruct (payFor swallows net w res0) as [[[]|e] evs]; [|discriminate].
  pose proof (fetchLoop_last_ok swallows net (Some w) 1 res) as Hl.
  destruct (fetchLoop swallows net (Some w) 0 1) as [r evs']. cbn [fst] in *.
  intros Hr. destruct (Hl Hr) as [H1 H2]. split; [done | by right].
Qed.

Lemma fetchWithPayment_resolves_ok_witness :
  fst (fetchWithPayment rethrowing paidThenOk (Some someWallet))
  = Resolved (mkResponse 200 (txt "[]") (Some (VArr []))) /\
  snd (fetchWithPayment rethrowing paidThenOk (Some someWallet))
  = [Requested; TransactionSent; TransactionConfirmed; Requested] /\
  res_ok (mkResponse 200 (txt "[]") (Some (VArr []))) = true.
Proof.
  split; [reflexivity|]. split; [reflexivity|].
  apply (fetchWithPayment_resolves_ok rethrowing paidThenOk (Some someWallet)).
  reflexivity.
Defined.

(** * More on the streaming demultiplexer *)

(** X9: the updates a stream gives rise to depend on its text only, not
    on the places where the transport cut it into chunks. *)
Theorem streaming_chunking_irrelevant chunks1 chunks2 :
  concat chunks1 = concat chunks2 -> streamUpdates chunks1 = streamUpdates chunks2.
Proof. intros H. rewrite !streamUpdates_chars. by rewrite H. Qed.

Lemma streaming_chunking_irrelevant_witness :
  concat [txt "<a>hel"; txt "lo wor"; txt "ld</a>"] = concat [txt "<a>hello world</a>"] /\
  streamUpdates [txt "<a>hel"; txt "lo wor"; txt "ld</a>"]
  = streamUpdates [txt "<a>hello world</a>"].
Proof.
  split; [reflexivity|].
  apply (streaming_chunking_irrelevant [txt "<a>hel"; txt "lo wor"; txt "ld</a>"]
           [txt "<a>hello world</a>"]).
  reflexivity.
Defined.

Lemma processChar_fullResponse st c : fullResponse (fst (processChar st c)) = fullResponse st.
Proof.
  unfold processChar.
  repeat match goal with |- context [if ?b then _ else _] => destruct b end; reflexivity.
Qed.

Lemma processChars_fullResponse s : forall st,
  fullResponse (fst (processChars st s)) = fullResponse st.
Proof.
  induction s as [|c s IH]; intros st; [reflexivity|]. cbn [processChars].
  pose proof (processChar_fullResponse st c) as H1.
  destruct (processChar st c) as [st1 out1]. specialize (IH st1).
  destruct (processChars st1 s) as [st2 out2]. cbn [fst] in *. congruence.
Qed.

(** X10: the text [callLLM] returns in streaming mode is the text of the
    deltas, one after the other, whatever markup they hold: the
    demultiplexer appends each chunk to [fullResponse] and changes it
    nowhere else. *)
Theorem streaming_full_response chunks : forall st,
  fullResponse (fst (processStream st chunks)) = fullResponse st ++ concat chunks.
Proof.
  induction chunks as [|chunk chunks IH]; intros st.
  - cbn [processStream fst concat]. by rewrite app_nil_r.
  - cbn [processStream concat]. unfold processChunk.
    pose proof (processChars_fullResponse chunk
                  (mkDemux (fullResponse st ++ chunk) (tagStack st) (currentTagName st)
                     (wordBuffer st) (insideTag st))) as H1.
    destruct (processChars _ chunk) as [st1 out1]. specialize (IH st1).
    destruct (processStream st1 chunks) as [st2 out2]. cbn [fst fullResponse] in *.
    rewrite IH, H1. by rewrite app_assoc.
Qed.









(** * Own properties under assignment *)

Lemma str_eqb_refl a : str_eqb a a = true.
Proof. by apply str_eqb_eq. Qed.

Lemma str_eqb_sym a b : str_eqb a b = str_eqb b a.
Proof.
  destruct (str_eqb a b) eqn:E.
  - apply str_eqb_eq in E. subst. symmetry. apply str_eqb_refl.
  - symmetry. apply str_eqb_neq. apply str_eqb_neq in E. congruence.
Qed.

Lemma assoc_replace_entry_other k k' v es :
  k <> k' -> assoc k (replace_entry k' v es) = assoc k es.
Proof.
  intros Hne. induction es as [|[k2 v2] es IH]; [reflexivity|]. cbn [replace_entry].
  destruct (str_eqb k' k2) eqn:E.
  - apply str_eqb_eq in E. subst k2. cbn [assoc].
    by rewrite (proj2 (str_eqb_neq k k') Hne).
  - cbn [assoc]. by rewrite IH.
Qed.

Lemma assoc_insert_index_other k k' v es :
  k <> k' -> assoc k (insert_index k' v es) = assoc k es.
Proof.
  intros Hne. induction es as [|[k2 v2] es IH]; cbn [insert_index assoc].
  - by rewrite (proj2 (str_eqb_neq k k') Hne).
  - destruct (is_array_index k2 && (parse_digits k2 <? parse_digits k')%N); cbn [assoc].
    + by rewrite IH.
    + by rewrite (proj2 (str_eqb_neq k k') Hne).
Qed.

Lemma assoc_app k es es' :
  assoc k (es ++ es') = match assoc k es with Some v => Some v | None => assoc k es' end.
Proof.
  induction es as [|[k2 v2] es IH]; [reflexivity|]. cbn [app assoc].
  destruct (str_eqb k k2); [reflexivity | exact IH].
Qed.

(** An assignment to one key leaves the other keys as they were. *)
Lemma assoc_obj_set_other k k' v es :
  k <> k' -> assoc k (obj_set k' v es) = assoc k es.
Proof.
  intros Hne. unfold obj_set.
  destruct (str_eqb k' (txt "__proto__")); [reflexivity|].
  destruct (assoc k' es).
  - by apply assoc_replace_entry_other.
  - destruct (is_array_index k').
    + by apply assoc_insert_index_other.
    + rewrite assoc_app. cbn [assoc]. rewrite (proj2 (str_eqb_neq k k') Hne).
      by destruct (assoc k es).
Qed.

Lemma assoc_replace_entry_same k v es :
  is_Some (assoc k es) -> assoc k (replace_entry k v es) = Some v.
Proof.
  induction es as [|[k2 v2] es IH]; cbn [assoc replace_entry].
  - intros [? [=]].
  - destruct (str_eqb k k2) eqn:E; cbn [assoc].
    + by rewrite str_eqb_refl.
    + rewrite E. exact IH.
Qed.

(** An assignment removes no key. *)
Lemma assoc_obj_set_is_Some k k' v es :
  is_Some (assoc k es) -> is_Some (assoc k (obj_set k' v es)).
Proof.
  intros Hk. destruct (str_eqb k k') eqn:E.
  - apply str_eqb_eq in E. subst k'. unfold obj_set.
    destruct (str_eqb k (txt "__proto__")); [exact Hk|].
    destruct (assoc k es) eqn:Ha; [|by destruct Hk].
    rewrite assoc_replace_entry_same; [by eexists | by rewrite Ha].
  - apply str_eqb_neq in E. by rewrite assoc_obj_set_other.
Qed.

(** * Input-field resolution *)

Lemma resolveField_marked w key description input v :
  resolveField w key description input = Resolved (Some v) -> marked description = true.
Proof.
  unfold resolveField, marked.
  destruct description as [desc|]; [|discriminate].
  destruct (mcpUrl desc); [reflexivity | discriminate].
Qed.

Lemma readObject_writeField st l key v :
  readObject (writeField st l key v) l = obj_set key v (readObject st l).
Proof. unfold writeField, readObject at 1. by rewrite lookup_insert_eq. Qed.

(** X12: input-field resolution writes to the fields it is asked to
    resolve and to nothing else.  A key that no marked field of the input
    shape carries reads the same after the loop as before it, also when
    the loop is cut short by an error; and the objects at other addresses
    are left as they were. *)
Theorem resolution_writes_marked_fields_only w fields input k : forall st,
  (forall description, In (k, description) fields -> marked description = false) ->
  assoc k (readObject (snd (resolveFields w fields input st)) input)
  = assoc k (readObject st input) /\
  (forall l, l <> input -> snd (resolveFields w fields input st) !! l = st !! l).
Proof.
  induction fields as [|[key description] fields IH]; intros st Hk; [done|].
  cbn [resolveFields].
  assert (Hk' : forall d, In (k, d) fields -> marked d = false)
    by (intros d Hd; apply Hk; by right).
  destruct (resolveField w key description (VObj (readObject st input)))
    as [[result|]|e] eqn:Hres.
  - destruct (IH (writeField st input key result) Hk') as [H1 H2].
    split.
    + rewrite H1, readObject_writeField. apply assoc_obj_set_other.
      intros ->. apply resolveField_marked in Hres.
      rewrite (Hk description) in Hres; [discriminate | by left].
    + intros l Hl. rewrite (H2 l Hl). unfold writeField. by apply lookup_insert_ne.
  - by apply IH.
  - done.
Qed.

Lemma resolution_writes_marked_fields_only_witness :
  assoc (txt "note")
    (readObject
       (snd (resolveFields (sampleWorld rethrowing)
               [(txt "city", Some (txt "mcp: http://tools.example")); (txt "note", None)]
               0%nat (<[0%nat := [(txt "city", VStr (txt "?")); (txt "note", VStr (txt "n"))]]> ∅)))
       0%nat)
  = Some (VStr (txt "n")).
Proof.
  refine (proj1 (resolution_writes_marked_fields_only (sampleWorld rethrowing)
           [(txt "city", Some (txt "mcp: http://tools.example")); (txt "note", None)]
           0%nat (txt "note")
           (<[0%nat := [(txt "city", VStr (txt "?")); (txt "note", VStr (txt "n"))]]> ∅) _)).
  intros description [H|[H|[]]]; [discriminate H | by injection H as <-].
Defined.

(** * Tool results *)

Lemma executeTool_cases w input server tool toolResults :
  executeTool w input server tool toolResults = toolResults \/
  exists v, executeTool w input server tool toolResults
            = obj_set (resultKey server (tool_name tool)) v toolResults.
Proof.
  unfold executeTool, resultKey.
  destruct (flatten (measure (swallows w) AtGenerateParameters
                       (generateToolParameters w input tool))) as [parameters|e];
    cbn [bind measure].
  - destruct (invokeTool w server (tool_name tool) (nullable parameters)) as [result|e];
      cbn [bind measure].
    + right. by eexists.
    + left. by destruct (swallows w AtExecuteTool).
  - left. by destruct (swallows w AtExecuteTool).
Qed.

Lemma executeTool_keeps w input server tool toolResults k :
  (is_Some (assoc k toolResults) ->
   is_Some (assoc k (executeTool w input server tool toolResults))) /\
  (k <> resultKey server (tool_name tool) ->
   assoc k (executeTool w input server tool toolResults) = assoc k toolResults).
Proof.
  destruct (executeTool_cases w input server tool toolResults) as [->|[v ->]]; [done|].
  split; [apply assoc_obj_set_is_Some | apply assoc_obj_set_other].
Qed.

Lemma executeTools_keep w input server tools k : forall toolResults,
  let after := fold_left (fun tr tool => executeTool w input server tool tr)
                 tools toolResults in
  (is_Some (assoc k toolResults) -> is_Some (assoc k after)) /\
  ((forall t, k <> resultKey server t) -> assoc k after = assoc k toolResults).
Proof.
  induction tools as [|tool tools IH]; intros tr; [done|]. cbn [fold_left].
  destruct (executeTool_keeps w input server tool tr k) as [H1 H2].
  destruct (IH (executeTool w input server tool tr)) as [H3 H4].
  split; [by auto|]. intros Hk. rewrite H4, H2; done.
Qed.

(** X13: the loop that discovers and invokes tools only ever adds to
    [toolResults].  An entry that is there stays there, whatever fails
    later; and the only keys written are of the form [server.tool] for a
    server of the list the loop runs over. *)
Theorem tool_results_only_grow w input relevantServers k : forall toolResults,
  let after := snd (discoverAndInvoke w input relevantServers toolResults) in
  (is_Some (assoc k toolResults) -> is_Some (assoc k after)) /\
  ((forall server t, In server relevantServers -> k <> resultKey server t) ->
   assoc k after = assoc k toolResults).
Proof.
  induction relevantServers as [|server rest IH]; intros tr; [done|].
  cbn [discoverAndInvoke].
  destruct (notNull (discoverTools w server)) as [tools|e]; [|done].
  destruct (nonempty tools).
  - destruct (notNull (flatten (measure (swallows w) AtSelectTools
                                 (selectRelevantTools w input tools server))))
      as [relevantTools|e]; [|done].
    destruct (executeTools_keep w input server relevantTools k tr) as [H1 H2].
    destruct (IH (fold_left (fun tr0 tool => executeTool w input server tool tr0)
                    relevantTools tr)) as [H3 H4].
    split; [by auto|]. intros Hk. rewrite H4, H2.
    + done.
    + intros t. apply Hk. by left.
    + intros s t Hs. apply Hk. by right.
  - destruct (IH tr) as [H3 H4]. split; [done|].
    intros Hk. apply H4. intros s t Hs. apply Hk. by right.
Qed.

Lemma tool_results_only_grow_witness :
  is_Some (assoc (txt "earlier.tool") [(txt "earlier.tool", VNum 1)]) /\
  is_Some (assoc (txt "earlier.tool")
             (snd (discoverAndInvoke toolWorld sampleInput twoServers
                     [(txt "earlier.tool", VNum 1)]))) /\
  snd (discoverAndInvoke toolWorld sampleInput twoServers [(txt "earlier.tool", VNum 1)])
  = [(txt "earlier.tool", VNum 1); (txt "weather.lookup", VStr (txt "Paris"));
     (txt "news.lookup", VStr (txt "Paris"))].
Proof.
  split; [by eexists|]. split; [|reflexivity].
  apply (proj1 (tool_results_only_grow toolWorld sampleInput twoServers (txt "earlier.tool")
                  [(txt "earlier.tool", VNum 1)])).
  by eexists.
Defined.

(** * Runs that need no tool endpoint *)

Lemma resolveFields_unmarked w fields input st :
  Forall (fun kd => marked (snd kd) = false) fields ->
  resolveFields w fields input st = (Resolved tt, st).
Proof.
  induction 1 as [|[key description] fields Hm _ IH]; [reflexivity|].
  cbn [resolveFields]. cbn [snd] in Hm.
  assert (Hr : forall v, resolveField w key description v = Resolved None).
  { intros v. unfold resolveField, marked in *. destruct description as [desc|]; [|reflexivity].
    destruct (mcpUrl desc); [discriminate | reflexivity]. }
  rewrite Hr. exact IH.
Qed.

(** X14: an agent with no server declared, and with no input field marked
    for resolution, never turns to a tool endpoint: its run is the same
    whatever the endpoints would have answered. *)
Theorem run_without_servers_needs_no_endpoint w agent input st httpTools' httpCall' :
  servers (config agent) = None \/ servers (config agent) = Some [] ->
  Forall (fun kd => marked (snd kd) = false) (in_shape (inputFormat (config agent))) ->
  run (mkWorld (swallows w) (callLLM w) httpTools' httpCall') agent input st
  = run w agent input st.
Proof.
  intros Hservers Hfields.
  unfold run, runBody, generatedResponse, resolveMCPInputFields.
  cbn [swallows].
  destruct (measure (swallows w) AtValidateInput _) as [[parsed|]|e]; try reflexivity.
  destruct (allocObject st parsed) as [validatedInput st1].
  rewrite !resolveFields_unmarked by exact Hfields.
  cbn [measure].
  unfold afterResolution. destruct Hservers as [-> | ->]; reflexivity.
Qed.

Lemma run_without_servers_needs_no_endpoint_witness :
  run (mkWorld (swallows toolWorld) (callLLM toolWorld)
         (fun _ => Rejected (txt "no route")) (fun _ _ _ => Rejected (txt "no route")))
      (mkAgent reportConfig) 0%nat callerStore
  = run toolWorld (mkAgent reportConfig) 0%nat callerStore.
Proof.
  apply (run_without_servers_needs_no_endpoint toolWorld (mkAgent reportConfig)
           0%nat callerStore).
  - by left.
  - repeat constructor.
Defined.

(** * Response generation: the fields of the result *)

Lemma extract_fold_declared (keys : list str) (val : str * ZodType -> JsVal -> JsVal)
    (source : JsVal) shape : forall acc,
  Forall (fun kv : str * JsVal => In (fst kv) keys) acc ->
  (forall kf, In kf shape -> In (fst kf) keys) ->
  Forall (fun kv : str * JsVal => In (fst kv) keys)
    (fold_left (fun result kf =>
        match get source (fst kf) with
        | VUndef => result
        | v => obj_set (fst kf) (val kf v) result
        end) shape acc).
Proof.
  induction shape as [|kf shape IH]; intros acc Hacc Hshape; [exact Hacc|].
  cbn [fold_left]. apply IH; [|intros kf' H; apply Hshape; by right].
  assert (Hk : In (fst kf) keys) by (apply Hshape; by left).
  destruct (get source (fst kf)); try exact Hacc; by apply obj_set_Forall.
Qed.

Lemma extractFields_declared shape response parsed :
  exists es, extractFields shape response parsed = VObj es /\
             Forall (fun kv => In (fst kv) (map fst shape)) es.
Proof.
  unfold extractFields. eexists. split; [reflexivity|].
  apply (extract_fold_declared (map fst shape)
           (fun kf v =>
              if isZodString (snd kf) && typeof_object v && negb (is_nullish v) then
                match searchField ("<" :: fst kf ++ [">"]) (closing_tag (fst kf)) response with
                | Some raw => VStr raw
                | None => v
                end
              else v)); [constructor|].
  intros kf H. by apply in_map.
Qed.

(** X15: the object [generateResponse] resolves to has no key but those
    the output schema declares, whatever the model replied. *)
Theorem generateResponse_declared_fields w cfg input toolResults v :
  generateResponse w cfg input toolResults = Resolved v ->
  exists es, v = VObj es /\ Forall (fun kv => In (fst kv) (map fst (outputFormat cfg))) es.
Proof.
  unfold generateResponse.
  destruct (flatten _) as [response|e]; [|discriminate]. cbn [bind].
  assert (Hempty : exists es, VObj [] = VObj es /\
            Forall (fun kv => In (fst kv) (map fst (outputFormat cfg))) es)
    by (exists []; split; [reflexivity | constructor]).
  destruct response as [[|c r]|]; try (intros [= <-]; exact Hempty).
  cbn [measure bind nullable default from_option id].
  destruct (truthy (xmlToObj (c :: r))); intros [= <-]; [|exact Hempty].
  apply extractFields_declared.
Qed.

Lemma generateResponse_declared_fields_witness :
  generateResponse toolWorld (cfg_with [(txt "sure", ZodBoolean)]) sampleInput []
  = Resolved (VObj [(txt "sure", VBool true)]) /\
  exists es, VObj [(txt "sure", VBool true)] = VObj es /\
             Forall (fun kv => In (fst kv) [txt "sure"]) es.
Proof.
  assert (H : generateResponse toolWorld (cfg_with [(txt "sure", ZodBoolean)]) sampleInput []
              = Resolved (VObj [(txt "sure", VBool true)])) by (vm_compute; reflexivity).
  split; [exact H|].
  exact (generateResponse_declared_fields toolWorld (cfg_with [(txt "sure", ZodBoolean)])
           sampleInput [] _ H).
Defined.

Lemma assoc_distinct k v es :
  distinct (map fst es) = true -> In (k, v) es -> assoc k es = Some v.
Proof.
  induction es as [|[k' v'] es IH]; intros Hd Hin; [destruct Hin|].
  cbn [map fst] in Hd. apply distinct_cons in Hd as [Hni Hd].
  cbn [assoc]. destruct Hin as [[= -> ->]|Hin].
  - by rewrite str_eqb_refl.
  - destruct (str_eqb k k') eqn:E; [|by apply IH].
    apply str_eqb_eq in E. subst k'. exfalso. apply Hni.
    apply in_map_iff. by exists (k, v).
Qed.

Lemma extract_fold_faithful source response shape es' :
  Forall2 (fun (kf : str * ZodType) (kv : str * JsVal) =>
             fst kf = fst kv /\
             (isZodString (snd kf) = true -> typeof_object (snd kv) = false)) shape es' ->
  forall acc,
  (forall kv, In kv es' ->
     get source (fst kv) = snd kv /\ faithful (snd kv) = true /\ keyOk (fst kv) = true) ->
  distinct (map fst es') = true ->
  (forall kv, In kv es' -> ~ In (fst kv) (map fst acc)) ->
  fold_left (fun result kf =>
      match get source (fst kf) with
      | VUndef => result
      | v =>
          let v' :=
            if isZodString (snd kf) && typeof_object v && negb (is_nullish v) then
              match searchField ("<" :: fst kf ++ [">"]) (closing_tag (fst kf)) response with
              | Some raw => VStr raw
              | None => v
              end
            else v in
          obj_set (fst kf) v' result
      end) shape acc
  = acc ++ es'.
Proof.
  induction 1 as [|kf kv shape es' [Hkey Hstr] _ IH]; intros acc Hes Hd Hacc.
  - cbn [fold_left]. by rewrite app_nil_r.
  - cbn [fold_left]. destruct (Hes kv) as (Hget & Hf & Hk); [by left|].
    cbn [map] in Hd. apply distinct_cons in Hd as [Hni Hd].
    match goal with |- fold_left _ _ ?a = _ => assert (Hstep : a = acc ++ [kv]) end.
    { rewrite Hkey, Hget. destruct kv as [k v]. cbn [fst snd] in *.
      assert (Hnew : obj_set k v acc = acc ++ [(k, v)]).
      { apply obj_set_new; [exact Hk|]. apply (Hacc (k, v)). by left. }
      destruct v; try discriminate Hf; cbv zeta; cbn [typeof_object is_nullish negb];
        rewrite ?andb_false_r; try exact Hnew.
      destruct (isZodString (snd kf)); [|exact Hnew]. by specialize (Hstr eq_refl). }
    rewrite Hstep, IH.
    + by rewrite <- app_assoc.
    + intros kv' H. apply Hes. by right.
    + exact Hd.
    + intros kv' H. rewrite List.map_app. cbn [map]. intros Hin.
      apply in_app_or in Hin as [Hin|[Hin|[]]].
      * apply (Hacc kv'); [by right | exact Hin].
      * apply Hni. rewrite Hin. by apply in_map.
Qed.

(** X16: when the model answers with the text of a tree the codec takes
    there and back, whose keys are the keys of the output schema in their
    order, [generateResponse] resolves to that tree, field by field.  (A
    string field must not hold an object, and the tree must not be one
    object under one key: the first is read again as raw text, the second
    is taken for a root element and looked through.) *)
Theorem generateResponse_round_trip w cfg input toolResults es :
  faithful (VObj es) = true ->
  Forall2 (fun (kf : str * ZodType) (kv : str * JsVal) =>
             fst kf = fst kv /\
             (isZodString (snd kf) = true -> typeof_object (snd kv) = false))
          (outputFormat cfg) es ->
  (forall kv, es = [kv] -> typeof_object (snd kv) = false) ->
  callLLM w (GenerateResponse (systemPrompt cfg))
    (requestMessage (userPrompt input (getOutputFormatDescription (outputFormat cfg))
                       (taskDescription cfg) toolResults))
  = Resolved (Some (objToXml (VObj es) None)) ->
  generateResponse w cfg input toolResults = Resolved (VObj es).
Proof.
  intros Hf Hshape Hroot Hreply.
  assert (Hparse : xmlToObj (objToXml (VObj es) None) = VObj es).
  { rewrite objToXml_faithful by exact Hf. unfold xmlToObj.
    apply parseElement_faithful; [exact Hf | reflexivity | by apply height_le_length]. }
  destruct (innerText_obj_shape es Hf) as [r Hr].
  rewrite <- objToXml_faithful in Hr by exact Hf.
  unfold generateResponse. rewrite Hreply.
  cbn [measure flatten bind]. rewrite Hr at 1.
  cbn [measure bind nullable default from_option id]. rewrite Hparse.
  cbn [truthy]. f_equal.
  apply faithful_obj in Hf as (Hne & Hd & Hall).
  unfold extractFields.
  assert (Hsrc : sourceObject (VObj es) = VObj es).
  { destruct es as [|[k v] [|kv' es']]; try reflexivity.
    cbn [sourceObject].
    specialize (Hroot (k, v) eq_refl). cbn [snd] in Hroot.
    by rewrite Hroot, andb_false_r. }
  rewrite Hsrc. f_equal.
  rewrite (extract_fold_faithful (VObj es) (objToXml (VObj es) None) (outputFormat cfg) es);
    [reflexivity | exact Hshape | | exact Hd | intros kv _ []].
  intros [k v] Hin. rewrite List.Forall_forall in Hall.
  destruct (Hall _ Hin) as (Hk & _ & Hfv). cbn [fst snd] in *.
  split; [|by split]. cbn [get]. by rewrite (assoc_distinct k v es Hd Hin).
Qed.

Lemma generateResponse_round_trip_witness :
  faithful (VObj [(txt "answer", VStr (txt "Paris")); (txt "sure", VBool true)]) = true /\
  generateResponse toolWorld reportConfig sampleInput []
  = Resolved (VObj [(txt "answer", VStr (txt "Paris")); (txt "sure", VBool true)]).
Proof.
  split; [reflexivity|].
  apply (generateResponse_round_trip toolWorld reportConfig sampleInput []
           [(txt "answer", VStr (txt "Paris")); (txt "sure", VBool true)]).
  - reflexivity.
  - repeat constructor.
  - intros kv H. discriminate H.
  - reflexivity.
Defined.

(** * The address in a field description *)

Lemma take_drop_while p (s : str) : take_while p s ++ drop_while p s = s.
Proof.
  induction s as [|c s IH]; [reflexivity|]. cbn [take_while drop_while].
  destruct (p c); [cbn [app]; by f_equal | reflexivity].
Qed.

Lemma take_while_forallb p (s : str) : forallb p (take_while p s) = true.
Proof.
  induction s as [|c s IH]; [reflexivity|]. cbn [take_while].
  destruct (p c) eqn:E; [|reflexivity]. cbn [forallb]. by rewrite E.
Qed.

(** X17: the address [resolveMCPInputFields] takes from a description is a
    piece of that description: it follows the prefix [mcp:] and white
    space, starts with [http://] or [https://], goes on for at least one
    more character, and holds no white space. *)
Theorem mcpUrl_wellformed desc url :
  mcpUrl desc = Some url ->
  (exists gap host rest,
     desc = txt "mcp:" ++ gap ++ url ++ rest /\
     forallb is_js_space gap = true /\
     (url = txt "http://" ++ host \/ url = txt "https://" ++ host) /\
     nonempty host = true) /\
  forallb (fun c => negb (is_js_space c)) url = true.
Proof.
  unfold mcpUrl.
  destruct (startsWith desc (txt "mcp:")) eqn:Hm; [|discriminate].
  apply startsWith_spec in Hm as [d ->].
  replace (drop 4 (txt "mcp:" ++ d)) with d by reflexivity.
  pose proof (take_drop_while is_js_space d) as Hd.
  pose proof (take_while_forallb is_js_space d) as Hgap.
  set (gap := take_while is_js_space d) in *.
  set (r := drop_while is_js_space d) in *.
  assert (Hmain : forall sc,
    forallb (fun c => negb (is_js_space c)) sc = true ->
    startsWith r sc = true ->
    forall host, host = take_while (fun c => negb (is_js_space c)) (drop (length sc) r) ->
    nonempty host = true ->
    (exists rest, txt "mcp:" ++ d = txt "mcp:" ++ gap ++ (sc ++ host) ++ rest) /\
    forallb (fun c => negb (is_js_space c)) (sc ++ host) = true).
  { intros sc Hsc Hs host Hhost Hne. apply startsWith_spec in Hs as [r' Hr'].
    rewrite Hr', drop_app_length in Hhost. split.
    - exists (drop_while (fun c => negb (is_js_space c)) r').
      f_equal. rewrite <- Hd, Hr'. f_equal. rewrite <- app_assoc. f_equal.
      subst host. symmetry. apply take_drop_while.
    - rewrite forallb_app, Hsc. subst host. apply take_while_forallb. }
  destruct (startsWith r (txt "https://")) eqn:Hs.
  - set (host := take_while _ _).
    destruct (nonempty host) eqn:Hne; [|discriminate]. intros [= <-].
    destruct (Hmain (txt "https://") eq_refl Hs host eq_refl Hne) as [[rest Hrest] Hns].
    split; [|exact Hns]. exists gap, host, rest. repeat split; try done. by right.
  - destruct (startsWith r (txt "http://")) eqn:Hs'; [|discriminate].
    set (host := take_while _ _).
    destruct (nonempty host) eqn:Hne; [|discriminate]. intros [= <-].
    destruct (Hmain (txt "http://") eq_refl Hs' host eq_refl Hne) as [[rest Hrest] Hns].
    split; [|exact Hns]. exists gap, host, rest. repeat split; try done. by left.
Qed.

Lemma mcpUrl_wellformed_witness :
  mcpUrl (txt "mcp:  https://tools.example/geo (resolves the city)")
  = Some (txt "https://tools.example/geo") /\
  forallb (fun c => negb (is_js_space c)) (txt "https://tools.example/geo") = true.
Proof.
  split; [reflexivity|].
  apply (mcpUrl_wellformed (txt "mcp:  https://tools.example/geo (resolves the city)")).
  reflexivity.
Defined.

(** * Selection stays within the catalog *)

Lemma filter_sublist {A} (f : A -> bool) l : sublist (List.filter f l) l.
Proof.
  induction l as [|x l IH]; [constructor|]. cbn [List.filter].
  destruct (f x); [by apply sublist_skip | by apply sublist_cons].
Qed.

Lemma serversFromReply_sublist servers response :
  sublist (serversFromReply servers response) servers.
Proof.
  destruct response as [[|c r]|]; cbn [serversFromReply]; try reflexivity.
  apply filter_sublist.
Qed.

Lemma toolsFromReply_sublist tools response :
  sublist (toolsFromReply tools response) tools.
Proof.
  destruct response as [[|c r]|]; cbn [toolsFromReply]; try apply sublist_take.
  apply filter_sublist.
Qed.

(** X18: whatever the model replies, the servers [selectRelevantServers]
    resolves to are servers of the configuration, and the tools
    [selectRelevantTools] resolves to are tools of the list it was given:
    in both cases a sub-list, in the order of the declaration, with
    nothing invented and nothing repeated. *)
Theorem selection_within_catalog w cfg input tools server :
  (forall selected, selectRelevantServers w cfg input = Resolved (Some selected) ->
     sublist selected (default [] (servers cfg))) /\
  (forall selected, selectRelevantTools w input tools server = Resolved (Some selected) ->
     sublist selected tools).
Proof.
  split; intros selected.
  - unfold selectRelevantServers.
    destruct (servers cfg) as [[|s declared]|]; try (intros [= <-]; constructor).
    destruct (callLLM w SelectServers _) as [response|e]; cbn [bind measure].
    + intros [= <-]. apply serversFromReply_sublist.
    + destruct (swallows w AtSelectServersBody); discriminate.
  - unfold selectRelevantTools.
    destruct tools as [|t tools]; [intros [= <-]; constructor|].
    destruct (callLLM w SelectTools _) as [response|e]; cbn [bind measure].
    + intros [= <-]. apply toolsFromReply_sublist.
    + destruct (swallows w AtSelectToolsBody); discriminate.
Qed.

(** * Failures of tools *)

Lemma selectRelevantTools_reply w callLLM' httpCall' input tools server :
  (forall prompt, callLLM' SelectTools prompt = callLLM w SelectTools prompt) ->
  selectRelevantTools (mkWorld (swallows w) callLLM' (httpTools w) httpCall') input tools server
  = selectRelevantTools w input tools server.
Proof.
  intros H. unfold selectRelevantTools. destruct tools as [|t tools]; [reflexivity|].
  cbn [swallows callLLM]. by rewrite H.
Qed.

(** X19: no failure of a tool fails the stage that discovers and invokes
    tools.  Whether that stage completes or throws is settled by the
    discovery requests and the selection of tools alone: it is the same
    whatever the tool calls answer, whatever the model replies when it is
    asked for the parameters of a tool, and whatever results were there
    before. *)
Theorem tool_failures_are_isolated w callLLM' httpCall' input relevantServers
    toolResults toolResults' :
  (forall prompt, callLLM' SelectTools prompt = callLLM w SelectTools prompt) ->
  fst (discoverAndInvoke (mkWorld (swallows w) callLLM' (httpTools w) httpCall')
         input relevantServers toolResults')
  = fst (discoverAndInvoke w input relevantServers toolResults).
Proof.
  intros Hsel. revert toolResults toolResults'.
  induction relevantServers as [|server rest IH]; intros tr tr'; [reflexivity|].
  cbn [discoverAndInvoke].
  change (discoverTools (mkWorld (swallows w) callLLM' (httpTools w) httpCall') server)
    with (discoverTools w server).
  destruct (notNull (discoverTools w server)) as [tools|e]; [|reflexivity].
  destruct (nonempty tools); [|apply IH].
  rewrite selectRelevantTools_reply by exact Hsel.
  cbn [swallows].
  destruct (notNull (flatten (measure (swallows w) AtSelectTools
                               (selectRelevantTools w input tools server))))
    as [relevantTools|e]; [|reflexivity].
  apply IH.
Qed.

Lemma tool_failures_are_isolated_witness :
  fst (discoverAndInvoke
         (mkWorld (swallows toolWorld)
            (fun purpose prompt =>
               match purpose with
               | GenerateParameters => Rejected (txt "model unavailable")
               | _ => callLLM toolWorld purpose prompt
               end)
            (httpTools toolWorld)
            (fun _ _ _ => Rejected (txt "Request failed: 500 - down")))
         sampleInput twoServers [])
  = Resolved tt.
Proof.
  refine (tool_failures_are_isolated toolWorld _ _ sampleInput twoServers [] [] _).
  intros prompt. reflexivity.
Defined.

(** * The event stream *)

Lemma splitLines_nonempty s : splitLines s <> [].
Proof.
  destruct s as [|c s]; [discriminate|]. cbn [splitLines].
  destruct (chr_eqb c "010"); [discriminate|]. by destruct (splitLines s).
Qed.

Lemma removelast_consHead c lines :
  lines <> [] ->
  removelast (consHead c lines) ++ [popLine (consHead c lines)]
  = consHead c (removelast lines ++ [popLine lines]).
Proof.
  intros Hne. destruct lines as [|l [|l' ls]]; [done | reflexivity |].
  cbn [consHead]. reflexivity.
Qed.

Lemma removelast_popLine lines : lines <> [] -> removelast lines ++ [popLine lines] = lines.
Proof.
  intros Hne.
  induction lines as [|l ls IH]; [done|].
  destruct ls as [|l' ls]; [reflexivity|].
  change (popLine (l :: l' :: ls)) with (popLine (l' :: ls)).
  change (removelast (l :: l' :: ls)) with (l :: removelast (l' :: ls)).
  cbn [app]. f_equal. by apply IH.
Qed.

(** Splitting a text given in two pieces: the lines of the first piece
    but the last, then the lines of what was held back followed by the
    second piece. *)
Lemma splitLines_app a b :
  splitLines (a ++ b) = removelast (splitLines a) ++ splitLines (popLine (splitLines a) ++ b).
Proof.
  induction a as [|c a IH]; [reflexivity|].
  cbn [app splitLines]. destruct (chr_eqb c "010") eqn:Ec.
  - rewrite IH. pose proof (splitLines_nonempty a) as Hne.
    destruct (splitLines a) as [|l ls]; [done|]. reflexivity.
  - rewrite IH. pose proof (splitLines_nonempty a) as Hne.
    destruct (splitLines a) as [|l [|l' ls]]; [done| |].
    + cbn [removelast consHead app popLine last default from_option id].
      cbn [splitLines]. by rewrite Ec.
    + reflexivity.
Qed.

Lemma removelast_app_nonempty {A} (xs ys : list A) :
  ys <> [] -> removelast (xs ++ ys) = xs ++ removelast ys.
Proof.
  intros Hne. induction xs as [|x xs IH]; [reflexivity|].
  cbn [app removelast]. destruct (xs ++ ys) eqn:E.
  - by destruct xs, ys.
  - by rewrite <- IH.
Qed.

Lemma popLine_app xs ys : ys <> [] -> popLine (xs ++ ys) = popLine ys.
Proof.
  intros Hne. unfold popLine. f_equal.
  destruct ys as [|y ys] using rev_ind; [done|].
  by rewrite app_assoc, !last_snoc.
Qed.

(** The loop keeps in [buffer] the line that is not complete yet, and
    has handed over the lines before it. *)
Lemma readLoop_invariant deltaText reads : forall seen st0,
  fold_left (onRead deltaText) reads
    (popLine (splitLines seen),
     fold_left (onLine deltaText) (removelast (splitLines seen)) st0)
  = (popLine (splitLines (seen ++ concat reads)),
     fold_left (onLine deltaText) (removelast (splitLines (seen ++ concat reads))) st0).
Proof.
  induction reads as [|piece reads IH]; intros seen st0.
  - cbn [fold_left concat]. by rewrite app_nil_r.
  - cbn [fold_left concat]. unfold onRead at 2. cbn [fst snd].
    rewrite <- fold_left_app.
    rewrite <- (removelast_app_nonempty _ _ (splitLines_nonempty _)).
    rewrite <- (popLine_app (removelast (splitLines seen)) _ (splitLines_nonempty _)).
    rewrite <- splitLines_app. rewrite IH. by rewrite app_assoc.
Qed.

Lemma onLine_empty deltaText st : onLine deltaText st [] = st.
Proof. reflexivity. Qed.

Lemma processChunk_nil st : processChunk st [] = (st, []).
Proof. unfold processChunk. cbn [processChars]. rewrite app_nil_r. by destruct st. Qed.

Lemma fold_onLine deltaText lines : forall st out,
  fold_left (onLine deltaText) lines (st, out)
  = (fst (processStream st (map (parseSseLine deltaText) lines)),
     out ++ snd (processStream st (map (parseSseLine deltaText) lines))).
Proof.
  induction lines as [|line lines IH]; intros st out.
  - cbn [fold_left map processStream fst snd]. by rewrite app_nil_r.
  - cbn [fold_left map processStream]. unfold onLine at 2. cbn [fst snd].
    destruct (nonempty (parseSseLine deltaText line)) eqn:E.
    + destruct (processChunk st (parseSseLine deltaText line)) as [st1 out1].
      rewrite IH. destruct (processStream st1 _) as [st2 out2]. cbn [fst snd].
      by rewrite app_assoc.
    + destruct (parseSseLine deltaText line); [|discriminate E].
      rewrite processChunk_nil, IH.
      destruct (processStream st _) as [st2 out2]. reflexivity.
Qed.

(** X20: reading an event stream hands to the demultiplexer the deltas of
    its lines, in order: the result is the result of the stream of chunks
    [parseSseLine] gives for the lines of the whole text.  So the places
    where the transport cut the text into reads change nothing: a line
    that a read leaves unfinished is kept and completed by the next
    read. *)
Theorem readStream_by_lines deltaText reads :
  readStream deltaText reads
  = (let chunks := map (parseSseLine deltaText) (splitLines (concat reads)) in
     (fullResponse (fst (processStream demux_init chunks)), streamUpdates chunks)) /\
  (forall reads', concat reads' = concat reads ->
     readStream deltaText reads' = readStream deltaText reads).
Proof.
  assert (H : forall rs, readStream deltaText rs
    = (let chunks := map (parseSseLine deltaText) (splitLines (concat rs)) in
       (fullResponse (fst (processStream demux_init chunks)), streamUpdates chunks))).
  { intros rs. unfold readStream.
    set (lines := splitLines (concat rs)).
    assert (Hloop : fold_left (onRead deltaText) rs ([], (demux_init, []))
                    = (popLine lines,
                       fold_left (onLine deltaText) (removelast lines) (demux_init, [])))
      by exact (readLoop_invariant deltaText rs [] (demux_init, [])).
    rewrite Hloop.
    assert (Hend :
      (if nonempty (popLine lines)
       then onLine deltaText
              (fold_left (onLine deltaText) (removelast lines) (demux_init, [])) (popLine lines)
       else fold_left (onLine deltaText) (removelast lines) (demux_init, []))
      = fold_left (onLine deltaText) lines (demux_init, [])).
    { transitivity (fold_left (onLine deltaText) (removelast lines ++ [popLine lines])
                      (demux_init, []));
        [|by rewrite removelast_popLine by apply splitLines_nonempty].
      rewrite fold_left_app. cbn [fold_left].
      destruct (popLine lines); [by rewrite onLine_empty | reflexivity]. }
    rewrite Hend, fold_onLine. cbv zeta. cbn [fst snd app]. unfold streamUpdates.
    by destruct (processStream demux_init _). }
  split; [apply H|]. intros reads' Heq. by rewrite !H, Heq.
Qed.

(** * The task description *)

Lemma own_or_nil schema :
  (if nonempty (ownDescription schema) then ownDescription schema else [])
  = ownDescription schema.
Proof. by destruct (ownDescription schema). Qed.

Lemma describeFrom_found schema : forall description currentPath,
  describeFrom description currentPath schema
  = describedLine currentPath
      (withConstraint (if nonempty description then description else foundDescription schema)
         (constraintOf (coreOf schema)))
    ++ match coreOf schema with
       | SObject _ shape =>
           concat (map (fun kf =>
                     describeFrom [] (underscorePath currentPath (fst kf)) (snd kf))
                   shape)
       | _ => []
       end.
Proof.
  induction schema as [d|d|d|d vs|d el _|d shape|d inner IH|d inner IH|d tn];
    intros description currentPath.
  all: cbn [describeFrom coreOf foundDescription].
  1-6, 9: rewrite own_or_nil, ?app_nil_r; reflexivity.
  - rewrite IH. destruct (nonempty description) eqn:E; [by rewrite E|].
    by destruct (nonempty (ownDescription (SOptional d inner))) eqn:E'; rewrite ?E'.
  - rewrite IH. destruct (nonempty description) eqn:E; [by rewrite E|].
    by destruct (nonempty (ownDescription (SNullable d inner))) eqn:E'; rewrite ?E'.
Qed.

Lemma withConstraint_nonempty description c :
  nonempty (withConstraint description (Some c)) = true.
Proof.
  unfold withConstraint. destruct description as [|a description]; reflexivity.
Qed.

Lemma fieldAt_line shape keys schema : fieldAt shape keys schema ->
  forall path c,
  constraintOf (coreOf schema) = Some c ->
  In (fieldLine (underscoredPath path keys)
        (withConstraint (foundDescription schema) (Some c)))
     (getFieldDescriptions shape path).
Proof.
  induction 1 as [shape key schema Hin | shape key parent d shape' keys schema Hin Hcore _ IH];
    intros path c Hc.
  - unfold getFieldDescriptions. apply in_concat.
    exists (describeFrom [] (underscorePath path key) schema). split.
    + apply in_map_iff. by exists (key, schema).
    + rewrite describeFrom_found, Hc. cbn [nonempty]. unfold describedLine.
      rewrite withConstraint_nonempty. by left.
  - unfold getFieldDescriptions. apply in_concat.
    exists (describeFrom [] (underscorePath path key) parent). split.
    + apply in_map_iff. by exists (key, parent).
    + rewrite describeFrom_found, Hcore. apply in_or_app. right.
      apply (IH (underscorePath path key) c Hc).
Qed.

(** With keys that are not empty the path is the keys joined by
    underscores: the name the streaming demultiplexer gives the field. *)
Lemma underscoredPath_field keys :
  Forall (fun k => k <> []) keys -> underscoredPath [] keys = currentField keys.
Proof.
  intros H. destruct keys as [|k keys]; [reflexivity|].
  inversion H as [|? ? Hk Hks]; subst. unfold underscoredPath, currentField. cbn [fold_left join].
  assert (G : forall ks p, p <> [] -> Forall (fun k => k <> []) ks ->
              fold_left underscorePath ks p = p ++ concat (map (fun q => txt "_" ++ q) ks)).
  { induction ks as [|q ks IH]; intros p Hp Hq; cbn [fold_left map concat]; [by rewrite app_nil_r|].
    inversion Hq; subst. rewrite IH; auto.
    - destruct p; [done|]. cbn [underscorePath]. by rewrite <- app_assoc.
    - destruct p; [done|]. discriminate. }
  by apply G.
Qed.

Lemma join_In (sep line : str) lines :
  In line lines -> exists pre post, join sep lines = pre ++ line ++ post.
Proof.
  intros Hin. destruct lines as [|l ls]; [destruct Hin|]. cbn [join].
  destruct Hin as [->|Hin].
  - by exists [], (concat (map (fun q => sep ++ q) ls)).
  - revert l. induction ls as [|l' ls IH]; intros l; [destruct Hin|].
    cbn [map concat]. destruct Hin as [->|Hin].
    + exists (l ++ sep), (concat (map (fun q => sep ++ q) ls)).
      by rewrite <- !app_assoc.
    + destruct (IH Hin l') as (pre & post & Hj).
      exists (l ++ sep ++ pre), post. rewrite <- !app_assoc. f_equal. f_equal.
      exact Hj.
Qed.

(** X21: every boolean and every enumeration of the output schema, at any
    depth and under any wrappers, has its line in the task description:
    the path of the field with its keys joined by underscores (the name
    the demultiplexer reports the field under), then the description found
    for the field, if there is one, and the constraint: the two literals
    of a boolean, or the values of the enumeration, each in double
    quotes. *)
Theorem constrained_fields_are_described shape keys schema c :
  fieldAt shape keys schema ->
  Forall (fun k => k <> []) keys ->
  constraintOf (coreOf schema) = Some c ->
  exists pre post,
    generateTaskDescription shape
    = pre ++ fieldLine (currentField keys)
               (withConstraint (foundDescription schema) (Some c)) ++ post.
Proof.
  intros Hat Hkeys Hc.
  pose proof (fieldAt_line shape keys schema Hat [] c Hc) as Hin.
  rewrite underscoredPath_field in Hin by exact Hkeys.
  unfold generateTaskDescription. cbv zeta.
  destruct (getFieldDescriptions shape []) as [|l ls] eqn:E; [destruct Hin|].
  cbn [nonempty]. rewrite <- E in *.
  destruct (join_In ["010"] _ _ Hin) as (pre & post & Hj). rewrite Hj.
  exists (baseTask ++ "010" :: txt "accordingly to following instructions:"
          ++ "010" :: "010" :: pre), post.
  rewrite <- !app_assoc. cbn [app]. f_equal.
Qed.

Lemma constrained_fields_are_described_witness :
  exists pre post,
    generateTaskDescription statusShape
    = pre ++ (txt "- analysis_done SHOULD be whether it is over. Must be either "
              ++ quoted (txt "true") ++ txt " or " ++ quoted (txt "false")) ++ post.
Proof.
  refine (constrained_fields_are_described statusShape [txt "analysis"; txt "done"]
            (SNullable (Some (txt "whether it is over")) (SBoolean None)) _ _ _ eq_refl).
  - eapply fieldAt_below; [right; by left | reflexivity |].
    apply fieldAt_here. right. by left.
  - repeat constructor; discriminate.
Defined.

(** * The citations of a report *)

Lemma addressAt_ok s url rest : addressAt s = Some (url, rest) -> addressOk url = true.
Proof.
  unfold addressAt.
  assert (H : forall sc tail, forallb not_space sc = true ->
            nonempty (take_while not_space tail) = true ->
            forallb not_space (sc ++ take_while not_space tail) = true /\
            startsWith (sc ++ take_while not_space tail) sc = true /\
            (length sc <? length (sc ++ take_while not_space tail))%nat = true).
  { intros sc tail Hsc Hne. split; [|split].
    - rewrite forallb_app, Hsc. apply take_while_forallb.
    - apply startsWith_app.
    - apply Nat.ltb_lt. rewrite length_app.
      destruct (take_while not_space tail); [discriminate Hne | cbn [length]; lia]. }
  destruct (startsWith s (txt "https://")).
  - set (tail := drop (length (txt "https://")) s).
    destruct (nonempty (take_while not_space tail)) eqn:E; [|discriminate].
    destruct (H (txt "https://") tail eq_refl E) as (H1 & H2 & H3).
    set (u := txt "https://" ++ take_while not_space tail) in *.
    intros Heq. assert (Hu : url = u) by congruence. subst url.
    unfold addressOk. by rewrite H1, H2, H3.
  - destruct (startsWith s (txt "http://")); [|discriminate].
    set (tail := drop (length (txt "http://")) s).
    destruct (nonempty (take_while not_space tail)) eqn:E; [|discriminate].
    destruct (H (txt "http://") tail eq_refl E) as (H1 & H2 & H3).
    set (u := txt "http://" ++ take_while not_space tail) in *.
    intros Heq. assert (Hu : url = u) by congruence. subst url.
    unfold addressOk. rewrite H1, H2, H3. cbn [andb]. apply orb_true_r.
Qed.

Lemma citationAt_ok s url rest : citationAt s = Some (url, rest) -> addressOk url = true.
Proof.
  unfold citationAt. destruct s as [|c r]; [discriminate|].
  destruct (chr_eqb c "[" && nonempty (take_while is_digit r)); [|discriminate].
  destruct (drop_while is_digit r) as [|c1 [|c2 r2]]; try discriminate.
  destruct (chr_eqb c1 "]" && chr_eqb c2 ":"); [|discriminate].
  apply addressAt_ok.
Qed.

(** X22: every citation [deepResearch] takes from a report is an address
    with no white space in it that starts with [http://] or [https://]
    and goes on for at least one more character, whatever the report
    holds. *)
Theorem citations_are_addresses finalReport :
  Forall (fun url => addressOk url = true) (citations finalReport).
Proof.
  unfold citations. generalize 0%nat as skip.
  induction finalReport as [|c r IH]; intros skip; [constructor|].
  cbn [citationsFrom]. destruct skip as [|k]; [|apply IH].
  destruct (citationAt (c :: r)) as [[url rest]|] eqn:E; [|apply IH].
  constructor; [by apply citationAt_ok in E | apply IH].
Qed.

Lemma drop_while_stop p (x : str) c s :
  Forall (fun a => p a = true) x -> p c = false -> drop_while p (x ++ c :: s) = c :: s.
Proof.
  induction 1 as [|a x Ha _ IH]; intros Hc; cbn [app drop_while].
  - by rewrite Hc.
  - rewrite Ha. by apply IH.
Qed.

Lemma forallb_Forall {A} (p : A -> bool) l :
  forallb p l = true -> Forall (fun a => p a = true) l.
Proof. rewrite forallb_forall, List.Forall_forall. done. Qed.

Lemma addressOk_inv url :
  addressOk url = true ->
  exists sc host,
    url = sc ++ host /\ (sc = txt "https://" \/ sc = txt "http://") /\
    host <> [] /\ Forall (fun c => not_space c = true) host /\
    (sc = txt "http://" -> startsWith url (txt "https://") = false).
Proof.
  unfold addressOk. intros H. apply andb_true_iff in H as [Hns H].
  assert (Hhost : forall sc host, url = sc ++ host ->
            (length sc <? length url)%nat = true ->
            host <> [] /\ Forall (fun c => not_space c = true) host).
  { intros sc host -> Hlen. apply Nat.ltb_lt in Hlen. rewrite length_app in Hlen. split.
    - intros ->. cbn [length] in Hlen. lia.
    - rewrite forallb_app in Hns. apply andb_true_iff in Hns as [_ Hns].
      by apply forallb_Forall. }
  destruct (startsWith url (txt "https://")) eqn:Hs.
  - cbn [andb orb] in H. apply startsWith_spec in Hs as [host Hurl].
    destruct (length (txt "https://") <? length url)%nat eqn:Hlen.
    + destruct (Hhost _ _ Hurl Hlen) as [H1 H2].
      exists (txt "https://"), host.
      split; [exact Hurl|]. split; [by left|]. split; [exact H1|]. split; [exact H2|].
      discriminate.
    + cbn [orb] in H. apply andb_true_iff in H as [Hs' _].
      apply startsWith_spec in Hs' as [host' Hurl']. rewrite Hurl in Hurl'.
      discriminate Hurl'.
  - cbn [andb orb] in H. apply andb_true_iff in H as [Hs' Hlen].
    apply startsWith_spec in Hs' as [host Hurl].
    destruct (Hhost _ _ Hurl Hlen) as [H1 H2].
    exists (txt "http://"), host.
    split; [exact Hurl|]. split; [by right|]. split; [exact H1|]. split; [exact H2|].
    done.
Qed.

Lemma addressAt_line url rest :
  addressOk url = true -> addressAt (url ++ "010" :: rest) = Some (url, "010" :: rest).
Proof.
  intros Hok. destruct (addressOk_inv url Hok) as (sc & host & Hurl & Hsc & Hne & Hhost & Hhttp).
  assert (Htail : forall sc', startsWith (url ++ "010" :: rest) sc' = true -> sc' = sc ->
            (let tail := drop (length sc') (url ++ "010" :: rest) in
             if nonempty (take_while not_space tail)
             then Some (sc' ++ take_while not_space tail, drop_while not_space tail)
             else None) = Some (url, "010" :: rest)).
  { intros sc' _ ->. cbv zeta. rewrite Hurl, <- app_assoc, drop_app_length.
    rewrite take_while_stop, drop_while_stop by (exact Hhost || reflexivity).
    destruct host; done. }
  unfold addressAt. destruct Hsc as [-> | ->].
  - assert (Hs : startsWith (url ++ "010" :: rest) (txt "https://") = true)
      by (rewrite Hurl, <- app_assoc; apply startsWith_app).
    rewrite Hs. by apply Htail.
  - assert (Hs : startsWith (url ++ "010" :: rest) (txt "http://") = true)
      by (rewrite Hurl, <- app_assoc; apply startsWith_app).
    assert (Hs' : startsWith (url ++ "010" :: rest) (txt "https://") = false).
    { rewrite Hurl. apply not_true_iff_false. intros Hx.
      apply startsWith_spec in Hx as [r Hr]. cbn in Hr. discriminate Hr. }
    rewrite Hs', Hs. by apply Htail.
Qed.

Lemma citationAt_line n url rest :
  addressOk url = true ->
  citationAt (referenceLine (n, url) ++ rest) = Some (url, "010" :: rest).
Proof.
  intros Hok. unfold referenceLine, citationAt. cbn [fst snd app].
  change (txt "]: ") with ["]"; ":"; " "].
  rewrite <- !app_assoc. cbn [app].
  pose proof (N_to_str_digits n) as Hd. pose proof (N_to_str_nonempty n) as Hn.
  rewrite take_while_stop, drop_while_stop by (exact Hd || reflexivity).
  change (chr_eqb "[" "[") with true.
  destruct (N_to_str n) as [|d ds] eqn:E; [done|]. cbn [nonempty andb].
  change (chr_eqb "]" "]" && chr_eqb ":" ":") with true. cbv iota.
  destruct (addressOk_inv url Hok) as (sc & host & Hurl & Hsc & _).
  assert (Hsp : drop_while is_js_space (" " :: url ++ "010" :: rest) = url ++ "010" :: rest).
  { cbn [drop_while]. change (is_js_space " ") with true. cbv iota.
    rewrite Hurl. destruct Hsc as [-> | ->]; reflexivity. }
  rewrite Hsp. by apply addressAt_line.
Qed.

Lemma citationsFrom_skip x : forall n s,
  length x = n -> citationsFrom n (x ++ s) = citationsFrom 0 s.
Proof.
  induction x as [|c x IH]; intros n s Hn; cbn [length] in Hn; subst n; [reflexivity|].
  cbn [app citationsFrom length]. by apply IH.
Qed.

Lemma citationsFrom_prose pre s :
  Forall (fun c => c <> "[") pre -> citationsFrom 0 (pre ++ s) = citationsFrom 0 s.
Proof.
  induction 1 as [|c pre Hc _ IH]; [reflexivity|].
  cbn [app citationsFrom citationAt].
  by rewrite (proj2 (chr_eqb_neq c "[") Hc).
Qed.

Lemma citations_line n url rest :
  addressOk url = true ->
  citationsFrom 0 (referenceLine (n, url) ++ rest) = url :: citationsFrom 0 rest.
Proof.
  intros Hok. pose proof (citationAt_line n url rest Hok) as Hat.
  assert (Hshape : referenceLine (n, url) ++ rest
                   = "[" :: (N_to_str n ++ txt "]: " ++ url) ++ "010" :: rest).
  { unfold referenceLine. cbn [fst snd app]. f_equal. by rewrite <- !app_assoc. }
  rewrite Hshape in *. cbn [citationsFrom]. rewrite Hat. f_equal.
  rewrite citationsFrom_skip.
  - cbn [citationsFrom citationAt]. reflexivity.
  - cbn [length]. rewrite !length_app. cbn [length]. lia.
Qed.

(** X23: from a report that ends with a reference list, one line
    [[n]: address] for each source, after any text with no ['['] in it,
    [deepResearch] takes the addresses of the list, all of them, in
    order. *)
Theorem citations_of_reference_list prose refs :
  Forall (fun c => c <> "[") prose ->
  Forall (fun ref => addressOk (snd ref) = true) refs ->
  citations (prose ++ concat (map referenceLine refs)) = map snd refs.
Proof.
  intros Hprose Hrefs. unfold citations. rewrite citationsFrom_prose by exact Hprose.
  induction Hrefs as [|[n url] refs Hok _ IH]; [reflexivity|].
  cbn [map concat snd]. rewrite citations_line by exact Hok. by f_equal.
Qed.

Lemma citations_of_reference_list_witness :
  citations (txt "Sources" ++ "010" ::
             concat (map referenceLine [(1%N, txt "https://a.example/x");
                                        (12%N, txt "http://b.example")]))
  = [txt "https://a.example/x"; txt "http://b.example"].
Proof.
  apply (citations_of_reference_list (txt "Sources" ++ ["010"])
           [(1%N, txt "https://a.example/x"); (12%N, txt "http://b.example")]).
  - repeat constructor; discriminate.
  - repeat constructor.
Defined.

(** * The skeleton of the output format *)

Lemma fold_obj_set_fields {M} (key : M -> str) (val : M -> JsVal) ms : forall acc,
  Forall (fun m => keyOk (key m) = true) ms ->
  distinct (map key ms) = true ->
  (forall m, In m ms -> ~ In (key m) (map fst acc)) ->
  fold_left (fun result m => obj_set (key m) (val m) result) ms acc
  = acc ++ map (fun m => (key m, val m)) ms.
Proof.
  induction ms as [|m ms IH]; intros acc Hk Hd Hacc.
  - cbn [fold_left map]. by rewrite app_nil_r.
  - inversion Hk as [|? ? Hm Hk']; subst.
    cbn [map] in Hd. apply distinct_cons in Hd as [Hni Hd].
    cbn [fold_left map]. rewrite obj_set_new; [|exact Hm | apply Hacc; by left].
    rewrite IH; [by rewrite <- app_assoc | exact Hk' | exact Hd |].
    intros m' Hm' Hin. rewrite List.map_app in Hin. cbn [map fst] in Hin.
    apply in_app_or in Hin as [Hin|[Hin|[]]].
    + apply (Hacc m'); [by right | exact Hin].
    + apply Hni. rewrite Hin. by apply in_map.
Qed.

Lemma describeField_skeleton schema :
  wellKeyed schema = true -> describeField schema = skeleton schema.
Proof.
  induction schema as [| | |values|element _|shape IH|inner IH|inner IH|typeName]
    using ZodType_nested_ind; intros Hw; try reflexivity.
  - cbn [wellKeyed] in Hw. apply andb_true_iff in Hw as [Hd Hall].
    rewrite forallb_forall in Hall.
    cbn [describeField skeleton]. f_equal.
    rewrite (fold_obj_set_fields fst (fun kf => describeField (snd kf))).
    + cbn [app]. apply map_ext_in. intros kf Hin. f_equal.
      rewrite List.Forall_forall in IH. apply IH; [exact Hin|].
      specialize (Hall kf Hin). by apply andb_true_iff in Hall as [_ Hall].
    + apply List.Forall_forall. intros kf Hin. specialize (Hall kf Hin).
      by apply andb_true_iff in Hall as [Hall _].
    + exact Hd.
    + intros m _ [].
  - cbn [wellKeyed describeField skeleton] in *. by apply IH.
  - cbn [wellKeyed describeField skeleton] in *. by apply IH.
Qed.

(** X24: the description of the output format that goes into the prompt
    has the shape of the schema: at each level the declared fields, once
    each and in the order of the declaration, an object for an object and
    the empty string for any other kind, optional and nullable wrappers
    looked through.  This holds when the field names are of the alphabet
    of the codec and distinct in each object. *)
Theorem output_skeleton_mirrors_schema shape :
  wellKeyed (ZodObject shape) = true ->
  getOutputFormatDescription shape = skeleton (ZodObject shape).
Proof. intros Hw. unfold getOutputFormatDescription. by apply describeField_skeleton. Qed.

Lemma output_skeleton_mirrors_schema_witness :
  wellKeyed (ZodObject [(txt "answer", ZodString);
                        (txt "analysis",
                         ZodOptional (ZodObject [(txt "step1", ZodString);
                                                 (txt "done", ZodNullable ZodBoolean)]))])
  = true /\
  getOutputFormatDescription
    [(txt "answer", ZodString);
     (txt "analysis",
      ZodOptional (ZodObject [(txt "step1", ZodString);
                              (txt "done", ZodNullable ZodBoolean)]))]
  = VObj [(txt "answer", VStr []);
          (txt "analysis", VObj [(txt "step1", VStr []); (txt "done", VStr [])])].
Proof.
  split; [reflexivity|].
  apply (output_skeleton_mirrors_schema
           [(txt "answer", ZodString);
            (txt "analysis",
             ZodOptional (ZodObject [(txt "step1", ZodString);
                                     (txt "done", ZodNullable ZodBoolean)]))]).
  reflexivity.
Defined.
